(** * to-chinese-json: extraction, cleaning, deduplication and mapping

    A shallow embedding of the text pipeline of the repository:
    - [ASTChineseExtractor] (src/ast-chinese-extractor.js): the tree walker
      over the TypeScript syntax tree, its cleaner and its classifier;
    - the ts-morph based [extractChineseFromFile] with [isStringLiteralAsKey]
      and [isInConsoleStatement];
    - the regular-expression based [extractChineseFromFile] (src/index.js)
      with [extractChineseFromLine], [cleanChineseText], [isValidChineseText],
      [deduplicateTexts] and [generateMapping];
    - [TranslationManager.batchTranslate] and [BaiduTranslator]
      (src/translators.js);
    - [loadApiConfig] (src/index.js) and the two extraction loops of
      src/enhanced-index.js.

    A JavaScript string is its sequence of UTF-16 code units.  Every regular
    expression of the source is written as the function the engine computes
    for it; the comment in front of each one quotes the expression. *)

From Stdlib Require Import ZArith List Bool Lia String Ascii Arith.
Import ListNotations.
Open Scope Z_scope.

(* ================================================================== *)
(** ** JavaScript strings *)

Module JS.

Definition jsstring := list Z.

Definition jsstring_eq_dec : forall a b : jsstring, {a = b} + {a <> b} :=
  list_eq_dec Z.eq_dec.

Definition str_eqb (a b : jsstring) : bool :=
  if jsstring_eq_dec a b then true else false.

(** *** Source literals

    The literals of this file are written in UTF-8, as the JavaScript
    sources are; [u] turns one into the UTF-16 code units the engine sees. *)

Fixpoint utf8_points (bs : list Z) : list Z :=
  match bs with
  | [] => []
  | b0 :: r0 =>
    if b0 <? 0x80 then b0 :: utf8_points r0
    else match r0 with
    | [] => [0xFFFD]
    | b1 :: r1 =>
      if b0 <? 0xE0 then
        ((b0 - 0xC0) * 0x40 + (b1 - 0x80)) :: utf8_points r1
      else match r1 with
      | [] => [0xFFFD]
      | b2 :: r2 =>
        if b0 <? 0xF0 then
          ((b0 - 0xE0) * 0x1000 + (b1 - 0x80) * 0x40 + (b2 - 0x80))
            :: utf8_points r2
        else match r2 with
        | [] => [0xFFFD]
        | b3 :: r3 =>
          ((b0 - 0xF0) * 0x40000 + (b1 - 0x80) * 0x1000
             + (b2 - 0x80) * 0x40 + (b3 - 0x80)) :: utf8_points r3
        end
      end
    end
  end.

Definition utf16_of_point (cp : Z) : list Z :=
  if cp <? 0x10000 then [cp]
  else [0xD800 + (cp - 0x10000) / 0x400; 0xDC00 + (cp - 0x10000) mod 0x400].

Definition u (s : string) : jsstring :=
  flat_map utf16_of_point
    (utf8_points (map (fun a => Z.of_N (N_of_ascii a)) (list_ascii_of_string s))).

(** *** Code points of a string (the view of a [/u] expression) *)

Definition isHighSurrogate (c : Z) : bool := (0xD800 <=? c) && (c <=? 0xDBFF).
Definition isLowSurrogate (c : Z) : bool := (0xDC00 <=? c) && (c <=? 0xDFFF).

Definition surrogatePoint (hi lo : Z) : Z :=
  0x10000 + (hi - 0xD800) * 0x400 + (lo - 0xDC00).

Fixpoint codePoints (s : jsstring) : list Z :=
  match s with
  | [] => []
  | c :: rest =>
    match rest with
    | d :: rest' =>
      if isHighSurrogate c && isLowSurrogate d
      then surrogatePoint c d :: codePoints rest'
      else c :: codePoints rest
    | [] => [c]
    end
  end.

(** *** Character classes *)

Definition inRange (lo hi c : Z) : bool := (lo <=? c) && (c <=? hi).

Definition inSet (cs : list Z) (c : Z) : bool := existsb (Z.eqb c) cs.

(** [\s], and the characters [String.prototype.trim] removes: white space
    and line terminators. *)
Definition isSpace (c : Z) : bool :=
  inRange 0x09 0x0D c || (c =? 0x20) || (c =? 0xA0) || (c =? 0x1680)
  || inRange 0x2000 0x200A c || (c =? 0x2028) || (c =? 0x2029)
  || (c =? 0x202F) || (c =? 0x205F) || (c =? 0x3000) || (c =? 0xFEFF).

(** [\d] *)
Definition isDigit (c : Z) : bool := inRange 0x30 0x39 c.

(** [[a-zA-Z]] *)
Definition isLatinLetter (c : Z) : bool :=
  inRange 0x61 0x7A c || inRange 0x41 0x5A c.

(** [\w] *)
Definition isWord (c : Z) : bool :=
  isLatinLetter c || isDigit c || (c =? 0x5F).

(** [[一-鿿]] *)
Definition isChinese (c : Z) : bool := inRange 0x4e00 0x9fff c.

(** [[\u0000-\u007F]] *)
Definition isAscii (c : Z) : bool := inRange 0x00 0x7F c.

(** *** String primitives *)

Fixpoint dropWhile (p : Z -> bool) (s : jsstring) : jsstring :=
  match s with
  | [] => []
  | c :: rest => if p c then dropWhile p rest else s
  end.

Fixpoint takeWhile (p : Z -> bool) (s : jsstring) : jsstring :=
  match s with
  | [] => []
  | c :: rest => if p c then c :: takeWhile p rest else []
  end.

Definition dropWhileEnd (p : Z -> bool) (s : jsstring) : jsstring :=
  rev (dropWhile p (rev s)).

(** [s.trim()] *)
Definition trim (s : jsstring) : jsstring :=
  dropWhileEnd isSpace (dropWhile isSpace s).

(** [s.startsWith(p)] *)
Fixpoint startsWith (p s : jsstring) : bool :=
  match p, s with
  | [], _ => true
  | a :: p', b :: s' => (a =? b) && startsWith p' s'
  | _ :: _, [] => false
  end.

(** [s.endsWith(p)] *)
Definition endsWith (p s : jsstring) : bool := startsWith (rev p) (rev s).

Definition lastIs (p : Z -> bool) (s : jsstring) : bool :=
  match rev s with
  | c :: _ => p c
  | [] => false
  end.

Definition firstIs (p : Z -> bool) (s : jsstring) : bool :=
  match s with
  | c :: _ => p c
  | [] => false
  end.

(** [s.length] *)
Definition strlen (s : jsstring) : Z := Z.of_nat (List.length s).

(** [!s] on a string: the empty string is the only falsy one. *)
Definition isEmpty (s : jsstring) : bool :=
  match s with
  | [] => true
  | _ => false
  end.

(** [re.test(s)] for an expression without anchors: [m] says whether the
    expression matches at the front of its argument; the engine tries every
    start position, the end of the string included. *)
Fixpoint anywhere (m : jsstring -> bool) (s : jsstring) : bool :=
  m s || match s with
         | [] => false
         | _ :: rest => anywhere m rest
         end.

(** [s.replace(/[class]/g, ' ')] *)
Definition replaceClassBySpace (p : Z -> bool) (s : jsstring) : jsstring :=
  map (fun c => if p c then 0x20 else c) s.

(** [s.replace(/[class]+/g, '')] *)
Definition removeClass (p : Z -> bool) (s : jsstring) : jsstring :=
  filter (fun c => negb (p c)) s.

(** [s.replace(/\s+/g, r)] for a one-character [r]: every run of white
    space becomes one [r]. *)
Fixpoint replaceSpaceRunsGo (r : Z) (inRun : bool) (s : jsstring)
  : jsstring :=
  match s with
  | [] => []
  | c :: rest =>
    if isSpace c then
      if inRun then replaceSpaceRunsGo r true rest
      else r :: replaceSpaceRunsGo r true rest
    else c :: replaceSpaceRunsGo r false rest
  end.

Definition replaceSpaceRuns (r : Z) (s : jsstring) : jsstring :=
  replaceSpaceRunsGo r false s.

(** [s.split(re)] for an expression that never matches the empty string:
    [m s] is the rest of [s] after the match of [re] at its front, if there
    is one.  The engine scans from the end of the last match; the text
    between two matches is one element, and the text after the last match
    is the last element.  Every step consumes a code unit, so a fuel of the
    length of the string is enough. *)
Fixpoint splitGo (m : jsstring -> option jsstring) (fuel : nat)
    (s acc : jsstring) : list jsstring :=
  match fuel with
  | O => [rev acc ++ s]
  | S fuel' =>
    match s with
    | [] => [rev acc]
    | c :: rest =>
      match m s with
      | Some rest' => rev acc :: splitGo m fuel' rest' []
      | None => splitGo m fuel' rest (c :: acc)
      end
    end
  end.

Definition split (m : jsstring -> option jsstring) (s : jsstring)
  : list jsstring :=
  splitGo m (List.length s) s [].

(** The [while ((match = re.exec(s)) !== null)] loop of a global expression
    that never matches the empty string: [m s] is the captured group and the
    rest of [s] after the match at its front.  [lastIndex] moves to the end
    of each match. *)
Fixpoint execAllGo {A : Type} (m : jsstring -> option (A * jsstring))
    (fuel : nat) (s : jsstring) : list A :=
  match fuel with
  | O => []
  | S fuel' =>
    match m s with
    | Some (g, rest') => g :: execAllGo m fuel' rest'
    | None =>
      match s with
      | [] => []
      | _ :: rest => execAllGo m fuel' rest
      end
    end
  end.

Definition execAll {A : Type} (m : jsstring -> option (A * jsstring))
    (s : jsstring) : list A :=
  execAllGo m (S (List.length s)) s.

(** [new Set(xs)], [set.add(x)] and [Array.from(set)]: a set keeps its
    elements in insertion order. *)
Definition setAdd (x : jsstring) (st : list jsstring) : list jsstring :=
  if existsb (str_eqb x) st then st else st ++ [x].

Definition setOfList (xs : list jsstring) : list jsstring :=
  fold_left (fun st x => setAdd x st) xs [].

End JS.
Import JS.

(* ================================================================== *)
(** ** The cleaner and the classifier

    [cleanChineseText] is the same function, comment for comment, in
    src/ast-chinese-extractor.js and in src/index.js; the code patterns of
    [isValidChineseText] are the same in every variant. *)

Module Text.

(** [containsChinese]: [/[一-鿿]/.test(text)] *)
Definition containsChinese (text : jsstring) : bool := existsb isChinese text.

(** The [/gu] expression of the first [replace]: the six ranges
    U+1F600-1F64F, U+1F300-1F5FF, U+1F680-1F6FF, U+1F1E0-1F1FF,
    U+2600-26FF and U+2700-27BF, matched on code points. *)
Definition isEmojiPoint (cp : Z) : bool :=
  inRange 0x1F600 0x1F64F cp || inRange 0x1F300 0x1F5FF cp
  || inRange 0x1F680 0x1F6FF cp || inRange 0x1F1E0 0x1F1FF cp
  || inRange 0x2600 0x26FF cp || inRange 0x2700 0x27BF cp.

Fixpoint replaceEmoji (s : jsstring) : jsstring :=
  match s with
  | [] => []
  | c :: rest =>
    match rest with
    | d :: rest' =>
      if isHighSurrogate c && isLowSurrogate d then
        if isEmojiPoint (surrogatePoint c d)
        then 0x20 :: replaceEmoji rest'
        else c :: d :: replaceEmoji rest'
      else (if isEmojiPoint c then 0x20 else c) :: replaceEmoji rest
    | [] => [if isEmojiPoint c then 0x20 else c]
    end
  end.

(** The class of the second [replace] has no [u] flag, so its members are
    code units: the glyphs of the basic plane, the variation selector
    U+FE0F, and both halves of every surrogate pair written in it
    (U+1F50D, 1F4C2, 1F4C1, 1F4C4, 1F310, 1F4E1, 1F4DD, 1F680, 1F4A1,
    1F3AF, 1F4CA, 1F6E0). *)
Definition iconGlyphs : list Z :=
  [0x2705; 0x274C; 0x23ED; 0xFE0F; 0xD83D; 0xDD0D; 0xDCC2; 0xDCC1; 0xDCC4;
   0xD83C; 0xDF10; 0xDCE1; 0xDCDD; 0x2728; 0xDE80; 0x26A0; 0xDCA1; 0xDFAF;
   0xDCCA; 0xDEE0].

(** The class of the third [replace], again on code units (U+25BA, 25B6,
    FE0F, 2B50, 1F389, 1F527, 1F4C8, 1F4C9, 1F4BB, 1F5A5, 1F4F1, 231A). *)
Definition otherGlyphs : list Z :=
  [0x25BA; 0x25B6; 0xFE0F; 0x2B50; 0xD83C; 0xDF89; 0xD83D; 0xDD27; 0xDCC8;
   0xDCC9; 0xDCBB; 0xDDA5; 0xDCF1; 0x231A].

(** The class of the fourth [replace]: the ASCII marks from the exclamation
    mark to the tilde that the expression lists (the backslash is not one
    of them; it only escapes the hyphen and the square brackets). *)
Definition asciiPunctuation : list Z :=
  [0x21; 0x40; 0x23; 0x24; 0x25; 0x5E; 0x26; 0x2A; 0x28; 0x29; 0x5F; 0x2B;
   0x2D; 0x3D; 0x5B; 0x5D; 0x7B; 0x7D; 0x7C; 0x3B; 0x27; 0x3A; 0x22; 0x2C;
   0x2E; 0x2F; 0x3C; 0x3E; 0x3F; 0x60; 0x7E].

(** The punctuation class used for trimming and splitting.  In the file the
    two quote pairs are the ASCII quotes U+0022 and U+0027. *)
Definition chinesePunctuation : list Z :=
  [0xFF0C; 0x3002; 0xFF1F; 0xFF01; 0xFF1B; 0xFF1A; 0x3001; 0x00B7; 0x0022;
   0x0027; 0xFF08; 0xFF09; 0x3010; 0x3011; 0x300A; 0x300B; 0x3008; 0x3009;
   0x300C; 0x300D; 0x300E; 0x300F; 0x2026; 0x2014; 0xFF0D; 0x3014; 0x3015;
   0x3016; 0x3017; 0xFF5B; 0xFF5D; 0xFF3B; 0xFF3D].

Definition isIconGlyph : Z -> bool := inSet iconGlyphs.
Definition isOtherGlyph : Z -> bool := inSet otherGlyphs.
Definition isAsciiPunctuation : Z -> bool := inSet asciiPunctuation.
Definition isChinesePunctuation : Z -> bool := inSet chinesePunctuation.

(** [[a-zA-Z0-9\s]] *)
Definition isLatinDigitSpace (c : Z) : bool :=
  isLatinLetter c || isDigit c || isSpace c.

(** The separator of [cleanedText.split(chinesePunctuationRegex)]: a run of
    punctuation marks. *)
Definition matchPunctuationRun (s : jsstring) : option jsstring :=
  match s with
  | c :: rest =>
    if isChinesePunctuation c then Some (dropWhile isChinesePunctuation rest)
    else None
  | [] => None
  end.

(** The first filter of the segments: [segment && /[一-鿿]/.test(segment)]. *)
Definition hasChineseContent (segment : jsstring) : bool :=
  negb (isEmpty segment) && containsChinese segment.

(** The second [map] of the segments. *)
Definition cleanSegment (segment : jsstring) : jsstring :=
  trim
    (dropWhileEnd isChinesePunctuation
       (dropWhile isChinesePunctuation
          (removeClass isAscii (removeClass isLatinDigitSpace segment)))).

(** The last filter of the segments. *)
Definition keepSegment (segment : jsstring) : bool :=
  negb (isEmpty segment)
  && (0 <? strlen segment)
  && containsChinese segment
  && (strlen segment <=? 20)
  && negb (firstIs isChinesePunctuation segment)
  && negb (lastIs isChinesePunctuation segment).

(** The text after the four symbol replacements. *)
Definition stripSymbols (text : jsstring) : jsstring :=
  replaceClassBySpace isAsciiPunctuation
    (replaceClassBySpace isOtherGlyph
       (replaceClassBySpace isIconGlyph (replaceEmoji text))).

(** The text after the boundary punctuation is removed too. *)
Definition stripBoundary (text : jsstring) : jsstring :=
  dropWhileEnd isChinesePunctuation
    (dropWhile isChinesePunctuation (stripSymbols text)).

Definition cleanChineseText (text : jsstring) : list jsstring :=
  if isEmpty text then []
  else
    let cleanedText := stripBoundary text in
    if isEmpty cleanedText || negb (containsChinese cleanedText) then []
    else
      let segments := split matchPunctuationRun cleanedText in
      filter keepSegment
        (map cleanSegment (filter hasChineseContent (map trim segments))).

(** *** The code patterns of [isValidChineseText] *)

(** [/[{}[\]();]/] *)
Definition isCodeBracket (c : Z) : bool :=
  inSet [0x7B; 0x7D; 0x5B; 0x5D; 0x28; 0x29; 0x3B] c.

(** [/\\n|\\t/]: a backslash followed by the letter n or t. *)
Definition matchEscape (s : jsstring) : bool :=
  match s with
  | 0x5C :: c :: _ => (c =? 0x6E) || (c =? 0x74)
  | _ => false
  end.

(** [/^\s*\/\//] *)
Definition startsWithComment (s : jsstring) : bool :=
  match dropWhile isSpace s with
  | 0x2F :: 0x2F :: _ => true
  | _ => false
  end.

(** An expression with the [i] flag and no [u] flag folds case through
    [toUpperCase] and never lets a character outside ASCII match one inside
    it, so the letters of a keyword match their two ASCII forms only. *)
Definition asciiLower (c : Z) : Z :=
  if inRange 0x41 0x5A c then c + 0x20 else c.

Fixpoint startsWithIgnoreCase (kw s : jsstring) : bool :=
  match kw, s with
  | [], _ => true
  | a :: kw', b :: s' => (a =? asciiLower b) && startsWithIgnoreCase kw' s'
  | _ :: _, [] => false
  end.

(** [/interface|class|function|const|let|var|export|import/i] *)
Definition keywords : list jsstring :=
  [u "interface"; u "class"; u "function"; u "const"; u "let"; u "var";
   u "export"; u "import"].

Definition matchKeyword (s : jsstring) : bool :=
  existsb (fun kw => startsWithIgnoreCase kw s) keywords.

(** [/\w+\s*:\s*\w+/] at a start position.  The classes [\w], [\s] and the
    colon are disjoint, so the greedy runs are the only way to match. *)
Definition matchPropertyDefinition (s : jsstring) : bool :=
  firstIs isWord s &&
  match dropWhile isSpace (dropWhile isWord s) with
  | 0x3A :: rest => firstIs isWord (dropWhile isSpace rest)
  | _ => false
  end.

(** The loop over [codePatterns]. *)
Definition looksLikeCode (text : jsstring) : bool :=
  existsb isCodeBracket text
  || anywhere matchEscape text
  || startsWithComment text
  || anywhere matchKeyword text
  || anywhere matchPropertyDefinition text.

(** [/^[\d\s.,，。]+$/] *)
Definition isNumberLike (c : Z) : bool :=
  isDigit c || isSpace c || inSet [0x2E; 0x2C; 0xFF0C; 0x3002] c.

Definition onlyNumbers (text : jsstring) : bool :=
  negb (isEmpty text) && forallb isNumberLike text.

(** [\p{P}]: the code points of general category P (Unicode 14.0), as
    inclusive ranges.  The table belongs to the engine, not to the
    repository. *)
Definition punctuationRanges : list (Z * Z) :=
  [
   (33, 35); (37, 42); (44, 47); (58, 59); (63, 64); (91, 93); (95, 95);
   (123, 123); (125, 125); (161, 161); (167, 167); (171, 171); (182, 183);
   (187, 187); (191, 191); (894, 894); (903, 903); (1370, 1375);
   (1417, 1418); (1470, 1470); (1472, 1472); (1475, 1475); (1478, 1478);
   (1523, 1524); (1545, 1546); (1548, 1549); (1563, 1563); (1565, 1567);
   (1642, 1645); (1748, 1748); (1792, 1805); (2039, 2041); (2096, 2110);
   (2142, 2142); (2404, 2405); (2416, 2416); (2557, 2557); (2678, 2678);
   (2800, 2800); (3191, 3191); (3204, 3204); (3572, 3572); (3663, 3663);
   (3674, 3675); (3844, 3858); (3860, 3860); (3898, 3901); (3973, 3973);
   (4048, 4052); (4057, 4058); (4170, 4175); (4347, 4347); (4960, 4968);
   (5120, 5120); (5742, 5742); (5787, 5788); (5867, 5869); (5941, 5942);
   (6100, 6102); (6104, 6106); (6144, 6154); (6468, 6469); (6686, 6687);
   (6816, 6822); (6824, 6829); (7002, 7008); (7037, 7038); (7164, 7167);
   (7227, 7231); (7294, 7295); (7360, 7367); (7379, 7379); (8208, 8231);
   (8240, 8259); (8261, 8273); (8275, 8286); (8317, 8318); (8333, 8334);
   (8968, 8971); (9001, 9002); (10088, 10101); (10181, 10182);
   (10214, 10223); (10627, 10648); (10712, 10715); (10748, 10749);
   (11513, 11516); (11518, 11519); (11632, 11632); (11776, 11822);
   (11824, 11855); (11858, 11869); (12289, 12291); (12296, 12305);
   (12308, 12319); (12336, 12336); (12349, 12349); (12448, 12448);
   (12539, 12539); (42238, 42239); (42509, 42511); (42611, 42611);
   (42622, 42622); (42738, 42743); (43124, 43127); (43214, 43215);
   (43256, 43258); (43260, 43260); (43310, 43311); (43359, 43359);
   (43457, 43469); (43486, 43487); (43612, 43615); (43742, 43743);
   (43760, 43761); (44011, 44011); (64830, 64831); (65040, 65049);
   (65072, 65106); (65108, 65121); (65123, 65123); (65128, 65128);
   (65130, 65131); (65281, 65283); (65285, 65290); (65292, 65295);
   (65306, 65307); (65311, 65312); (65339, 65341); (65343, 65343);
   (65371, 65371); (65373, 65373); (65375, 65381); (65792, 65794);
   (66463, 66463); (66512, 66512); (66927, 66927); (67671, 67671);
   (67871, 67871); (67903, 67903); (68176, 68184); (68223, 68223);
   (68336, 68342); (68409, 68415); (68505, 68508); (69293, 69293);
   (69461, 69465); (69510, 69513); (69703, 69709); (69819, 69820);
   (69822, 69825); (69952, 69955); (70004, 70005); (70085, 70088);
   (70093, 70093); (70107, 70107); (70109, 70111); (70200, 70205);
   (70313, 70313); (70731, 70735); (70746, 70747); (70749, 70749);
   (70854, 70854); (71105, 71127); (71233, 71235); (71264, 71276);
   (71353, 71353); (71484, 71486); (71739, 71739); (72004, 72006);
   (72162, 72162); (72255, 72262); (72346, 72348); (72350, 72354);
   (72769, 72773); (72816, 72817); (73463, 73464); (73727, 73727);
   (74864, 74868); (77809, 77810); (92782, 92783); (92917, 92917);
   (92983, 92987); (92996, 92996); (93847, 93850); (94178, 94178);
   (113823, 113823); (121479, 121483); (125278, 125279)  ].

Definition isUnicodePunctuation (cp : Z) : bool :=
  existsb (fun r => inRange (fst r) (snd r) cp) punctuationRanges.

(** [/^[\s\p{P}]+$/u] *)
Definition onlyPunctuation (text : jsstring) : bool :=
  negb (isEmpty text)
  && forallb (fun cp => isSpace cp || isUnicodePunctuation cp)
       (codePoints text).

Definition chineseCount (text : jsstring) : Z :=
  strlen (filter isChinese text).

Definition englishCount (text : jsstring) : Z :=
  strlen (filter isLatinLetter text).

(** *** The phrases of the cleaner *)

(** A character that is none of the symbols the replacements remove. *)
Definition noSymbol (c : Z) : Prop :=
  isEmojiPoint c = false /\ isIconGlyph c = false /\ isOtherGlyph c = false.

(** The characters of a cleaned phrase. *)
Definition isCleanChar (c : Z) : Prop :=
  isAscii c = false /\ isSpace c = false
  /\ isChinesePunctuation c = false /\ noSymbol c.

(** What [cleanChineseText] returns: phrases of at most 20 clean
    characters, one of them Chinese. *)
Definition isCleanPhrase (p : jsstring) : Prop :=
  p <> [] /\ strlen p <= 20 /\ containsChinese p = true
  /\ Forall isCleanChar p.

End Text.
Import Text.

(* ================================================================== *)
(** ** Syntax trees

    The parsers (typescript, ts-morph) are libraries; the extractors receive
    their trees.  [Node] has the node kinds the extractors look at, with the
    fields they read; every other kind is [OtherNode] with its children.
    [text] of a literal is its decoded value ([node.text],
    [getLiteralValue()]). *)

Module Syntax.

#[local] Unset Elimination Schemes.

Inductive Node : Type :=
| Identifier (text : jsstring)
| StringLiteral (text : jsstring)
| NoSubstitutionTemplateLiteral (text : jsstring)
| TemplateExpression (head : jsstring) (templateSpans : list Node)
| TemplateSpan (expression : Node) (literal : jsstring)
| JsxText (text : jsstring)
| JsxAttribute (name : jsstring) (initializer : option Node)
| EnumDeclaration (name : jsstring) (members : list Node)
| EnumMember (name : Node) (initializer : option Node)
| PropertyAssignment (name : Node) (initializer : Node)
| PropertyAccessExpression (expression : Node) (name : jsstring)
| CallExpression (expression : Node) (arguments : list Node)
| ExpressionStatement (expression : Node)
| OtherNode (children : list Node).

#[local] Set Elimination Schemes.

Definition optionNodes (o : option Node) : list Node :=
  match o with
  | Some n => [n]
  | None => []
  end.

(** The children [ts.forEachChild] visits, in its order.  The name of a
    property access, of an enum declaration and of a JSX attribute, and the
    head and the literals of a template, are leaves of kinds no extractor
    handles; they are left out. *)
Definition childrenOf (node : Node) : list Node :=
  match node with
  | Identifier _ | StringLiteral _ | NoSubstitutionTemplateLiteral _
  | JsxText _ => []
  | TemplateExpression _ spans => spans
  | TemplateSpan e _ => [e]
  | JsxAttribute _ init => optionNodes init
  | EnumDeclaration _ ms => ms
  | EnumMember n init => n :: optionNodes init
  | PropertyAssignment n init => [n; init]
  | PropertyAccessExpression e _ => [e]
  | CallExpression e args => e :: args
  | ExpressionStatement e => [e]
  | OtherNode cs => cs
  end.

End Syntax.
Import Syntax.

(* ================================================================== *)
(** ** src/ast-chinese-extractor.js *)

Module ASTChineseExtractor.

Record Options : Type := {
  extractFromComments : bool;
  extractFromConsole : bool;
  extractFromJSX : bool;
  extractFromEnumValues : bool;
  extractFromEnumKeys : bool
}.

(** The options the constructor sets. *)
Definition defaultOptions : Options := {|
  extractFromComments := false;
  extractFromConsole := false;
  extractFromJSX := true;
  extractFromEnumValues := true;
  extractFromEnumKeys := false
|}.

(** The extractor object: [this.chineseTexts] and [this.options]. *)
Record Extractor : Type := {
  chineseTexts : list jsstring;
  options : Options
}.

Definition newExtractor : Extractor :=
  {| chineseTexts := []; options := defaultOptions |}.

Definition isValidChineseText (text : jsstring) : bool :=
  if isEmpty text || negb (containsChinese text) then false
  else if isEmpty (trim text) || (20 <? strlen text) then false
  else if looksLikeCode text then false
  else if onlyNumbers text then false
  else if onlyPunctuation text then false
  else if chineseCount text <? englishCount text then false
  else true.

(** The block every handler repeats:
    [if (this.containsChinese(text)) { cleanChineseText(text).forEach(segment
    => { if (this.isValidChineseText(segment)) this.chineseTexts.add(segment)
    }) }]. *)
Definition addSegments (text : jsstring) (st : list jsstring)
  : list jsstring :=
  if containsChinese text then
    fold_left
      (fun acc segment =>
         if isValidChineseText segment then setAdd segment acc else acc)
      (cleanChineseText text) st
  else st.

Definition handleStringLiteral (text : jsstring) := addSegments text.

Definition handleTemplateLiteral (text : jsstring) := addSegments text.

Definition handleTemplateExpression (head : jsstring) (spans : list Node)
    (st : list jsstring) : list jsstring :=
  fold_left
    (fun acc span =>
       match span with
       | TemplateSpan _ literal => addSegments literal acc
       | _ => acc
       end)
    spans (addSegments head st).

Definition handleJSXText (o : Options) (text : jsstring)
    (st : list jsstring) : list jsstring :=
  if negb (extractFromJSX o) then st else addSegments text st.

Definition handleEnumMember (o : Options) (member : Node)
    (st : list jsstring) : list jsstring :=
  match member with
  | EnumMember name initializer =>
    let st :=
      match name with
      | Identifier keyName =>
        if extractFromEnumKeys o then addSegments keyName st else st
      | _ => st
      end in
    match initializer with
    | Some (StringLiteral value) =>
      if extractFromEnumValues o then addSegments value st else st
    | _ => st
    end
  | _ => st
  end.

Definition handleEnumDeclaration (o : Options) (members : list Node)
    (st : list jsstring) : list jsstring :=
  fold_left (fun acc member => handleEnumMember o member acc) members st.

Definition consoleMethods : list jsstring :=
  [u "log"; u "warn"; u "error"; u "info"; u "debug"; u "trace"; u "table";
   u "dir"; u "group"; u "groupEnd"].

(** [isConsoleCall(node)], on the callee of the call. *)
Definition isConsoleCall (callee : Node) : bool :=
  match callee with
  | PropertyAccessExpression (Identifier object) property =>
    str_eqb object (u "console") && existsb (str_eqb property) consoleMethods
  | _ => false
  end.

(** [handleCallExpression] returns early on a console call and does nothing
    otherwise: it changes no state in either branch. *)
Definition handleCallExpression (o : Options) (callee : Node)
    (st : list jsstring) : list jsstring :=
  if negb (extractFromConsole o) && isConsoleCall callee then st else st.

(** The [switch (node.kind)] of [visitNode].  Comment trivia are not nodes
    of the tree, so the two comment cases are never taken. *)
Definition handleNode (o : Options) (node : Node) (st : list jsstring)
  : list jsstring :=
  match node with
  | StringLiteral text => handleStringLiteral text st
  | NoSubstitutionTemplateLiteral text => handleTemplateLiteral text st
  | TemplateExpression head spans => handleTemplateExpression head spans st
  | JsxText text => handleJSXText o text st
  | EnumDeclaration _ members => handleEnumDeclaration o members st
  | CallExpression callee _ => handleCallExpression o callee st
  | _ => st
  end.

(** [visitNode]: the handler of the node, then
    [ts.forEachChild(node, child => this.visitNode(child))]. *)
Fixpoint visitNode (o : Options) (node : Node) (st : list jsstring)
    {struct node} : list jsstring :=
  let visitAll :=
    fix visitAll (ns : list Node) (st : list jsstring) : list jsstring :=
      match ns with
      | [] => st
      | n :: ns' => visitAll ns' (visitNode o n st)
      end in
  let visitOption (init : option Node) (st : list jsstring) :=
    match init with
    | Some n => visitNode o n st
    | None => st
    end in
  let st := handleNode o node st in
  match node with
  | Identifier _ | StringLiteral _ | NoSubstitutionTemplateLiteral _
  | JsxText _ => st
  | TemplateExpression _ spans => visitAll spans st
  | TemplateSpan e _ => visitNode o e st
  | JsxAttribute _ init => visitOption init st
  | EnumDeclaration _ ms => visitAll ms st
  | EnumMember n init => visitOption init (visitNode o n st)
  | PropertyAssignment n init => visitNode o init (visitNode o n st)
  | PropertyAccessExpression e _ => visitNode o e st
  | CallExpression e args => visitAll args (visitNode o e st)
  | ExpressionStatement e => visitNode o e st
  | OtherNode cs => visitAll cs st
  end.

(** [extractFromFile]: the file system and the parser are the
    environment.  [readFile] fails with [None]; [createSourceFile] gets the
    path, the text and the script kind of the extension (a function of the
    path).  The result is the returned array and the extractor after the
    call; a failed read is caught and gives the empty array. *)
Section ExtractFromFile.

Variable readFile : jsstring -> option jsstring.
Variable createSourceFile : jsstring -> jsstring -> Node.

Definition extractFromFile (this : Extractor) (filePath : jsstring)
  : list jsstring * Extractor :=
  match readFile filePath with
  | None => ([], this)
  | Some sourceCode =>
    let sourceFile := createSourceFile filePath sourceCode in
    let cleared := [] in
    let texts := visitNode (options this) sourceFile cleared in
    (texts, {| chineseTexts := texts; options := options this |})
  end.

(** The extractor after calls of [extractFromFile] on the files of
    [history], in order. *)
Fixpoint afterFiles (this : Extractor) (history : list jsstring)
  : Extractor :=
  match history with
  | [] => this
  | filePath :: rest =>
    afterFiles (snd (extractFromFile this filePath)) rest
  end.

(** [extractFromFiles]: one [Set] over the arrays of all the files. *)
Fixpoint extractFromFilesGo (this : Extractor) (filePaths : list jsstring)
    (allTexts : list jsstring) : list jsstring * Extractor :=
  match filePaths with
  | [] => (allTexts, this)
  | filePath :: rest =>
    let (texts, this') := extractFromFile this filePath in
    extractFromFilesGo this' rest
      (fold_left (fun acc text => setAdd text acc) texts allTexts)
  end.

Definition extractFromFiles (this : Extractor) (filePaths : list jsstring) :=
  extractFromFilesGo this filePaths [].

End ExtractFromFile.

(** [setOptions(options)]: [this.options = { ...this.options, ...options }].
    Of the object passed, the extractor only ever reads the five option
    names, and each of them only as a condition: [None] is a name the
    object does not have, [Some b] the truth value of the one it has. *)
Record GivenOptions : Type := {
  givenComments : option bool;
  givenConsole : option bool;
  givenJSX : option bool;
  givenEnumValues : option bool;
  givenEnumKeys : option bool
}.

Definition spreadValue (current : bool) (given : option bool) : bool :=
  match given with
  | Some b => b
  | None => current
  end.

(** [{ ...base, ...given }] *)
Definition spreadOptions (base : Options) (given : GivenOptions) : Options := {|
  extractFromComments := spreadValue (extractFromComments base) (givenComments given);
  extractFromConsole := spreadValue (extractFromConsole base) (givenConsole given);
  extractFromJSX := spreadValue (extractFromJSX base) (givenJSX given);
  extractFromEnumValues :=
    spreadValue (extractFromEnumValues base) (givenEnumValues given);
  extractFromEnumKeys := spreadValue (extractFromEnumKeys base) (givenEnumKeys given)
|}.

Definition setOptions (this : Extractor) (given : GivenOptions) : Extractor :=
  {| chineseTexts := chineseTexts this;
     options := spreadOptions (options this) given |}.

End ASTChineseExtractor.

(* ================================================================== *)
(** ** src/index.js: the extractor on regular expressions *)

Module Index.

(** The classifier of the line-level extractor: the cap is 50 and there is
    no comparison of the two scripts. *)
Definition isValidChineseText (text : jsstring) : bool :=
  if negb (containsChinese text) then false
  else if isEmpty (trim text) then false
  else if 50 <? strlen text then false
  else if looksLikeCode text then false
  else if onlyNumbers text then false
  else if onlyPunctuation text then false
  else true.

(** [/\w+\.[一-鿿]/] at a start position. *)
Definition matchEnumUsage (s : jsstring) : bool :=
  firstIs isWord s &&
  match dropWhile isWord s with
  | 0x2E :: c :: _ => isChinese c
  | _ => false
  end.

(** [/key:\s*\w+\.[一-鿿]/] at a start position. *)
Definition matchKeyEnumUsage (s : jsstring) : bool :=
  match s with
  | 0x6B :: 0x65 :: 0x79 :: 0x3A :: rest =>
    matchEnumUsage (dropWhile isSpace rest)
  | _ => false
  end.

Definition isEnumUsageLine (line : jsstring) : bool :=
  anywhere matchEnumUsage line || anywhere matchKeyEnumUsage line.

Definition consoleLineMethods : list jsstring :=
  [u "log"; u "warn"; u "error"; u "info"; u "debug"; u "trace"; u "table";
   u "dir"; u "group"; u "groupEnd"].

(** [stripPrefix p s]: the rest of [s] after its prefix [p]. *)
Fixpoint stripPrefix (p s : jsstring) : option jsstring :=
  match p, s with
  | [], _ => Some s
  | a :: p', b :: s' => if a =? b then stripPrefix p' s' else None
  | _ :: _, [] => None
  end.

(** [/^console\.METHOD\s*\(/] *)
Definition matchConsoleMethod (method trimmedLine : jsstring) : bool :=
  match stripPrefix (u "console." ++ method) trimmedLine with
  | Some rest => firstIs (Z.eqb 0x28) (dropWhile isSpace rest)
  | None => false
  end.

Definition isConsoleLogLine (line : jsstring) : bool :=
  let trimmedLine := trim line in
  existsb (fun method => matchConsoleMethod method trimmedLine)
    consoleLineMethods.

(** [singleQuoteRegex], [doubleQuoteRegex] and [templateRegex] at a start
    position: the quote [q], a group without [q] that holds a Chinese
    character, and [q] again.  The group holds no quote and the
    closing quote follows it, so the group is the text up to the next
    quote; it has to hold a Chinese character. *)
Definition matchQuoted (q : Z) (s : jsstring)
  : option (jsstring * jsstring) :=
  match s with
  | c :: rest =>
    if c =? q then
      let body := takeWhile (fun x => negb (x =? q)) rest in
      match dropWhile (fun x => negb (x =? q)) rest with
      | _ :: rest' =>
        if containsChinese body then Some (body, rest') else None
      | [] => None
      end
    else None
  | [] => None
  end.

(** The loop body of every capture: trim, clean, keep the valid segments. *)
Definition validSegments (rawText : jsstring) : list jsstring :=
  filter (fun segment => negb (isEmpty segment) && isValidChineseText segment)
    (cleanChineseText (trim rawText)).

(** [/\$\{[^}]*\}/] at a start position. *)
Definition matchInterpolation (s : jsstring) : option jsstring :=
  match s with
  | c :: d :: rest =>
    if (c =? 0x24) && (d =? 0x7B) then
      match dropWhile (fun x => negb (x =? 0x7D)) rest with
      | _ :: rest' => Some rest'
      | [] => None
      end
    else None
  | _ => None
  end.

(** The argument of [templateContent.includes('${')], at a start
    position. *)
Definition matchDollarBrace (s : jsstring) : bool :=
  match s with
  | c :: d :: _ => (c =? 0x24) && (d =? 0x7B)
  | _ => false
  end.

(** The body of the loop over the matches of [templateRegex]. *)
Definition extractFromTemplate (templateContent : jsstring)
  : list jsstring :=
  if negb (anywhere matchDollarBrace templateContent)
  then validSegments templateContent
  else flat_map validSegments (split matchInterpolation templateContent).

Definition extractChineseFromLine (line : jsstring) : list jsstring :=
  if isConsoleLogLine line then []
  else
    flat_map validSegments (execAll (matchQuoted 0x27) line)
    ++ flat_map validSegments (execAll (matchQuoted 0x22) line)
    ++ flat_map extractFromTemplate (execAll (matchQuoted 0x60) line).

(** The class of the body of [enumValueRegex]: any character but the three
    quotes and the closing parenthesis. *)
Definition isEnumBodyChar (c : Z) : bool :=
  negb (inSet [0x27; 0x22; 0x60; 0x29] c).

Definition isQuote (c : Z) : bool := inSet [0x27; 0x22; 0x60] c.

(** [enumValueRegex] at a start position: word characters, white space, the
    equals sign, white space, a quote, a body without quotes and closing
    parentheses that holds a Chinese character, and the same quote again.
    The classes that follow each other are disjoint and the back reference
    is a character the body cannot hold, so the body is the text up to the
    next quote or parenthesis.  [matchEnumQuoted] is the part after the
    equals sign. *)
Definition matchEnumQuoted (s3 : jsstring) : option (jsstring * jsstring) :=
  match dropWhile isSpace s3 with
  | q :: s5 =>
    if isQuote q then
      let body := takeWhile isEnumBodyChar s5 in
      match dropWhile isEnumBodyChar s5 with
      | c :: rest =>
        if (c =? q) && containsChinese body then Some (body, rest)
        else None
      | [] => None
      end
    else None
  | [] => None
  end.

Definition matchEnumValue (s : jsstring) : option (jsstring * jsstring) :=
  if firstIs isWord s then
    match dropWhile isSpace (dropWhile isWord s) with
    | c :: s3 => if c =? 0x3D then matchEnumQuoted s3 else None
    | [] => None
    end
  else None.

(** [content.split('\n')] *)
Definition matchNewline (s : jsstring) : option jsstring :=
  match s with
  | 0x0A :: rest => Some rest
  | _ => None
  end.

(** Step 1 of [extractChineseFromFile]. *)
Definition enumValueTexts (content : jsstring) : list jsstring :=
  flat_map validSegments (execAll matchEnumValue content).

(** Step 2 of [extractChineseFromFile]. *)
Definition lineTexts (content : jsstring) : list jsstring :=
  flat_map
    (fun line => if isEnumUsageLine line then [] else extractChineseFromLine line)
    (split matchNewline content).

(** [extractChineseFromFile] on the text the file holds. *)
Definition extractChineseFromContent (content : jsstring) : list jsstring :=
  setOfList (enumValueTexts content ++ lineTexts content).

(** A failed read is caught and gives the empty array. *)
Definition extractChineseFromFile (readFile : jsstring -> option jsstring)
    (filePath : jsstring) : list jsstring :=
  match readFile filePath with
  | Some content => extractChineseFromContent content
  | None => []
  end.

(** *** The shape of the texts

    The texts the statements about the expressions speak of. *)

(** The text of [${e}]. *)
Definition interpolation (e : jsstring) : jsstring :=
  0x24 :: 0x7B :: e ++ [0x7D].

(** The content of a template: the head, and after it the spans, each an
    interpolated expression and the literal text that follows it. *)
Definition templateText (head : jsstring)
    (spans : list (jsstring * jsstring)) : jsstring :=
  head ++ flat_map (fun span => interpolation (fst span) ++ snd span) spans.

(** A literal text holds no interpolation marker. *)
Definition noMarker (literal : jsstring) : Prop :=
  anywhere matchDollarBrace literal = false.

(** An expression holds no closing brace, and the literal after it no
    marker. *)
Definition plainSpan (span : jsstring * jsstring) : Prop :=
  Forall (fun c => c <> 0x7D) (fst span) /\ noMarker (snd span).

(** The number of non-empty elements of a list of texts or of groups. *)
Definition countNonEmpty {A : Type} (xs : list (list A)) : nat :=
  List.length
    (filter (fun x => match x with [] => false | _ :: _ => true end) xs).

(** The text of an assignment [ident = 'body']: the identifier, the white
    space around the equals sign, the quote and the quoted text. *)
Definition assignmentText (ident ws1 ws2 : jsstring) (q : Z)
    (body : jsstring) : jsstring :=
  ident ++ ws1 ++ 0x3D :: ws2 ++ q :: body ++ [q].

(** The text after the equals sign of an assignment, and the assignment,
    each with the text [post] that follows it. *)
Definition quoted (ws2 body post : jsstring) (q : Z) : jsstring :=
  ws2 ++ q :: body ++ q :: post.

Definition assignment (ident ws1 ws2 body post : jsstring) (q : Z)
  : jsstring :=
  ident ++ ws1 ++ 0x3D :: quoted ws2 body post q.

(** The part of [matchEnumValue] after the two runs. *)
Definition afterRuns (s2 : jsstring) : option (jsstring * jsstring) :=
  match s2 with
  | c :: s3 => if c =? 0x3D then matchEnumQuoted s3 else None
  | [] => None
  end.

(** A text the expression cannot match in: no quote after an equals
    sign. *)
Definition Gap (t : jsstring) : Prop :=
  exists t1 t2,
    t = t1 ++ t2
    /\ Forall (fun c => c <> 0x3D) t1
    /\ Forall (fun c => isQuote c = false) t2.

(** The text of an assignment the expression matches, with its body. *)
Inductive Assignment : jsstring -> jsstring -> Prop :=
| Assignment_intro (ident ws1 ws2 : jsstring) (q : Z) (body : jsstring) :
    Forall (fun c => isWord c = true) ident ->
    ident <> [] ->
    Forall (fun c => isSpace c = true) ws1 ->
    Forall (fun c => isSpace c = true) ws2 ->
    isQuote q = true ->
    Forall (fun c => isEnumBodyChar c = true) body ->
    containsChinese body = true ->
    Assignment (assignmentText ident ws1 ws2 q body) body.

(** The text before an assignment: gaps and earlier assignments. *)
Inductive Before : jsstring -> Prop :=
| Before_gap (t : jsstring) : Gap t -> Before t
| Before_assignment (t a b rest : jsstring) :
    Gap t -> Assignment a b -> Before rest -> Before (t ++ a ++ rest).

End Index.

(* ================================================================== *)
(** ** The extractor on ts-morph trees

    [forEachDescendant] calls the callback on every descendant of the source
    file, parents first.  The callback looks upwards: [chain] is the node
    and its ancestors, nearest first, and [slot] says whether the node is the
    name node of its parent ([parent.getNameNode() === node]). *)

Module MorphIndex.

(** The same function, line for line, as in src/index.js. *)
Definition isValidChineseText : jsstring -> bool := Index.isValidChineseText.

Inductive Slot : Type := NameSlot | OtherSlot.

Definition isNameSlot (slot : Slot) : bool :=
  match slot with
  | NameSlot => true
  | OtherSlot => false
  end.

Definition isStringLiteralAsKey (parent : option Node) (slot : Slot) : bool :=
  match parent with
  | Some (PropertyAssignment _ _) => isNameSlot slot
  | Some (EnumMember _ _) => isNameSlot slot
  | _ => false
  end.

(** [/^(log|warn|error|info|debug|trace)$/] *)
Definition consoleStatementMethods : list jsstring :=
  [u "log"; u "warn"; u "error"; u "info"; u "debug"; u "trace"].

(** [objectName.getText().trim() === 'console'] and the test of the
    property name.  The source text of an expression is the word console
    only when the expression is that identifier. *)
Definition isConsoleAccess (expression : Node) : bool :=
  match expression with
  | PropertyAccessExpression (Identifier objectName) propertyName =>
    str_eqb (trim objectName) (u "console")
    && existsb (str_eqb propertyName) consoleStatementMethods
  | _ => false
  end.

(** One round of the [while] loop of [isInConsoleStatement]. *)
Definition isConsoleAt (current : Node) : bool :=
  match current with
  | CallExpression expression _ => isConsoleAccess expression
  | ExpressionStatement (CallExpression callExpression _) =>
    isConsoleAccess callExpression
  | _ => false
  end.

(** [maxDepth = 3]: the node, its parent and its grandparent. *)
Definition isInConsoleStatement (chain : list Node) : bool :=
  existsb isConsoleAt (firstn 3 chain).

Definition pushIfValid (text : jsstring) : list jsstring :=
  if isValidChineseText text then [text] else [].

(** The callback of [forEachDescendant]. *)
Definition onDescendant (ancestors : list Node) (slot : Slot) (node : Node)
  : list jsstring :=
  if isInConsoleStatement (node :: ancestors) then []
  else
    match node with
    | StringLiteral text =>
      if isStringLiteralAsKey (hd_error ancestors) slot then []
      else pushIfValid text
    | TemplateExpression head spans =>
      pushIfValid head
      ++ flat_map
           (fun span =>
              match span with
              | TemplateSpan _ literal => pushIfValid literal
              | _ => []
              end)
           spans
    | NoSubstitutionTemplateLiteral text => pushIfValid text
    | JsxText text => pushIfValid (trim text)
    | JsxAttribute _ (Some (StringLiteral text)) => pushIfValid text
    | _ => []
    end.

(** The callback on a node, then on its descendants. *)
Fixpoint walk (ancestors : list Node) (slot : Slot) (node : Node)
    {struct node} : list jsstring :=
  let chain := node :: ancestors in
  let walkAll :=
    fix walkAll (ns : list Node) : list jsstring :=
      match ns with
      | [] => []
      | n :: ns' => walk chain OtherSlot n ++ walkAll ns'
      end in
  let walkOption (init : option Node) :=
    match init with
    | Some n => walk chain OtherSlot n
    | None => []
    end in
  onDescendant ancestors slot node ++
  match node with
  | Identifier _ | StringLiteral _ | NoSubstitutionTemplateLiteral _
  | JsxText _ => []
  | TemplateExpression _ spans => walkAll spans
  | TemplateSpan e _ => walk chain OtherSlot e
  | JsxAttribute _ init => walkOption init
  | EnumDeclaration _ ms => walkAll ms
  | EnumMember n init => walk chain NameSlot n ++ walkOption init
  | PropertyAssignment n init =>
    walk chain NameSlot n ++ walk chain OtherSlot init
  | PropertyAccessExpression e _ => walk chain OtherSlot e
  | CallExpression e args => walk chain OtherSlot e ++ walkAll args
  | ExpressionStatement e => walk chain OtherSlot e
  | OtherNode cs => walkAll cs
  end.

(** [sourceFile.forEachDescendant(...)]: the source file itself is not
    passed to the callback. *)
Definition forEachDescendant (sourceFile : Node) : list jsstring :=
  flat_map (walk [sourceFile] OtherSlot) (childrenOf sourceFile).

(** [extractChineseFromFile]: a new array and a new in-memory project on
    every call. *)
Definition extractChineseFromFile
    (readFile : jsstring -> option jsstring)
    (createSourceFile : jsstring -> jsstring -> Node)
    (filePath : jsstring) : list jsstring :=
  match readFile filePath with
  | Some content => forEachDescendant (createSourceFile filePath content)
  | None => []
  end.

End MorphIndex.

(* ================================================================== *)
(** ** [deduplicateTexts]

    The function is the same in both index files.  [toLowerCase] is the
    case mapping of the engine. *)

Module Dedup.

(** [.replace(/\s+/g, ' ')] *)
Definition collapseSpaces (s : jsstring) : jsstring :=
  replaceSpaceRuns 0x20 s.

(** The class of the third step of the normalisation: the full stop, the
    comma, the semicolon, the colon, the four curly quotes, the two
    parentheses, the enumeration comma and the two title marks. *)
Definition dedupPunctuation : list Z :=
  [0x3002; 0xFF0C; 0xFF1B; 0xFF1A; 0x201C; 0x201D; 0x2018; 0x2019; 0xFF08;
   0xFF09; 0x3001; 0x300A; 0x300B].

(** [/[。？！]$/] *)
Definition isSentenceEnd (c : Z) : bool := inSet [0x3002; 0xFF1F; 0xFF01] c.

(** [/[，、]/] *)
Definition isComma (c : Z) : bool := inSet [0xFF0C; 0x3001] c.

(** The score function of the source; its name there is written in
    Chinese. *)
Definition qualityScore (text : jsstring) : Z :=
  let score := 0 in
  let score := score + Z.min (strlen text) 20 in
  let score := if lastIs isSentenceEnd text then score + 5 else score in
  let score := if existsb isComma text then score + 2 else score in
  let score :=
    if startsWith [0xFF0C] text || startsWith [0x3001] text
    then score - 3 else score in
  let score :=
    if endsWith [0xFF0C] text || endsWith [0x3001] text
    then score - 1 else score in
  score.

(** [Map]: [has]/[get] and [set]. *)
Fixpoint mapGet (k : jsstring) (m : list (jsstring * jsstring))
  : option jsstring :=
  match m with
  | [] => None
  | (k', v) :: m' => if str_eqb k k' then Some v else mapGet k m'
  end.

Fixpoint mapSet (k v : jsstring) (m : list (jsstring * jsstring))
  : list (jsstring * jsstring) :=
  match m with
  | [] => [(k, v)]
  | (k', v') :: m' =>
    if str_eqb k k' then (k, v) :: m' else (k', v') :: mapSet k v m'
  end.

(** [result.indexOf(x)]; [None] stands for -1. *)
Fixpoint indexOf (x : jsstring) (l : list jsstring) : option nat :=
  match l with
  | [] => None
  | y :: l' =>
    if str_eqb x y then Some O
    else match indexOf x l' with
         | Some i => Some (S i)
         | None => None
         end
  end.

(** [result[index] = x] for an index inside the array. *)
Fixpoint setNth (i : nat) (x : jsstring) (l : list jsstring)
  : list jsstring :=
  match l, i with
  | [], _ => []
  | _ :: l', O => x :: l'
  | y :: l', S i' => y :: setNth i' x l'
  end.

Section Normalised.

Variable toLowerCase : jsstring -> jsstring.

Definition normalize (text : jsstring) : jsstring :=
  toLowerCase
    (removeClass (inSet dedupPunctuation) (collapseSpaces (trim text))).

(** The state of the loop: [seen] and [result]. *)
Definition DedupState : Type :=
  (list (jsstring * jsstring) * list jsstring)%type.

Definition dedupStep (st : DedupState) (text : jsstring) : DedupState :=
  let (seen, result) := st in
  let normalized := normalize text in
  match mapGet normalized seen with
  | None => (mapSet normalized text seen, result ++ [text])
  | Some existingText =>
    if (strlen existingText <? strlen text)
       || (qualityScore existingText <? qualityScore text)
    then
      match indexOf existingText result with
      | Some index => (mapSet normalized text seen, setNth index text result)
      | None => (seen, result)
      end
    else (seen, result)
  end.

Definition deduplicateTexts (texts : list jsstring) : list jsstring :=
  snd (fold_left dedupStep texts ([], [])).

(** The invariant of the loop: the keys of [seen] are distinct and every
    stored phrase normalises to its key. *)
Definition wellKeyed (entries : list (jsstring * jsstring)) : Prop :=
  NoDup (map fst entries)
  /\ Forall (fun kv => normalize (snd kv) = fst kv) entries.

(** *** The rule as the specification words it

    One entry per normalised key, in the order the keys are first seen; a
    phrase with a new key is appended; a phrase with a known key takes the
    place of the stored phrase exactly when it is longer or scores
    higher. *)

Definition specScore (text : jsstring) : Z :=
  Z.min (strlen text) 20
  + (if lastIs isSentenceEnd text then 5 else 0)
  + (if existsb isComma text then 2 else 0)
  - (if firstIs isComma text then 3 else 0)
  - (if lastIs isComma text then 1 else 0).

Definition specBetter (new stored : jsstring) : bool :=
  (strlen stored <? strlen new) || (specScore stored <? specScore new).

Fixpoint specInsert (key text : jsstring)
    (entries : list (jsstring * jsstring)) : list (jsstring * jsstring) :=
  match entries with
  | [] => [(key, text)]
  | (k, stored) :: rest =>
    if str_eqb key k
    then (k, if specBetter text stored then text else stored) :: rest
    else (k, stored) :: specInsert key text rest
  end.

Definition specDedup (texts : list jsstring) : list jsstring :=
  map snd
    (fold_left (fun entries text => specInsert (normalize text) text entries)
       texts []).

End Normalised.

End Dedup.

(* ================================================================== *)
(** ** src/translators.js and [generateMapping]

    The translation services are reached over the network.  A request is a
    function of the number of requests made before it, so that two requests
    with the same text may differ; everything else is the code of the
    repository.  A computation returns a value or throws, and passes the
    request counter on. *)

Module Mapping.

Inductive Outcome (A : Type) : Type :=
| Returned (a : A)
| Thrown.

Arguments Returned {A} a.
Arguments Thrown {A}.

Definition M (A : Type) : Type := nat -> Outcome A * nat.

Definition ret {A : Type} (a : A) : M A := fun clock => (Returned a, clock).

Definition throw {A : Type} : M A := fun clock => (Thrown, clock).

Definition bind {A B : Type} (m : M A) (k : A -> M B) : M B :=
  fun clock =>
    match m clock with
    | (Returned a, clock') => k a clock'
    | (Thrown, clock') => (Thrown, clock')
    end.

(** [try { m } catch (error) { handler }] *)
Definition tryCatch {A : Type} (m : M A) (handler : M A) : M A :=
  fun clock =>
    match m clock with
    | (Returned a, clock') => (Returned a, clock')
    | (Thrown, clock') => handler clock'
    end.

Notation "x <- m ;; k" := (bind m (fun x => k))
  (at level 61, m at next level, right associativity).

(** A [for ... of] loop that updates one object. *)
Fixpoint foldM {A B : Type} (f : B -> A -> M B) (l : list A) (b : B) : M B :=
  match l with
  | [] => ret b
  | a :: l' => b' <- f b a ;; foldM f l' b'
  end.

(** A computation that returns, whatever the request counter is. *)
Definition returns {A : Type} (m : M A) : Prop :=
  forall clock, exists a clock', m clock = (Returned a, clock').

(** The values a translation can be: a string, [null], [undefined], or any
    other object (always truthy). *)
Inductive Value : Type :=
| VUndefined
| VNull
| VString (s : jsstring)
| VObject.

Definition truthy (v : Value) : bool :=
  match v with
  | VString s => negb (isEmpty s)
  | VObject => true
  | VUndefined | VNull => false
  end.

(** A plain object used as a map: its own properties in insertion order
    (the order of keys that are not array indices).  Reading a name the
    object does not own finds the members of [Object.prototype].  Writing
    to [__proto__] creates no property; what such a write does to the
    prototype is not followed, and no text with a Chinese character
    reaches it. *)
Definition Obj : Type := list (jsstring * Value).

Definition objectPrototypeNames : list jsstring :=
  [u "constructor"; u "__proto__"; u "hasOwnProperty"; u "isPrototypeOf";
   u "propertyIsEnumerable"; u "toLocaleString"; u "toString"; u "valueOf";
   u "__defineGetter__"; u "__defineSetter__"; u "__lookupGetter__";
   u "__lookupSetter__"].

Fixpoint ownGet (k : jsstring) (o : Obj) : option Value :=
  match o with
  | [] => None
  | (k', v) :: o' => if str_eqb k k' then Some v else ownGet k o'
  end.

Definition objGet (o : Obj) (k : jsstring) : Value :=
  match ownGet k o with
  | Some v => v
  | None =>
    if existsb (str_eqb k) objectPrototypeNames then VObject else VUndefined
  end.

Fixpoint ownSet (k : jsstring) (v : Value) (o : Obj) : Obj :=
  match o with
  | [] => [(k, v)]
  | (k', v') :: o' =>
    if str_eqb k k' then (k, v) :: o' else (k', v') :: ownSet k v o'
  end.

Definition objSet (o : Obj) (k : jsstring) (v : Value) : Obj :=
  if str_eqb k (u "__proto__") then o else ownSet k v o.

Definition keys (o : Obj) : list jsstring := map fst o.

(** An object of results in which every text is [null]. *)
Definition allNull (results : Obj) : Prop :=
  Forall (fun kv => snd kv = VNull) results.

(** [texts.slice(i, i + batchSize)] for [i = 0, batchSize, ...]. *)
Fixpoint batchesGo (batchSize fuel : nat) (texts : list jsstring)
  : list (list jsstring) :=
  match fuel with
  | O => []
  | S fuel' =>
    match texts with
    | [] => []
    | _ :: _ =>
      firstn batchSize texts
        :: batchesGo batchSize fuel' (skipn batchSize texts)
    end
  end.

Definition batches (batchSize : nat) (texts : list jsstring) :=
  batchesGo batchSize (List.length texts) texts.

(** [this.translators[service]]: the three translators, or a member of
    [Object.prototype], which has no [translate] method. *)
Inductive Service : Type := Baidu | Youdao | Google | Inherited.

Definition lookupTranslator (service : jsstring) : option Service :=
  if str_eqb service (u "baidu") then Some Baidu
  else if str_eqb service (u "youdao") then Some Youdao
  else if str_eqb service (u "google") then Some Google
  else if existsb (str_eqb service) objectPrototypeNames then Some Inherited
  else None.

(** [generatePlaceholder] without its last step, the case mapping. *)
Definition placeholderBody (chineseText : jsstring) : jsstring :=
  replaceSpaceRuns 0x5F (map (fun c => if isChinese c then 0x58 else c) chineseText).

Definition dictionary : Obj :=
  map (fun kv => (fst kv, VString (snd kv)))
  [
   (u "总次数", u "Total Count");
   (u "总和", u "Sum");
   (u "平均值", u "Average");
   (u "最大值", u "Maximum");
   (u "最小值", u "Minimum");
   (u "订单数量", u "Order Count");
   (u "订单总商品数量", u "Total Product Count");
   (u "订单实付金额", u "Order Paid Amount");
   (u "订单总商品价格", u "Total Product Price");
   (u "订单商品数量", u "Order Product Count");
   (u "提交订单", u "Submit Order");
   (u "订单详情", u "Order Details");
   (u "等于", u "Equal");
   (u "不等于", u "Not Equal");
   (u "包含", u "Contains");
   (u "不包含", u "Not Contains");
   (u "有值", u "Has Value");
   (u "没值", u "No Value");
   (u "小于", u "Less Than");
   (u "大于", u "Greater Than");
   (u "小于等于", u "Less Than or Equal");
   (u "大于等于", u "Greater Than or Equal");
   (u "区间", u "Range");
   (u "为真", u "True");
   (u "为假", u "False");
   (u "优惠金额", u "Discount Amount");
   (u "商品价格", u "Product Price");
   (u "商品数量", u "Product Count");
   (u "实付金额", u "Paid Amount");
   (u "性别", u "Gender");
   (u "男性", u "Male");
   (u "女性", u "Female");
   (u "有赞", u "Youzan");
   (u "淘宝", u "Taobao");
   (u "注册渠道", u "Registration Channel");
   (u "好友类别", u "Friend Category");
   (u "用户行为事件", u "User Behavior Event");
   (u "做过", u "Done");
   (u "未做过", u "Not Done");
   (u "已做过", u "Already Done");
   (u "上传失败", u "Upload Failed");
   (u "删除", u "Delete");
   (u "编辑", u "Edit");
   (u "保存", u "Save");
   (u "取消", u "Cancel");
   (u "确认", u "Confirm");
   (u "提交", u "Submit");
   (u "重置", u "Reset");
   (u "搜索", u "Search");
   (u "查询", u "Query");
   (u "添加", u "Add");
   (u "新增", u "Add");
   (u "修改", u "Modify");
   (u "更新", u "Update");
   (u "刷新", u "Refresh");
   (u "加载", u "Load");
   (u "导入", u "Import");
   (u "导出", u "Export");
   (u "下载", u "Download");
   (u "上传", u "Upload");
   (u "复制", u "Copy");
   (u "粘贴", u "Paste");
   (u "剪切", u "Cut");
   (u "全选", u "Select All");
   (u "清空", u "Clear");
   (u "返回", u "Back");
   (u "下一步", u "Next");
   (u "上一步", u "Previous");
   (u "完成", u "Complete");
   (u "开始", u "Start");
   (u "结束", u "End");
   (u "暂停", u "Pause");
   (u "继续", u "Continue");
   (u "停止", u "Stop");
   (u "重新开始", u "Restart");
   (u "重试", u "Retry");
   (u "跳过", u "Skip");
   (u "忽略", u "Ignore");
   (u "关闭", u "Close");
   (u "打开", u "Open");
   (u "展开", u "Expand");
   (u "收起", u "Collapse");
   (u "显示", u "Show");
   (u "隐藏", u "Hide");
   (u "启用", u "Enable");
   (u "禁用", u "Disable");
   (u "激活", u "Activate");
   (u "停用", u "Deactivate")
  ].

(** [getBuiltinTranslation]: [dictionary[chineseText] || null] *)
Definition getBuiltinTranslation (chineseText : jsstring) : Value :=
  let v := objGet dictionary chineseText in
  if truthy v then v else VNull.

Section Services.

Variable toLowerCase : jsstring -> jsstring.

(** [BaiduTranslator.batchTranslate], [YoudaoTranslator.translate] and
    [GoogleTranslator.translate] at a given request number. *)
Variable baiduBatchTranslate : nat -> list jsstring -> Outcome (list Value).
Variable youdaoTranslate : nat -> jsstring -> Outcome Value.
Variable googleTranslate : nat -> jsstring -> Outcome Value.

Definition request {A B : Type} (service : nat -> A -> Outcome B) (a : A)
  : M B :=
  fun clock => (service clock a, S clock).

(** [setTranslator]: the new current translator, or an error. *)
Definition setTranslator (service : jsstring) : M Service :=
  match lookupTranslator service with
  | Some translator => ret translator
  | None => throw
  end.

(** [TranslationManager.translate] *)
Definition translate (current : Service) (text : jsstring) : M Value :=
  match current with
  | Baidu =>
    results <- request baiduBatchTranslate [text] ;;
    ret (nth 0 results VUndefined)
  | Youdao => request youdaoTranslate text
  | Google => request googleTranslate text
  | Inherited => throw
  end.

(** The [try]/[catch] around one text. *)
Definition translateOne (current : Service) (results : Obj)
    (text : jsstring) : M Obj :=
  tryCatch
    (translation <- translate current text ;;
     ret (objSet results text translation))
    (ret (objSet results text VNull)).

(** [results[batch[j]] = translations[j]] for every [j]. *)
Fixpoint mergeResults (results : Obj) (batch : list jsstring)
    (translations : list Value) : Obj :=
  match batch with
  | [] => results
  | text :: batch' =>
    mergeResults (objSet results text (nth 0 translations VUndefined))
      batch' (tl translations)
  end.

(** [TranslationManager.batchTranslate] *)
Definition batchTranslate (current : Service) (texts : list jsstring)
  : M Obj :=
  match current with
  | Baidu =>
    foldM
      (fun results batch =>
         tryCatch
           (translations <- request baiduBatchTranslate batch ;;
            ret (mergeResults results batch translations))
           (foldM (translateOne current) batch results))
      (batches 20 texts) []
  | _ =>
    foldM
      (fun results batch => foldM (translateOne current) batch results)
      (batches 3 texts) []
  end.

(** [translateWithAPI] is a stub that returns [null]. *)
Definition translateWithAPI (chineseText : jsstring) : M Value := ret VNull.

Definition generatePlaceholder (chineseText : jsstring) : jsstring :=
  u "translate_" ++ toLowerCase (placeholderBody chineseText).

Definition translateText (chineseText : jsstring) : M Value :=
  let translation := getBuiltinTranslation chineseText in
  if truthy translation then ret translation
  else
    online <-
      tryCatch
        (onlineTranslation <- translateWithAPI chineseText ;;
         ret (if truthy onlineTranslation then Some onlineTranslation
              else None))
        (ret None) ;;
    match online with
    | Some onlineTranslation => ret onlineTranslation
    | None => ret (VString (generatePlaceholder chineseText))
    end.

Definition generateMapping (chineseTexts : list jsstring)
    (translatorService : jsstring) (shouldTranslate : bool) : M Obj :=
  if negb shouldTranslate then
    ret (fold_left
           (fun mapping chineseText =>
              objSet mapping chineseText (VString (u "to do translate")))
           chineseTexts [])
  else
    current <- tryCatch (setTranslator translatorService) (ret Baidu) ;;
    tryCatch
      (apiTranslations <- batchTranslate current chineseTexts ;;
       foldM
         (fun mapping chineseText =>
            let apiTranslation := objGet apiTranslations chineseText in
            if truthy apiTranslation
            then ret (objSet mapping chineseText apiTranslation)
            else
              fallbackTranslation <- translateText chineseText ;;
              ret (objSet mapping chineseText fallbackTranslation))
         chineseTexts [])
      (foldM
         (fun mapping chineseText =>
            englishText <- translateText chineseText ;;
            ret (objSet mapping chineseText englishText))
         chineseTexts []).

(** *** What the mapping holds *)

(** The value [translateText] gives: the entry of the dictionary, or the
    placeholder when the dictionary has none. *)
Definition fallbackTranslation (chineseText : jsstring) : Value :=
  let translation := getBuiltinTranslation chineseText in
  if truthy translation then translation
  else VString (generatePlaceholder chineseText).

(** Every request to the service fails. *)
Definition everyRequestFails : Prop :=
  (forall n batch, baiduBatchTranslate n batch = Thrown)
  /\ (forall n text, youdaoTranslate n text = Thrown)
  /\ (forall n text, googleTranslate n text = Thrown).

(** What the loop of [generateMapping] stores for a phrase, given the
    object [batchTranslate] returned: the translation of the service when
    it is truthy, the value of [translateText] otherwise. *)
Definition chosenTranslation (apiTranslations : Obj)
    (chineseText : jsstring) : Value :=
  let apiTranslation := objGet apiTranslations chineseText in
  if truthy apiTranslation then apiTranslation
  else fallbackTranslation chineseText.

End Services.

End Mapping.

(* ================================================================== *)
(** ** Vocabulary of the statements *)

(** [s] is [t] with some of its code units deleted. *)
Inductive Subsequence : jsstring -> jsstring -> Prop :=
| Subsequence_nil : Subsequence [] []
| Subsequence_skip (c : Z) (s t : jsstring) :
    Subsequence s t -> Subsequence s (c :: t)
| Subsequence_keep (c : Z) (s t : jsstring) :
    Subsequence s t -> Subsequence (c :: s) (c :: t).

(* ================================================================== *)
(** ** src/enhanced-index.js: the two extraction loops *)

Module EnhancedIndex.

Import ASTChineseExtractor.

(** The [defaultOptions] object of [extractChineseWithAST]. *)
Definition defaultOptions : Options := {|
  extractFromComments := false;
  extractFromConsole := false;
  extractFromJSX := true;
  extractFromEnumValues := true;
  extractFromEnumKeys := false
|}.

(** An object that has all five names. *)
Definition allGiven (o : Options) : GivenOptions := {|
  givenComments := Some (extractFromComments o);
  givenConsole := Some (extractFromConsole o);
  givenJSX := Some (extractFromJSX o);
  givenEnumValues := Some (extractFromEnumValues o);
  givenEnumKeys := Some (extractFromEnumKeys o)
|}.

Section Files.

Variable readFile : jsstring -> option jsstring.
Variable createSourceFile : jsstring -> jsstring -> Node.

(** The loop of [extractChineseWithAST]: [extractFromFile] catches its own
    errors, so the [catch] of the loop is never entered. *)
Fixpoint extractWithASTGo (extractor : Extractor) (files : list jsstring)
    (chineseTexts : list jsstring) : list jsstring :=
  match files with
  | [] => chineseTexts
  | file :: rest =>
    let (texts, extractor') :=
      extractFromFile readFile createSourceFile extractor file in
    extractWithASTGo extractor' rest
      (fold_left (fun acc text => setAdd text acc) texts chineseTexts)
  end.

(** [extractChineseWithAST(files, astOptions)]: the [Set] it returns, in
    insertion order. *)
Definition extractChineseWithAST (files : list jsstring)
    (astOptions : GivenOptions) : list jsstring :=
  let extractor :=
    setOptions newExtractor
      (allGiven (spreadOptions defaultOptions astOptions)) in
  extractWithASTGo extractor files [].

(** [extractChineseWithRegex(files)], on [extractChineseFromFile] of
    src/index.js. *)
Definition extractChineseWithRegex (files : list jsstring)
  : list jsstring :=
  fold_left
    (fun chineseTexts file =>
       fold_left (fun acc text => setAdd text acc)
         (Index.extractChineseFromFile readFile file) chineseTexts)
    files [].

(** The phrases [enhancedExecute] hands to [generateMapping]:
    [deduplicateTexts(Array.from(chineseTexts))], where [chineseTexts] is
    the set of the loop that [extractMethod] selects. *)
Definition uniqueTexts (toLowerCase : jsstring -> jsstring)
    (extractMethod : jsstring) (files : list jsstring)
    (astOptions : GivenOptions) : list jsstring :=
  let chineseTexts :=
    if str_eqb extractMethod (u "ast")
    then extractChineseWithAST files astOptions
    else extractChineseWithRegex files in
  Dedup.deduplicateTexts toLowerCase chineseTexts.

End Files.

End EnhancedIndex.

(* ================================================================== *)
(** ** src/translators.js: [BaiduTranslator]

    [axios.get] is the network: a request resolves with a response or
    rejects with an error, and is a function of the number of requests made
    before it and of the query.  Of an error the code reads [code], and
    [message] only for the text of the error it throws in turn; an error is
    modelled by its code.  The pauses before a retry take time and change
    nothing else; they are left out. *)

Module BaiduTranslator.

Import Mapping.

(** [response.data], as the code reads it: [error_code] is set, with the
    message [error_msg] when that is a string ([None] is a value with no
    method [includes], on which the call throws a TypeError); or
    [trans_result] is a list, given by the [dst] of its entries; or
    anything else. *)
Inductive ResponseData : Type :=
| ErrorData (error_msg : option jsstring)
| ResultData (trans_result : list Value)
| OtherData.

Inductive Reply : Type :=
| Resolved (data : ResponseData)
| Rejected (code : option jsstring).

(** What a call comes to: the array it returns, or the error it throws. *)
Inductive Result (A : Type) : Type :=
| Fulfilled (a : A)
| Failed (code : option jsstring).

Arguments Fulfilled {A} a.
Arguments Failed {A} code.

(** [s.includes(needle)] *)
Definition includes (needle s : jsstring) : bool :=
  anywhere (startsWith needle) s.

(** [texts.join('\n')] *)
Definition joinLines (texts : list jsstring) : jsstring :=
  match texts with
  | [] => []
  | text :: rest => text ++ flat_map (fun t => 0x0A :: t) rest
  end.

(** [error.code === 'ECONNRESET' || error.code === 'ETIMEDOUT'] *)
Definition isNetworkError (code : option jsstring) : bool :=
  match code with
  | Some c => str_eqb c (u "ECONNRESET") || str_eqb c (u "ETIMEDOUT")
  | None => false
  end.

Section Translator.

(** [this.appId] and [this.secretKey]: the values of the two environment
    variables when the translator was constructed. *)
Variable appId : Value.
Variable secretKey : Value.

Variable axiosGet : nat -> jsstring -> Reply.

(** [batchTranslate(texts, retryCount)], with the number of requests made
    so far.  Every [new Error] the function throws has no code.  The
    function calls itself with a larger [retryCount] only; [fuel] bounds
    the depth of these calls. *)
Fixpoint batchTranslateGo (fuel : nat) (texts : list jsstring)
    (retryCount : nat) (clock : nat) : Result (list Value) * nat :=
  match fuel with
  | O => (Failed None, clock)
  | S fuel' =>
    if negb (truthy appId) || negb (truthy secretKey) then
      (Failed None, clock)
    else if (20 <? List.length texts)%nat then (Failed None, clock)
    else
      let query := joinLines texts in
      (* the [try] block *)
      let (attempt, clock1) :=
        match axiosGet clock query with
        | Resolved (ErrorData (Some errorMsg)) =>
          if includes (u "Invalid Access Limit") errorMsg
             && (retryCount <? 3)%nat
          then batchTranslateGo fuel' texts (S retryCount) (S clock)
          else (Failed None, S clock)
        | Resolved (ErrorData None) => (Failed None, S clock)
        | Resolved (ResultData trans_result) =>
          if (0 <? List.length trans_result)%nat
          then (Fulfilled trans_result, S clock)
          else (Failed None, S clock)
        | Resolved OtherData => (Failed None, S clock)
        | Rejected code => (Failed code, S clock)
        end in
      (* the [catch] block *)
      match attempt with
      | Fulfilled translations => (Fulfilled translations, clock1)
      | Failed code =>
        if isNetworkError code && (retryCount <? 2)%nat
        then batchTranslateGo fuel' texts (S retryCount) clock1
        else (Failed None, clock1)
      end
  end.

(** A call with [retryCount] calls itself at most [3 - retryCount] times in
    a row. *)
Definition batchTranslate (texts : list jsstring) (retryCount : nat)
    (clock : nat) : Result (list Value) * nat :=
  batchTranslateGo (S (3 - retryCount)) texts retryCount clock.

(** [translate(text)]: [(await this.batchTranslate([text]))[0]] *)
Definition translate (text : jsstring) (clock : nat)
  : Result Value * nat :=
  match batchTranslate [text] 0 clock with
  | (Fulfilled results, clock') =>
    (Fulfilled (nth 0 results VUndefined), clock')
  | (Failed code, clock') => (Failed code, clock')
  end.

End Translator.

End BaiduTranslator.


(* ================================================================== *)
(** ** src/index.js: [loadApiConfig]

    The file system, [path.join] and [__dirname] are the environment of the
    function; [process.env] is its state. *)

Module ApiConfig.

(** A parsed configuration file, to the depth the function reads it.  A
    property of a section is given by the string the environment stores
    for its value ([String(value)]).  A section that is not a plain object
    has a truth value and none of the property names the function asks
    for; a file whose content is not a plain object has no section. *)
Inductive Section : Type :=
| SectionObject (properties : list (jsstring * jsstring))
| SectionValue (truth : bool).

Inductive Config : Type :=
| ConfigObject (sections : list (jsstring * Section))
| ConfigValue.

Definition truthy (section : Section) : bool :=
  match section with
  | SectionObject _ => true
  | SectionValue truth => truth
  end.

Fixpoint lookup {A : Type} (name : jsstring) (o : list (jsstring * A))
  : option A :=
  match o with
  | [] => None
  | (name', value) :: o' =>
    if str_eqb name name' then Some value else lookup name o'
  end.

Fixpoint put {A : Type} (name : jsstring) (value : A)
    (o : list (jsstring * A)) : list (jsstring * A) :=
  match o with
  | [] => [(name, value)]
  | (name', value') :: o' =>
    if str_eqb name name' then (name, value) :: o'
    else (name', value') :: put name value o'
  end.

(** [Object.assign({}, ...configs)]: the own properties of every source,
    in order, a later one replacing an earlier one of the same name.  What
    a source that is not a plain object adds (the indices of a string or of
    an array) is never read. *)
Definition objectAssign (configs : list Config)
  : list (jsstring * Section) :=
  fold_left
    (fun target source =>
       match source with
       | ConfigObject sections =>
         fold_left (fun t s => put (fst s) (snd s) t) sections target
       | ConfigValue => target
       end)
    configs [].

(** The string [process.env] stores for [section.name]: a missing property
    is [undefined]. *)
Definition envString (name : jsstring) (section : Section) : jsstring :=
  match section with
  | SectionObject properties =>
    match lookup name properties with
    | Some text => text
    | None => u "undefined"
    end
  | SectionValue _ => u "undefined"
  end.

Definition Env : Type := list (jsstring * jsstring).

Section LoadApiConfig.

(** [fs.pathExists] and [fs.readJson]; [None] is a rejected read. *)
Variable pathExists : jsstring -> bool.
Variable readJson : jsstring -> option Config.
Variable pathJoin : list jsstring -> jsstring.
Variable dirname : jsstring.

(** One of the three steps: a file that exists is read and pushed.  [None]
    is an error thrown by the read. *)
Definition loadIfExists (configPath : jsstring) (configs : list Config)
  : option (list Config) :=
  if pathExists configPath then
    match readJson configPath with
    | Some config => Some (configs ++ [config])
    | None => None
    end
  else Some configs.

(** The assignments of one section: [if (mergedConfig.name) { ... }]. *)
Definition assignSection (mergedConfig : list (jsstring * Section))
    (name : jsstring) (variables : list (jsstring * jsstring)) (env : Env)
  : Env :=
  match lookup name mergedConfig with
  | Some section =>
    if truthy section then
      fold_left
        (fun env variable =>
           put (fst variable) (envString (snd variable) section) env)
        variables env
    else env
  | None => env
  end.

(** The three paths, in the order they are tried. *)
Definition projectConfigPath (sourcePath : jsstring) : jsstring :=
  pathJoin [sourcePath; u "api-config.json"].

Definition toolConfigPath : jsstring :=
  pathJoin [dirname; u ".."; u "api-config.json"].

(** The body of the [try] block; [None] is an error. *)
Definition tryLoad (sourcePath : jsstring)
    (customConfigPath : option jsstring) (env : Env) : option Env :=
  match
    match customConfigPath with
    | Some custom =>
      if negb (isEmpty custom) then loadIfExists custom [] else Some []
    | None => Some []
    end
  with
  | None => None
  | Some configs1 =>
    match loadIfExists (projectConfigPath sourcePath) configs1 with
    | None => None
    | Some configs2 =>
      match loadIfExists toolConfigPath configs2 with
      | None => None
      | Some configs =>
        match configs with
        | [] => Some env
        | _ :: _ =>
          let mergedConfig := objectAssign configs in
          let env :=
            assignSection mergedConfig (u "baidu")
              [(u "BAIDU_TRANSLATE_APP_ID", u "appId");
               (u "BAIDU_TRANSLATE_SECRET_KEY", u "secretKey")] env in
          let env :=
            assignSection mergedConfig (u "youdao")
              [(u "YOUDAO_TRANSLATE_APP_KEY", u "appKey");
               (u "YOUDAO_TRANSLATE_APP_SECRET", u "appSecret")] env in
          let env :=
            assignSection mergedConfig (u "google")
              [(u "GOOGLE_TRANSLATE_API_KEY", u "apiKey")] env in
          Some env
        end
      end
    end
  end.

(** [loadApiConfig]: every assignment follows the last read, so the
    [catch] block is entered with the environment unchanged. *)
Definition loadApiConfig (sourcePath : jsstring)
    (customConfigPath : option jsstring) (env : Env) : Env :=
  match tryLoad sourcePath customConfigPath env with
  | Some env' => env'
  | None => env
  end.

End LoadApiConfig.

End ApiConfig.
(* ================================================================== *)
(** ** Sample inputs *)

(** The tree of the one-line file [console.log('这是调试信息')]. *)
Definition consoleLogTree : Node :=
  OtherNode
    [ExpressionStatement
       (CallExpression
          (PropertyAccessExpression (Identifier (u "console")) (u "log"))
          [StringLiteral (u "这是调试信息")])].

(** The tree of [enum Status { 待处理 = '任务已完成' }]. *)
Definition enumTree : Node :=
  OtherNode
    [EnumDeclaration (u "Status")
       [EnumMember (Identifier (u "待处理"))
          (Some (StringLiteral (u "任务已完成")))]].

(** The same declaration with the member name written as a string literal:
    [enum Status { '待处理' = '任务已完成' }]. *)
Definition enumLiteralKeyTree : Node :=
  OtherNode
    [EnumDeclaration (u "Status")
       [EnumMember (StringLiteral (u "待处理"))
          (Some (StringLiteral (u "任务已完成")))]].

(** The tree of [const labels = { '标题': '任务已完成' }]: the source
    file, the variable statement, its declaration list, the declaration
    and the object literal. *)
Definition objectLiteralKeyTree : Node :=
  OtherNode
    [OtherNode
       [OtherNode
          [OtherNode
             [Identifier (u "labels");
              OtherNode
                [PropertyAssignment (StringLiteral (u "标题"))
                   (StringLiteral (u "任务已完成"))]]]]].

(** The case mapping on the letters A to Z, for the examples. *)
Definition toLowerBasicLatin (s : jsstring) : jsstring := map asciiLower s.

(** A service that fails on every request. *)
Definition batchServiceDown (n : nat) (batch : list jsstring)
  : Mapping.Outcome (list Mapping.Value) := Mapping.Thrown.

Definition textServiceDown (n : nat) (text : jsstring)
  : Mapping.Outcome Mapping.Value := Mapping.Thrown.

(** A service that translates the first text of every batch only. *)
Definition batchServiceShort (n : nat) (batch : list jsstring)
  : Mapping.Outcome (list Mapping.Value) :=
  Mapping.Returned [Mapping.VString (u "First")].

(** A translation service that hits its access limit on every request, and
    a network that resets every connection. *)
Definition axiosRateLimited (n : nat) (query : jsstring)
  : BaiduTranslator.Reply :=
  BaiduTranslator.Resolved
    (BaiduTranslator.ErrorData (Some (u "Invalid Access Limit"))).

Definition axiosConnectionReset (n : nat) (query : jsstring)
  : BaiduTranslator.Reply :=
  BaiduTranslator.Rejected (Some (u "ECONNRESET")).

(** A file system with a project file and a tool file, both with a [baidu]
    section. *)
Definition samplePathJoin (parts : list jsstring) : jsstring :=
  match parts with
  | [] => []
  | part :: rest => part ++ flat_map (fun p => 0x2F :: p) rest
  end.

Definition sampleToolConfig : ApiConfig.Config :=
  ApiConfig.ConfigObject
    [(u "baidu",
      ApiConfig.SectionObject
        [(u "appId", u "tool-id"); (u "secretKey", u "tool-key")])].

Definition sampleProjectConfig : ApiConfig.Config :=
  ApiConfig.ConfigObject
    [(u "baidu",
      ApiConfig.SectionObject
        [(u "appId", u "project-id"); (u "secretKey", u "project-key")])].

Definition sampleReadJson (configPath : jsstring)
  : option ApiConfig.Config :=
  if str_eqb configPath (u "/tool/src/../api-config.json")
  then Some sampleToolConfig
  else Some sampleProjectConfig.

(* ================================================================== *)
(** * Properties *)

(** ** Source literals *)

Example u_console_text :
  u "这是调试信息" = [0x8FD9; 0x662F; 0x8C03; 0x8BD5; 0x4FE1; 0x606F].
Proof. reflexivity. Qed.

Example u_rocket : u "🚀" = [0xD83D; 0xDE80].
Proof. reflexivity. Qed.

(** ** Character classes *)

Lemma inRange_spec (lo hi c : Z) :
  inRange lo hi c = true <-> lo <= c <= hi.
Proof. unfold inRange. rewrite andb_true_iff, !Z.leb_le. tauto. Qed.

Lemma inRange_false (lo hi c : Z) :
  inRange lo hi c = false <-> c < lo \/ hi < c.
Proof.
  unfold inRange. rewrite andb_false_iff, !Z.leb_gt. tauto.
Qed.

Lemma inSet_spec (cs : list Z) (c : Z) : inSet cs c = true <-> In c cs.
Proof.
  unfold inSet. rewrite existsb_exists. split.
  - intros (x & Hx & E). apply Z.eqb_eq in E. now subst.
  - intros H. exists c. split; [assumption | apply Z.eqb_refl].
Qed.

Lemma isChinese_spec (c : Z) : isChinese c = true <-> 0x4e00 <= c <= 0x9fff.
Proof. apply inRange_spec. Qed.

Lemma str_eqb_eq (a b : jsstring) : str_eqb a b = true <-> a = b.
Proof.
  unfold str_eqb. destruct (jsstring_eq_dec a b); split; congruence.
Qed.

Lemma str_eqb_refl (a : jsstring) : str_eqb a a = true.
Proof. now apply str_eqb_eq. Qed.

Lemma str_eqb_neq (a b : jsstring) : str_eqb a b = false <-> a <> b.
Proof.
  unfold str_eqb. destruct (jsstring_eq_dec a b); split; congruence.
Qed.

(** A character of a range is in none of the listed values: the goal is a
    disjunction of equalities and the context bounds the character. *)
Ltac not_in_list :=
  let H := fresh in
  intros H; cbn in H;
  repeat match goal with
         | H : _ \/ _ |- _ => destruct H as [H | H]
         end;
  solve [lia | contradiction].

(* ================================================================== *)
(** ** C1: console calls *)

(** C1, on the code.  With the default options ([extractFromConsole] is
    false) the walker recognises the call [console.log('这是调试信息')] as a
    console call, and its result still holds the phrase of the argument:
    the early return of [handleCallExpression] does not stop [visitNode]
    from visiting the arguments. *)
Theorem console_argument_is_extracted :
  ASTChineseExtractor.extractFromConsole ASTChineseExtractor.defaultOptions
    = false
  /\ ASTChineseExtractor.isConsoleCall
       (PropertyAccessExpression (Identifier (u "console")) (u "log")) = true
  /\ ASTChineseExtractor.visitNode ASTChineseExtractor.defaultOptions
       consoleLogTree []
     = [u "这是调试信息"].
Proof. repeat split; vm_compute; reflexivity. Qed.

(** The other tree walker skips the argument of the same call. *)
Lemma morph_console_argument_skipped :
  MorphIndex.forEachDescendant consoleLogTree = [].
Proof. vm_compute. reflexivity. Qed.

(** The line extractor gives nothing for a line that starts with a console
    call. *)
Lemma console_line_gives_nothing (line : jsstring) :
  Index.isConsoleLogLine line = true -> Index.extractChineseFromLine line = [].
Proof. intros H. unfold Index.extractChineseFromLine. now rewrite H. Qed.

Lemma index_console_file_gives_nothing :
  Index.extractChineseFromContent (u "console.log('这是调试信息')") = [].
Proof. vm_compute. reflexivity. Qed.

(** The test of the line extractor looks at the start of the line only, as
    its patterns say. *)
Example index_console_inside_line :
  Index.extractChineseFromContent (u "if (debug) console.log('这是调试信息')")
  = [u "这是调试信息"].
Proof. vm_compute. reflexivity. Qed.

(* ================================================================== *)
(** ** C3: the comparison of the two scripts *)

(** C3, as the code has it.  The classifier of the tree walker rejects a
    text whose Latin letters outnumber its Chinese characters. *)
Theorem latin_majority_is_rejected (text : jsstring) :
  chineseCount text < englishCount text ->
  ASTChineseExtractor.isValidChineseText text = false.
Proof.
  intros H. unfold ASTChineseExtractor.isValidChineseText.
  apply Z.ltb_lt in H. rewrite H.
  repeat match goal with
         | |- (if ?b then false else _) = false => destruct b; try reflexivity
         end.
Qed.

Lemma latin_majority_is_rejected_witness :
  chineseCount (u "the 的") < englishCount (u "the 的")
  /\ ASTChineseExtractor.isValidChineseText (u "the 的") = false.
Proof.
  split.
  - vm_compute. reflexivity.
  - apply (latin_majority_is_rejected (u "the 的")). vm_compute. reflexivity.
Defined.

(** C3 as stated fails: a text with as many Latin letters as Chinese
    characters passes the classifier of the tree walker, and the classifier
    of src/index.js, which does not compare the scripts, accepts a text with
    more Latin letters than Chinese characters. *)
Lemma majority_filter_counterexample :
  (chineseCount (u "a的") <= englishCount (u "a的")
   /\ ASTChineseExtractor.isValidChineseText (u "a的") = true)
  /\ (chineseCount (u "the 的") < englishCount (u "the 的")
      /\ Index.isValidChineseText (u "the 的") = true).
Proof.
  repeat split; vm_compute; solve [reflexivity | discriminate].
Qed.

(* ================================================================== *)
(** ** C4: key positions *)

(** With an identifier as the member name the walker extracts the value and
    not the key. *)
Lemma enum_identifier_key_not_extracted :
  ASTChineseExtractor.visitNode ASTChineseExtractor.defaultOptions enumTree []
  = [u "任务已完成"].
Proof. vm_compute. reflexivity. Qed.

(** C4, on the code.  With the default options ([extractFromEnumKeys] is
    false) the walker extracts a string literal in the name slot of an enum
    member, and one in the name slot of an object property:
    [handleStringLiteral] does not look at the position of the literal. *)
Theorem string_literal_key_is_extracted :
  ASTChineseExtractor.extractFromEnumKeys ASTChineseExtractor.defaultOptions
    = false
  /\ ASTChineseExtractor.visitNode ASTChineseExtractor.defaultOptions
       enumLiteralKeyTree []
     = [u "任务已完成"; u "待处理"]
  /\ ASTChineseExtractor.visitNode ASTChineseExtractor.defaultOptions
       objectLiteralKeyTree []
     = [u "标题"; u "任务已完成"].
Proof. repeat split; vm_compute; reflexivity. Qed.

(** The other tree walker leaves both keys out. *)
Lemma morph_keys_not_extracted :
  MorphIndex.forEachDescendant enumLiteralKeyTree = [u "任务已完成"]
  /\ MorphIndex.forEachDescendant objectLiteralKeyTree = [u "任务已完成"].
Proof. split; vm_compute; reflexivity. Qed.

(* ================================================================== *)
(** ** C9: one file after another *)

Section History.

Import ASTChineseExtractor.

Variable readFile : jsstring -> option jsstring.
Variable createSourceFile : jsstring -> jsstring -> Node.

Local Abbreviation call := (extractFromFile readFile createSourceFile).
Local Abbreviation after := (afterFiles readFile createSourceFile).

Lemma extractFromFile_options (this : Extractor) (filePath : jsstring) :
  options (snd (call this filePath)) = options this.
Proof.
  unfold extractFromFile. destruct (readFile filePath); reflexivity.
Qed.

Lemma afterFiles_options (history : list jsstring) :
  forall this, options (after this history) = options this.
Proof.
  induction history as [| filePath rest IH]; intros this; simpl.
  - reflexivity.
  - rewrite IH. apply extractFromFile_options.
Qed.

(** The array a call returns is a function of the options and the file. *)
Lemma extractFromFile_result (this : Extractor) (filePath : jsstring) :
  fst (call this filePath)
  = match readFile filePath with
    | Some sourceCode =>
      visitNode (options this) (createSourceFile filePath sourceCode) []
    | None => []
    end.
Proof.
  unfold extractFromFile. destruct (readFile filePath); reflexivity.
Qed.

(** C9.  Whatever files the same extractor has processed before, the array
    it returns for a file is the array a fresh call returns for it: the
    accumulator is cleared before every walk and the options do not
    change. *)
Theorem extractFromFile_independent_of_history
    (this : Extractor) (history : list jsstring) (fileB : jsstring) :
  fst (extractFromFile readFile createSourceFile
         (afterFiles readFile createSourceFile this history) fileB)
  = fst (extractFromFile readFile createSourceFile this fileB).
Proof.
  rewrite !extractFromFile_result, afterFiles_options. reflexivity.
Qed.

(** The special case of the claim: file A, then file B. *)
Corollary extractFromFile_two_runs
    (this : Extractor) (fileA fileB : jsstring) :
  fst (extractFromFile readFile createSourceFile
         (snd (extractFromFile readFile createSourceFile this fileA)) fileB)
  = fst (extractFromFile readFile createSourceFile this fileB).
Proof.
  rewrite !extractFromFile_result, extractFromFile_options. reflexivity.
Qed.

End History.

(* ================================================================== *)
(** ** Lists of characters *)

Lemma list_ind2 (P : jsstring -> Prop) :
  P [] ->
  (forall c, P [c]) ->
  (forall c d rest, P rest -> P (d :: rest) -> P (c :: d :: rest)) ->
  forall s, P s.
Proof.
  intros H0 H1 H2 s.
  assert (H : P s /\ forall c, P (c :: s)).
  { induction s as [| d rest [IH1 IH2]].
    - split; [exact H0 | exact H1].
    - split; [apply IH2 | intros c; apply H2; [exact IH1 | apply IH2]]. }
  apply H.
Qed.

Lemma dropWhile_Forall (P : Z -> Prop) (q : Z -> bool) (s : jsstring) :
  Forall P s -> Forall P (dropWhile q s).
Proof.
  induction 1 as [| c rest Hc Hrest IH]; simpl.
  - constructor.
  - destruct (q c); [exact IH | now constructor].
Qed.

Lemma Forall_rev_iff (P : Z -> Prop) (s : jsstring) :
  Forall P (rev s) <-> Forall P s.
Proof.
  rewrite !Forall_forall. split; intros H x Hx; apply H.
  - now apply in_rev in Hx.
  - now apply in_rev.
Qed.

Lemma dropWhileEnd_Forall (P : Z -> Prop) (q : Z -> bool) (s : jsstring) :
  Forall P s -> Forall P (dropWhileEnd q s).
Proof.
  intros H. unfold dropWhileEnd.
  apply Forall_rev_iff, dropWhile_Forall, Forall_rev_iff, H.
Qed.

Lemma trim_Forall (P : Z -> Prop) (s : jsstring) :
  Forall P s -> Forall P (trim s).
Proof.
  intros H. unfold trim. now apply dropWhileEnd_Forall, dropWhile_Forall.
Qed.

Lemma removeClass_Forall (P : Z -> Prop) (q : Z -> bool) (s : jsstring) :
  Forall P s -> Forall P (removeClass q s).
Proof.
  intros H. unfold removeClass. rewrite Forall_forall in *.
  intros x Hx. apply filter_In in Hx. now apply H.
Qed.

Lemma removeClass_none (q : Z -> bool) (s : jsstring) :
  Forall (fun c => q c = false) (removeClass q s).
Proof.
  unfold removeClass. rewrite Forall_forall. intros x Hx.
  apply filter_In in Hx. destruct Hx as [_ Hx]. now destruct (q x).
Qed.

Lemma removeClass_id (q : Z -> bool) (s : jsstring) :
  Forall (fun c => q c = false) s -> removeClass q s = s.
Proof.
  induction 1 as [| c rest Hc Hrest IH]; simpl.
  - reflexivity.
  - rewrite Hc. simpl. now rewrite IH.
Qed.

Lemma replaceClassBySpace_Forall (P : Z -> Prop) (q : Z -> bool)
    (s : jsstring) :
  P 0x20 -> Forall P s -> Forall P (replaceClassBySpace q s).
Proof.
  intros Hsp H. unfold replaceClassBySpace.
  induction H as [| c rest Hc Hrest IH]; simpl; constructor.
  - now destruct (q c).
  - exact IH.
Qed.

Lemma replaceClassBySpace_none (q : Z -> bool) (s : jsstring) :
  q 0x20 = false ->
  Forall (fun c => q c = false) (replaceClassBySpace q s).
Proof.
  intros Hsp. unfold replaceClassBySpace.
  induction s as [| c rest IH]; simpl; constructor.
  - destruct (q c) eqn:E; assumption.
  - exact IH.
Qed.

Lemma replaceClassBySpace_id (q : Z -> bool) (s : jsstring) :
  Forall (fun c => q c = false) s -> replaceClassBySpace q s = s.
Proof.
  unfold replaceClassBySpace.
  induction 1 as [| c rest Hc Hrest IH]; simpl.
  - reflexivity.
  - now rewrite Hc, IH.
Qed.

Lemma dropWhile_id (q : Z -> bool) (s : jsstring) :
  firstIs q s = false -> dropWhile q s = s.
Proof.
  destruct s as [| c rest]; simpl; [reflexivity | intros H; now rewrite H].
Qed.

Lemma dropWhileEnd_id (q : Z -> bool) (s : jsstring) :
  lastIs q s = false -> dropWhileEnd q s = s.
Proof.
  unfold lastIs, dropWhileEnd. intros H.
  rewrite dropWhile_id; [apply rev_involutive |].
  unfold firstIs. exact H.
Qed.

Lemma firstIs_Forall (q : Z -> bool) (s : jsstring) :
  Forall (fun c => q c = false) s -> firstIs q s = false.
Proof. destruct 1; simpl; [reflexivity | assumption]. Qed.

Lemma lastIs_Forall (q : Z -> bool) (s : jsstring) :
  Forall (fun c => q c = false) s -> lastIs q s = false.
Proof.
  intros H. apply Forall_rev_iff in H. unfold lastIs.
  destruct H; [reflexivity | assumption].
Qed.

Lemma trim_id (s : jsstring) :
  Forall (fun c => isSpace c = false) s -> trim s = s.
Proof.
  intros H. unfold trim.
  rewrite (dropWhile_id _ _ (firstIs_Forall _ _ H)).
  apply dropWhileEnd_id, lastIs_Forall, H.
Qed.

Lemma existsb_false_Forall (q : Z -> bool) (s : jsstring) :
  existsb q s = false <-> Forall (fun c => q c = false) s.
Proof.
  induction s as [| c rest IH]; simpl.
  - split; [constructor | reflexivity].
  - rewrite orb_false_iff, IH. split.
    + intros [H1 H2]. now constructor.
    + intros H. inversion H; subst. now split.
Qed.

(** *** The emoji replacement *)

Lemma replaceEmoji_Forall (P : Z -> Prop) (s : jsstring) :
  P 0x20 -> Forall P s -> Forall P (replaceEmoji s).
Proof.
  intros Hsp. induction s as [| c | c d rest IH1 IH2] using list_ind2;
    intros H.
  - constructor.
  - simpl. inversion H; subst. constructor; [| constructor].
    now destruct (isEmojiPoint c).
  - inversion H as [| ? ? Hc Hrest]; subst.
    inversion Hrest as [| ? ? Hd Hrest']; subst.
    cbn [replaceEmoji].
    destruct (isHighSurrogate c && isLowSurrogate d).
    + destruct (isEmojiPoint (surrogatePoint c d)).
      * constructor; [exact Hsp | now apply IH1].
      * constructor; [exact Hc |]. constructor; [exact Hd | now apply IH1].
    + constructor; [now destruct (isEmojiPoint c) | now apply IH2].
Qed.

Lemma surrogate_not_emoji (c : Z) :
  isHighSurrogate c = true \/ isLowSurrogate c = true ->
  isEmojiPoint c = false.
Proof.
  unfold isHighSurrogate, isLowSurrogate, isEmojiPoint.
  rewrite !andb_true_iff, !Z.leb_le.
  repeat rewrite orb_false_iff. rewrite !inRange_false. lia.
Qed.

(** What the first replacement leaves is no character of its ranges. *)
Lemma replaceEmoji_none (s : jsstring) :
  Forall (fun c => isEmojiPoint c = false) (replaceEmoji s).
Proof.
  induction s as [| c | c d rest IH1 IH2] using list_ind2.
  - constructor.
  - simpl. constructor; [| constructor].
    destruct (isEmojiPoint c) eqn:E; [reflexivity | exact E].
  - cbn [replaceEmoji].
    destruct (isHighSurrogate c && isLowSurrogate d) eqn:Hpair.
    + apply andb_true_iff in Hpair. destruct Hpair as [Hc Hd].
      destruct (isEmojiPoint (surrogatePoint c d)).
      * constructor; [reflexivity | exact IH1].
      * constructor; [apply surrogate_not_emoji; now left |].
        constructor; [apply surrogate_not_emoji; now right | exact IH1].
    + constructor; [| exact IH2].
      destruct (isEmojiPoint c) eqn:E; [reflexivity | exact E].
Qed.

(** A pair whose high half is neither U+D83C nor U+D83D encodes no
    character of the ranges. *)
Lemma other_pair_not_emoji (c d : Z) :
  isHighSurrogate c = true -> isLowSurrogate d = true ->
  c <> 0xD83C -> c <> 0xD83D ->
  isEmojiPoint (surrogatePoint c d) = false.
Proof.
  unfold isHighSurrogate, isLowSurrogate, isEmojiPoint, surrogatePoint.
  rewrite !andb_true_iff, !Z.leb_le. intros Hc Hd N1 N2.
  repeat rewrite orb_false_iff. rewrite !inRange_false. lia.
Qed.

Lemma icon_has_high_halves (c : Z) :
  isIconGlyph c = false -> c <> 0xD83C /\ c <> 0xD83D.
Proof.
  intros H. split; intros ->; vm_compute in H; discriminate.
Qed.

Lemma replaceEmoji_id (s : jsstring) :
  Forall (fun c => isEmojiPoint c = false /\ isIconGlyph c = false) s ->
  replaceEmoji s = s.
Proof.
  induction s as [| c | c d rest IH1 IH2] using list_ind2; intros H.
  - reflexivity.
  - inversion H as [| ? ? [Hc _] _]; subst. simpl. now rewrite Hc.
  - inversion H as [| ? ? [Hc Hi] Hrest]; subst.
    inversion Hrest as [| ? ? _ Hrest']; subst.
    cbn [replaceEmoji].
    destruct (isHighSurrogate c && isLowSurrogate d) eqn:Hpair.
    + apply andb_true_iff in Hpair. destruct Hpair as [Hh Hl].
      destruct (icon_has_high_halves c Hi) as [N1 N2].
      rewrite (other_pair_not_emoji c d Hh Hl N1 N2).
      do 2 f_equal. exact (IH1 Hrest').
    + rewrite Hc. f_equal. exact (IH2 Hrest).
Qed.

(** *** The four replacements and the boundary *)

Lemma stripSymbols_Forall (P : Z -> Prop) (text : jsstring) :
  P 0x20 -> Forall P text -> Forall P (stripSymbols text).
Proof.
  intros Hsp H. unfold stripSymbols.
  repeat apply replaceClassBySpace_Forall; try exact Hsp.
  now apply replaceEmoji_Forall.
Qed.

Lemma stripBoundary_Forall (P : Z -> Prop) (text : jsstring) :
  P 0x20 -> Forall P text -> Forall P (stripBoundary text).
Proof.
  intros Hsp H. unfold stripBoundary.
  now apply dropWhileEnd_Forall, dropWhile_Forall, stripSymbols_Forall.
Qed.

Lemma stripSymbols_noSymbol (text : jsstring) :
  Forall noSymbol (stripSymbols text).
Proof.
  unfold stripSymbols.
  assert (H1 : Forall (fun c => isEmojiPoint c = false)
                 (replaceEmoji text)) by apply replaceEmoji_none.
  set (s1 := replaceEmoji text) in *.
  assert (H2 : Forall (fun c => isEmojiPoint c = false
                                /\ isIconGlyph c = false)
                 (replaceClassBySpace isIconGlyph s1)).
  { apply Forall_and.
    - now apply replaceClassBySpace_Forall.
    - now apply replaceClassBySpace_none. }
  set (s2 := replaceClassBySpace isIconGlyph s1) in *.
  assert (H3 : Forall noSymbol (replaceClassBySpace isOtherGlyph s2)).
  { unfold noSymbol.
    assert (Ha : Forall (fun c => isEmojiPoint c = false
                                  /\ isIconGlyph c = false)
                   (replaceClassBySpace isOtherGlyph s2))
      by (apply replaceClassBySpace_Forall; [now split | exact H2]).
    assert (Hb : Forall (fun c => isOtherGlyph c = false)
                   (replaceClassBySpace isOtherGlyph s2))
      by now apply replaceClassBySpace_none.
    rewrite Forall_forall in *. intros x Hx.
    destruct (Ha x Hx). repeat split; auto. }
  apply replaceClassBySpace_Forall; [now repeat split | exact H3].
Qed.

Lemma containsChinese_false (s : jsstring) :
  containsChinese s = false <-> Forall (fun c => isChinese c = false) s.
Proof. apply existsb_false_Forall. Qed.

Lemma stripBoundary_no_chinese (text : jsstring) :
  containsChinese text = false ->
  containsChinese (stripBoundary text) = false.
Proof.
  rewrite !containsChinese_false. now apply stripBoundary_Forall.
Qed.

(* ================================================================== *)
(** ** C8: unusable input *)

(** C8.  [cleanChineseText] is a total function on strings: it is built
    from structural recursion and list operations, and no step of it can
    fail.  It returns the empty list for the empty string, for a text
    without a Chinese character, and for a text that has none left after the
    symbols are replaced and the boundary punctuation is removed. *)
Theorem cleanChineseText_unusable_input (text : jsstring) :
  text = [] \/ containsChinese text = false
  \/ containsChinese (stripBoundary text) = false ->
  cleanChineseText text = [].
Proof.
  intros H.
  assert (Hb : text = [] \/ containsChinese (stripBoundary text) = false).
  { destruct H as [H | [H | H]]; [now left | right | now right].
    now apply stripBoundary_no_chinese. }
  unfold cleanChineseText. destruct Hb as [-> | Hb]; [reflexivity |].
  destruct (isEmpty text); [reflexivity |].
  rewrite Hb. simpl. now rewrite orb_true_r.
Qed.

Lemma cleanChineseText_unusable_input_witness :
  cleanChineseText (u "✅ done!") = [].
Proof.
  apply (cleanChineseText_unusable_input (u "✅ done!")).
  right. left. vm_compute. reflexivity.
Defined.

(* ================================================================== *)
(** ** C6: cleaning a cleaned phrase *)

Lemma dropWhile_length (q : Z -> bool) (s : jsstring) :
  (List.length (dropWhile q s) <= List.length s)%nat.
Proof.
  induction s as [| c rest IH]; simpl; [lia |].
  destruct (q c); simpl; lia.
Qed.

(** The elements of a split on punctuation runs hold no punctuation mark,
    and keep every property of the characters of the text. *)
Lemma splitGo_punctuation (P : Z -> Prop) (fuel : nat) :
  forall s acc x,
    (List.length s <= fuel)%nat ->
    Forall P s ->
    Forall (fun c => P c /\ isChinesePunctuation c = false) acc ->
    In x (splitGo matchPunctuationRun fuel s acc) ->
    Forall (fun c => P c /\ isChinesePunctuation c = false) x.
Proof.
  induction fuel as [| fuel IH]; intros s acc x Hlen Hs Hacc Hx.
  - destruct s; [| simpl in Hlen; lia]. simpl in Hx.
    destruct Hx as [<- | []]. rewrite app_nil_r.
    now apply Forall_rev_iff.
  - destruct s as [| c rest].
    + simpl in Hx. destruct Hx as [<- | []]. now apply Forall_rev_iff.
    + simpl in Hlen. inversion Hs as [| ? ? Hc Hrest]; subst.
      cbn [splitGo matchPunctuationRun] in Hx.
      destruct (isChinesePunctuation c) eqn:Ec.
      * destruct Hx as [<- | Hx]; [now apply Forall_rev_iff |].
        apply (IH (dropWhile isChinesePunctuation rest) [] x).
        -- pose proof (dropWhile_length isChinesePunctuation rest). lia.
        -- now apply dropWhile_Forall.
        -- constructor.
        -- exact Hx.
      * apply (IH rest (c :: acc) x).
        -- lia.
        -- exact Hrest.
        -- constructor; [now split | exact Hacc].
        -- exact Hx.
Qed.

Lemma split_punctuation (P : Z -> Prop) (s x : jsstring) :
  Forall P s ->
  In x (split matchPunctuationRun s) ->
  Forall (fun c => P c /\ isChinesePunctuation c = false) x.
Proof.
  intros Hs Hx. unfold split in Hx.
  eapply splitGo_punctuation; eauto.
Qed.

(** A text without punctuation marks is one element. *)
Lemma splitGo_no_punctuation (fuel : nat) :
  forall s acc,
    Forall (fun c => isChinesePunctuation c = false) s ->
    splitGo matchPunctuationRun fuel s acc = [rev acc ++ s].
Proof.
  induction fuel as [| fuel IH]; intros s acc Hs.
  - reflexivity.
  - destruct s as [| c rest]; simpl.
    + now rewrite app_nil_r.
    + inversion Hs as [| ? ? Hc Hrest]; subst. rewrite Hc.
      rewrite (IH rest (c :: acc) Hrest). simpl.
      now rewrite <- app_assoc.
Qed.

Lemma cleanSegment_Forall (P : Z -> Prop) (segment : jsstring) :
  Forall P segment -> Forall P (cleanSegment segment).
Proof.
  intros H. unfold cleanSegment.
  now apply trim_Forall, dropWhileEnd_Forall, dropWhile_Forall,
    removeClass_Forall, removeClass_Forall.
Qed.

Lemma cleanSegment_no_space (segment : jsstring) :
  Forall (fun c => isSpace c = false) (cleanSegment segment).
Proof.
  unfold cleanSegment.
  apply trim_Forall, dropWhileEnd_Forall, dropWhile_Forall,
    removeClass_Forall.
  eapply Forall_impl; [| apply (removeClass_none isLatinDigitSpace)].
  intros c Hc. unfold isLatinDigitSpace in Hc. simpl in Hc.
  now apply orb_false_iff in Hc.
Qed.

Lemma cleanSegment_no_ascii (segment : jsstring) :
  Forall (fun c => isAscii c = false) (cleanSegment segment).
Proof.
  unfold cleanSegment.
  apply trim_Forall, dropWhileEnd_Forall, dropWhile_Forall.
  apply (removeClass_none isAscii).
Qed.

Lemma cleanChineseText_phrases (text p : jsstring) :
  In p (cleanChineseText text) -> isCleanPhrase p.
Proof.
  unfold cleanChineseText.
  destruct (isEmpty text); [intros [] |].
  destruct (isEmpty (stripBoundary text)
            || negb (containsChinese (stripBoundary text)));
    [intros [] |].
  intros H. apply filter_In in H. destruct H as [H Hkeep].
  apply in_map_iff in H. destruct H as (seg & <- & H).
  apply filter_In in H. destruct H as [H _].
  apply in_map_iff in H. destruct H as (seg0 & <- & H).
  assert (Hseg0 : Forall (fun c => noSymbol c
                                   /\ isChinesePunctuation c = false) seg0).
  { apply (split_punctuation noSymbol (stripBoundary text)); [| exact H].
    unfold stripBoundary.
    apply dropWhileEnd_Forall, dropWhile_Forall, stripSymbols_noSymbol. }
  set (p := cleanSegment (trim seg0)) in *.
  assert (Hp : Forall (fun c => noSymbol c
                                /\ isChinesePunctuation c = false) p)
    by now apply cleanSegment_Forall, trim_Forall.
  pose proof (cleanSegment_no_space (trim seg0)) as Hspace.
  pose proof (cleanSegment_no_ascii (trim seg0)) as Hascii.
  fold p in Hspace, Hascii.
  unfold keepSegment in Hkeep.
  repeat (apply andb_true_iff in Hkeep; destruct Hkeep as [Hkeep ?]).
  repeat split.
  - intros E. rewrite E in Hkeep. discriminate.
  - now apply Z.leb_le.
  - assumption.
  - rewrite Forall_forall in *. intros c Hc.
    destruct (Hp c Hc). unfold isCleanChar. auto.
Qed.

Lemma cleanChar_not_ascii_punctuation (c : Z) :
  isAscii c = false -> isAsciiPunctuation c = false.
Proof.
  intros H. apply inRange_false in H.
  destruct (isAsciiPunctuation c) eqn:E; [exfalso | reflexivity].
  apply inSet_spec in E. revert E. not_in_list.
Qed.

Lemma cleanChar_not_latin_digit_space (c : Z) :
  isAscii c = false -> isSpace c = false -> isLatinDigitSpace c = false.
Proof.
  intros H Hs. apply inRange_false in H.
  unfold isLatinDigitSpace, isLatinLetter, isDigit. rewrite Hs.
  repeat rewrite orb_false_iff. rewrite !inRange_false. lia.
Qed.

Lemma cleanChineseText_fixes_phrase (p : jsstring) :
  isCleanPhrase p -> cleanChineseText p = [p].
Proof.
  intros (Hne & Hlen & Hch & Hchars).
  assert (Hascii : Forall (fun c => isAscii c = false) p)
    by (eapply Forall_impl; [| exact Hchars]; intros c H; apply H).
  assert (Hspace : Forall (fun c => isSpace c = false) p)
    by (eapply Forall_impl; [| exact Hchars]; intros c H; apply H).
  assert (Hpunct : Forall (fun c => isChinesePunctuation c = false) p)
    by (eapply Forall_impl; [| exact Hchars]; intros c H; apply H).
  assert (Hsym : Forall noSymbol p)
    by (eapply Forall_impl; [| exact Hchars]; intros c H; apply H).
  assert (Hstrip : stripSymbols p = p).
  { unfold stripSymbols.
    rewrite replaceEmoji_id
      by (eapply Forall_impl; [| exact Hsym]; intros c H; split; apply H).
    rewrite (replaceClassBySpace_id isIconGlyph)
      by (eapply Forall_impl; [| exact Hsym]; intros c H; apply H).
    rewrite (replaceClassBySpace_id isOtherGlyph)
      by (eapply Forall_impl; [| exact Hsym]; intros c H; apply H).
    apply replaceClassBySpace_id.
    eapply Forall_impl; [| exact Hascii].
    intros c H. now apply cleanChar_not_ascii_punctuation. }
  assert (Hbound : stripBoundary p = p).
  { unfold stripBoundary. rewrite Hstrip.
    rewrite (dropWhile_id _ _ (firstIs_Forall _ _ Hpunct)).
    apply dropWhileEnd_id, lastIs_Forall, Hpunct. }
  assert (Hseg : cleanSegment p = p).
  { unfold cleanSegment.
    rewrite (removeClass_id isLatinDigitSpace).
    2:{ rewrite Forall_forall in *. intros c Hc.
        apply cleanChar_not_latin_digit_space; auto. }
    rewrite (removeClass_id isAscii) by exact Hascii.
    rewrite (dropWhile_id _ _ (firstIs_Forall _ _ Hpunct)).
    rewrite (dropWhileEnd_id _ _ (lastIs_Forall _ _ Hpunct)).
    now apply trim_id. }
  assert (Hempty : isEmpty p = false) by (destruct p; [congruence | easy]).
  unfold cleanChineseText. rewrite Hempty, Hbound, Hempty, Hch. simpl.
  unfold split. rewrite (splitGo_no_punctuation _ p [] Hpunct). simpl.
  rewrite (trim_id p Hspace).
  unfold hasChineseContent. rewrite Hempty, Hch. simpl.
  rewrite Hseg. unfold keepSegment. rewrite Hempty, Hch.
  rewrite (firstIs_Forall _ _ Hpunct), (lastIs_Forall _ _ Hpunct).
  apply Z.leb_le in Hlen. rewrite Hlen.
  assert (Hpos : (0 <? strlen p) = true).
  { apply Z.ltb_lt. unfold strlen. destruct p; [congruence | simpl; lia]. }
  now rewrite Hpos.
Qed.

(** C6, as the code has it.  Every phrase that [cleanChineseText] returns
    is a fixed point of it: cleaning the phrase again returns the list of
    that one phrase. *)
Theorem clean_fixes_clean_results (text p : jsstring) :
  In p (cleanChineseText text) -> cleanChineseText p = [p].
Proof.
  intros H. apply cleanChineseText_fixes_phrase.
  exact (cleanChineseText_phrases text p H).
Qed.

Lemma clean_fixes_clean_results_witness :
  In (u "操作成功") (cleanChineseText (u "✅ 操作成功"))
  /\ cleanChineseText (u "操作成功") = [u "操作成功"].
Proof.
  assert (H : In (u "操作成功") (cleanChineseText (u "✅ 操作成功")))
    by (vm_compute; left; reflexivity).
  split; [exact H |].
  exact (clean_fixes_clean_results (u "✅ 操作成功") (u "操作成功") H).
Defined.

(** C6 as stated fails: a phrase with an interior comma passes the
    classifier, and cleaning splits it in two. *)
Lemma clean_not_fixed_on_valid_phrase :
  ASTChineseExtractor.isValidChineseText (u "你好，世界") = true
  /\ cleanChineseText (u "你好，世界") = [u "你好"; u "世界"]
  /\ cleanChineseText (u "你好，世界") <> [u "你好，世界"].
Proof.
  repeat split; try (vm_compute; reflexivity).
  vm_compute. discriminate.
Qed.

(* ================================================================== *)
(** ** C2: scored deduplication *)

Section DedupProofs.

Import Dedup.

Variable toLowerCase : jsstring -> jsstring.

Local Abbreviation wellKeyed := (Dedup.wellKeyed toLowerCase).

Lemma startsWith_one (a : Z) (text : jsstring) :
  startsWith [a] text = firstIs (Z.eqb a) text.
Proof.
  destruct text as [| c rest]; simpl; [reflexivity |].
  now rewrite andb_true_r.
Qed.

Lemma endsWith_one (a : Z) (text : jsstring) :
  endsWith [a] text = lastIs (Z.eqb a) text.
Proof. unfold endsWith, lastIs. simpl. apply startsWith_one. Qed.

Lemma isComma_eqb (c : Z) :
  isComma c = (0xFF0C =? c) || (0x3001 =? c).
Proof.
  unfold isComma, inSet. simpl. rewrite orb_false_r.
  now rewrite (Z.eqb_sym c 0xFF0C), (Z.eqb_sym c 0x3001).
Qed.

Lemma firstIs_comma (text : jsstring) :
  startsWith [0xFF0C] text || startsWith [0x3001] text
  = firstIs isComma text.
Proof.
  rewrite !startsWith_one. destruct text as [| c rest]; simpl.
  - reflexivity.
  - now rewrite isComma_eqb.
Qed.

Lemma lastIs_comma (text : jsstring) :
  endsWith [0xFF0C] text || endsWith [0x3001] text = lastIs isComma text.
Proof.
  rewrite !endsWith_one. unfold lastIs. destruct (rev text) as [| c rest].
  - reflexivity.
  - now rewrite isComma_eqb.
Qed.

(** The score of the code is the sum the specification writes. *)
Lemma qualityScore_spec (text : jsstring) :
  qualityScore text = specScore text.
Proof.
  unfold qualityScore, specScore.
  rewrite firstIs_comma, lastIs_comma.
  destruct (lastIs isSentenceEnd text), (existsb isComma text),
    (firstIs isComma text), (lastIs isComma text); lia.
Qed.

Lemma NoDup_snoc (l : list jsstring) (x : jsstring) :
  NoDup l -> ~ In x l -> NoDup (l ++ [x]).
Proof.
  induction 1 as [| y l Hy Hl IH]; simpl; intros Hx.
  - constructor; [intros [] | constructor].
  - constructor.
    + rewrite in_app_iff. simpl. intros [H | [H | []]]; [auto |].
      apply Hx. now left.
    + apply IH. intros H. apply Hx. now right.
Qed.

Lemma mapGet_In (k v : jsstring) (m : list (jsstring * jsstring)) :
  mapGet k m = Some v -> In (k, v) m.
Proof.
  induction m as [| [k' v'] m IH]; simpl; [discriminate |].
  destruct (str_eqb k k') eqn:E.
  - apply str_eqb_eq in E. intros [= <-]. left. now subst.
  - intros H. right. now apply IH.
Qed.

Lemma mapGet_None (k : jsstring) (m : list (jsstring * jsstring)) :
  mapGet k m = None -> ~ In k (map fst m).
Proof.
  induction m as [| [k' v'] m IH]; simpl; [tauto |].
  destruct (str_eqb k k') eqn:E; [discriminate |].
  apply str_eqb_neq in E. intros H [H1 | H1]; [congruence | now apply IH].
Qed.

Lemma mapSet_new (k v : jsstring) (m : list (jsstring * jsstring)) :
  mapGet k m = None -> mapSet k v m = m ++ [(k, v)].
Proof.
  induction m as [| [k' v'] m IH]; simpl; [reflexivity |].
  destruct (str_eqb k k'); [discriminate |].
  intros H. now rewrite IH.
Qed.

Lemma mapSet_keys (k v stored : jsstring) (m : list (jsstring * jsstring)) :
  mapGet k m = Some stored -> map fst (mapSet k v m) = map fst m.
Proof.
  induction m as [| [k' v'] m IH]; simpl; [discriminate |].
  destruct (str_eqb k k') eqn:E.
  - apply str_eqb_eq in E. now subst.
  - intros H. simpl. now rewrite IH.
Qed.

Lemma mapSet_Forall (P : jsstring * jsstring -> Prop) (k v : jsstring)
    (m : list (jsstring * jsstring)) :
  P (k, v) -> Forall P m -> Forall P (mapSet k v m).
Proof.
  intros Hkv. induction 1 as [| [k' v'] m Hh Hm IH]; simpl.
  - now constructor.
  - destruct (str_eqb k k'); now constructor.
Qed.

(** The stored phrases are distinct, because their keys are. *)
Lemma wellKeyed_values (entries : list (jsstring * jsstring)) :
  wellKeyed entries -> NoDup (map snd entries).
Proof.
  intros [Hkeys Hnorm].
  induction entries as [| [k v] entries IH]; simpl; [constructor |].
  inversion Hkeys as [| ? ? Hk Hkeys']; subst.
  inversion Hnorm as [| ? ? Hv Hnorm']; subst. simpl in Hv.
  constructor; [| now apply IH].
  intros Hin. apply in_map_iff in Hin. destruct Hin as ([k2 v2] & E & Hin).
  simpl in E. subst v2. apply Hk.
  rewrite Forall_forall in Hnorm'. specialize (Hnorm' _ Hin). simpl in Hnorm'.
  apply in_map_iff. exists (k2, v). split; [simpl; congruence | exact Hin].
Qed.

(** [indexOf] finds the slot of the stored phrase, and the assignment to
    that slot is the update of the entry. *)
Lemma indexOf_stored (k stored text : jsstring)
    (entries : list (jsstring * jsstring)) :
  NoDup (map snd entries) ->
  mapGet k entries = Some stored ->
  exists index,
    indexOf stored (map snd entries) = Some index
    /\ setNth index text (map snd entries)
       = map snd (mapSet k text entries).
Proof.
  induction entries as [| [k' v'] entries IH]; simpl; [discriminate |].
  intros Hnd Hget. inversion Hnd as [| ? ? Hv Hnd']; subst.
  destruct (str_eqb k k') eqn:E.
  - injection Hget as <-. rewrite str_eqb_refl. exists O. now split.
  - assert (Hne : str_eqb stored v' = false).
    { apply str_eqb_neq. intros ->. apply Hv.
      apply mapGet_In in Hget. apply in_map_iff.
      now exists (k, v'). }
    rewrite Hne. destruct (IH Hnd' Hget) as (index & Hi & Hs).
    exists (S index). rewrite Hi. split; [reflexivity |].
    simpl. now rewrite Hs.
Qed.

Lemma specInsert_mapSet (k text : jsstring)
    (entries : list (jsstring * jsstring)) :
  specInsert k text entries
  = match mapGet k entries with
    | None => mapSet k text entries
    | Some stored =>
      if specBetter text stored then mapSet k text entries else entries
    end.
Proof.
  induction entries as [| [k' v'] entries IH]; simpl; [reflexivity |].
  destruct (str_eqb k k') eqn:E.
  - apply str_eqb_eq in E. subst k'. now destruct (specBetter text v').
  - rewrite IH. destruct (mapGet k entries) as [stored |]; [| reflexivity].
    now destruct (specBetter text stored).
Qed.

(** One round of the loop of the code is one insertion of the rule. *)
Lemma dedupStep_specInsert (entries : list (jsstring * jsstring))
    (text : jsstring) :
  wellKeyed entries ->
  let entries' := specInsert (normalize toLowerCase text) text entries in
  dedupStep toLowerCase (entries, map snd entries) text
  = (entries', map snd entries')
  /\ wellKeyed entries'.
Proof.
  intros Hwk entries'. subst entries'.
  rewrite specInsert_mapSet. unfold dedupStep.
  set (k := normalize toLowerCase text).
  destruct Hwk as [Hkeys Hnorm].
  destruct (mapGet k entries) as [stored |] eqn:Hget.
  - rewrite !qualityScore_spec. fold (specBetter text stored).
    destruct (specBetter text stored).
    + destruct (indexOf_stored k stored text entries
                  (wellKeyed_values entries (conj Hkeys Hnorm)) Hget)
        as (index & Hi & Hs).
      rewrite Hi, Hs. split; [reflexivity |]. split.
      * now rewrite (mapSet_keys k text stored entries Hget).
      * now apply mapSet_Forall.
    + split; [reflexivity | now split].
  - rewrite (mapSet_new k text entries Hget). split.
    + now rewrite map_app.
    + split.
      * rewrite map_app. simpl. apply NoDup_snoc; [exact Hkeys |].
        now apply mapGet_None in Hget.
      * apply Forall_app. split; [exact Hnorm | now repeat constructor].
Qed.

Lemma dedup_fold (texts : list jsstring) :
  forall entries,
    wellKeyed entries ->
    fold_left (dedupStep toLowerCase) texts (entries, map snd entries)
    = (fold_left
         (fun entries text =>
            specInsert (normalize toLowerCase text) text entries)
         texts entries,
       map snd
         (fold_left
            (fun entries text =>
               specInsert (normalize toLowerCase text) text entries)
            texts entries)).
Proof.
  induction texts as [| text texts IH]; intros entries Hwk;
    cbn [fold_left].
  - reflexivity.
  - destruct (dedupStep_specInsert entries text Hwk) as [Hstep Hwk'].
    rewrite Hstep. now apply IH.
Qed.


End DedupProofs.

(* ================================================================== *)
(** ** C7: the mapping generator *)

Section MappingProofs.

Import Mapping.

Variable toLowerCase : jsstring -> jsstring.
Variable baiduBatchTranslate : nat -> list jsstring -> Outcome (list Value).
Variable youdaoTranslate : nat -> jsstring -> Outcome Value.
Variable googleTranslate : nat -> jsstring -> Outcome Value.

Local Abbreviation fallbackTranslation :=
  (Mapping.fallbackTranslation toLowerCase).
Local Abbreviation everyRequestFails :=
  (Mapping.everyRequestFails baiduBatchTranslate youdaoTranslate
     googleTranslate).
Local Abbreviation chosenTranslation :=
  (Mapping.chosenTranslation toLowerCase).

Lemma ret_returns {A : Type} (a : A) : returns (ret a).
Proof. intros clock. now exists a, clock. Qed.

Lemma bind_returns {A B : Type} (m : M A) (k : A -> M B) :
  returns m -> (forall a, returns (k a)) -> returns (bind m k).
Proof.
  intros Hm Hk clock. unfold bind.
  destruct (Hm clock) as (a & clock1 & ->). apply Hk.
Qed.

Lemma tryCatch_returns {A : Type} (m handler : M A) :
  returns handler -> returns (tryCatch m handler).
Proof.
  intros Hh clock. unfold tryCatch.
  destruct (m clock) as [[a |] clock1]; [now exists a, clock1 | apply Hh].
Qed.

Lemma foldM_returns {A B : Type} (f : B -> A -> M B) (l : list A) :
  (forall b a, returns (f b a)) -> forall b, returns (foldM f l b).
Proof.
  intros Hf. induction l as [| a l IH]; intros b; simpl.
  - apply ret_returns.
  - apply bind_returns; [apply Hf | exact IH].
Qed.

Lemma translateOne_returns (current : Service) (results : Obj)
    (text : jsstring) :
  returns (translateOne baiduBatchTranslate youdaoTranslate googleTranslate
             current results text).
Proof. apply tryCatch_returns, ret_returns. Qed.

(** No error leaves [batchTranslate]: every request is inside a [try]. *)
Lemma batchTranslate_returns (current : Service) (texts : list jsstring) :
  returns (batchTranslate baiduBatchTranslate youdaoTranslate
             googleTranslate current texts).
Proof.
  unfold batchTranslate.
  destruct current; apply foldM_returns; intros results batch;
    try (apply foldM_returns; intros; apply translateOne_returns).
  apply tryCatch_returns, foldM_returns. intros.
  apply translateOne_returns.
Qed.

Lemma translateText_value (chineseText : jsstring) (clock : nat) :
  translateText toLowerCase chineseText clock
  = (Returned (fallbackTranslation chineseText), clock).
Proof.
  unfold translateText, fallbackTranslation.
  destruct (truthy (getBuiltinTranslation chineseText)); reflexivity.
Qed.

Lemma placeholder_truthy (chineseText : jsstring) :
  truthy (VString (generatePlaceholder toLowerCase chineseText)) = true.
Proof. reflexivity. Qed.

Lemma fallbackTranslation_truthy (chineseText : jsstring) :
  truthy (fallbackTranslation chineseText) = true.
Proof.
  unfold fallbackTranslation.
  destruct (truthy (getBuiltinTranslation chineseText)) eqn:E;
    [exact E | apply placeholder_truthy].
Qed.

(** *** Keys *)

Lemma chinese_not_proto (text : jsstring) :
  containsChinese text = true -> str_eqb text (u "__proto__") = false.
Proof.
  intros H. apply str_eqb_neq. intros ->. vm_compute in H. discriminate.
Qed.

Lemma chinese_not_inherited (text : jsstring) :
  containsChinese text = true ->
  existsb (str_eqb text) objectPrototypeNames = false.
Proof.
  intros H. destruct (existsb (str_eqb text) objectPrototypeNames) eqn:E;
    [exfalso | reflexivity].
  apply existsb_exists in E. destruct E as (name & Hin & E).
  apply str_eqb_eq in E. subst name.
  cbv [objectPrototypeNames In] in Hin.
  repeat (destruct Hin as [Hin | Hin];
          [subst text; vm_compute in H; discriminate |]).
  exact Hin.
Qed.

Lemma ownSet_values (P : Value -> Prop) (k : jsstring) (v : Value)
    (o : Obj) :
  P v -> Forall (fun kv => P (snd kv)) o ->
  Forall (fun kv => P (snd kv)) (ownSet k v o).
Proof.
  intros Hv. induction 1 as [| [k' v'] o Hh Ho IH]; simpl.
  - now repeat constructor.
  - destruct (str_eqb k k'); now constructor.
Qed.

Lemma foldM_invariant {A B : Type} (I : B -> Prop) (f : B -> A -> M B)
    (l : list A) :
  (forall b a clock,
      I b -> exists b' clock', f b a clock = (Returned b', clock') /\ I b') ->
  forall b clock,
    I b ->
    exists b' clock', foldM f l b clock = (Returned b', clock') /\ I b'.
Proof.
  intros Hf. induction l as [| a l IH]; intros b clock Hb; simpl.
  - now exists b, clock.
  - unfold bind. destruct (Hf b a clock Hb) as (b1 & clock1 & -> & Hb1).
    now apply IH.
Qed.

(** *** When every request fails *)

Lemma objSet_allNull (results : Obj) (text : jsstring) :
  allNull results -> allNull (objSet results text VNull).
Proof.
  intros H. unfold objSet. destruct (str_eqb text (u "__proto__")).
  - exact H.
  - now apply (ownSet_values (fun v => v = VNull)).
Qed.

Lemma translateOne_fails (current : Service) (results : Obj)
    (text : jsstring) (clock : nat) :
  everyRequestFails ->
  exists clock',
    translateOne baiduBatchTranslate youdaoTranslate googleTranslate
      current results text clock
    = (Returned (objSet results text VNull), clock').
Proof.
  intros (Hb & Hy & Hg).
  unfold translateOne, translate, tryCatch, request, throw, ret.
  destruct current; unfold bind; rewrite ?Hb, ?Hy, ?Hg; eexists;
    reflexivity.
Qed.

Lemma translateBatch_fails (current : Service) (batch : list jsstring) :
  everyRequestFails ->
  forall results clock,
    allNull results ->
    exists results' clock',
      foldM (translateOne baiduBatchTranslate youdaoTranslate
               googleTranslate current) batch results clock
      = (Returned results', clock')
      /\ allNull results'.
Proof.
  intros Hfail. apply foldM_invariant. intros results text clock Hnull.
  destruct (translateOne_fails current results text clock Hfail)
    as (clock' & ->).
  exists (objSet results text VNull), clock'.
  split; [reflexivity | now apply objSet_allNull].
Qed.

Lemma batchTranslate_fails (current : Service) (texts : list jsstring)
    (clock : nat) :
  everyRequestFails ->
  exists results clock',
    batchTranslate baiduBatchTranslate youdaoTranslate googleTranslate
      current texts clock
    = (Returned results, clock')
    /\ allNull results.
Proof.
  intros Hfail. unfold batchTranslate.
  destruct current;
    apply (foldM_invariant allNull); try constructor;
    intros results batch clock0 Hnull;
    try (now apply translateBatch_fails).
  unfold tryCatch, bind, request.
  destruct Hfail as (Hb & Hrest). rewrite Hb.
  apply translateBatch_fails; [now split | exact Hnull].
Qed.

Lemma ownGet_In (k : jsstring) (v : Value) (o : Obj) :
  ownGet k o = Some v -> In (k, v) o.
Proof.
  induction o as [| [k' v'] o IH]; simpl; [discriminate |].
  destruct (str_eqb k k') eqn:E.
  - apply str_eqb_eq in E. intros [= <-]. left. now subst.
  - intros H. right. now apply IH.
Qed.

Lemma objGet_allNull (results : Obj) (text : jsstring) :
  allNull results -> containsChinese text = true ->
  truthy (objGet results text) = false.
Proof.
  intros Hnull Hch. unfold objGet.
  destruct (ownGet text results) as [v |] eqn:E.
  - apply ownGet_In in E. unfold allNull in Hnull.
    rewrite Forall_forall in Hnull. specialize (Hnull _ E). simpl in Hnull.
    now subst.
  - now rewrite (chinese_not_inherited text Hch).
Qed.

Lemma ownSet_new (k : jsstring) (v : Value) (o : Obj) :
  ~ In k (keys o) -> ownSet k v o = o ++ [(k, v)].
Proof.
  unfold keys. induction o as [| [k' v'] o IH]; simpl; [reflexivity |].
  intros H. destruct (str_eqb k k') eqn:E.
  - apply str_eqb_eq in E. subst. exfalso. apply H. now left.
  - rewrite IH; [reflexivity |]. intros Hin. apply H. now right.
Qed.

(** *** The theorem *)

(** A loop that stores [value text] under every phrase builds the object
    of the phrases, in their order. *)
Lemma foldM_keyed (value : jsstring -> Value)
    (f : Obj -> jsstring -> M Obj) (texts : list jsstring) :
  (forall mapping text clock,
      containsChinese text = true ->
      exists clock',
        f mapping text clock
        = (Returned (objSet mapping text (value text)), clock')) ->
  Forall (fun t => containsChinese t = true) texts ->
  forall mapping clock,
    NoDup (keys mapping ++ texts) ->
    exists clock',
      foldM f texts mapping clock
      = (Returned (mapping ++ map (fun t => (t, value t)) texts), clock').
Proof.
  intros Hf. induction 1 as [| text texts Hch Htexts IH];
    intros mapping clock Hnd; simpl.
  - exists clock. now rewrite app_nil_r.
  - unfold bind. destruct (Hf mapping text clock Hch) as (clock1 & ->).
    unfold objSet. rewrite (chinese_not_proto text Hch).
    assert (Hnew : ~ In text (keys mapping)).
    { apply NoDup_remove_2 in Hnd. intros Hin. apply Hnd.
      apply in_or_app. now left. }
    rewrite (ownSet_new text (value text) mapping Hnew).
    destruct (IH (mapping ++ [(text, value text)]) clock1)
      as (clock2 & ->).
    + unfold keys. rewrite map_app. simpl. now rewrite <- app_assoc.
    + exists clock2. now rewrite <- app_assoc.
Qed.

Lemma keys_of_map (value : jsstring -> Value) (texts : list jsstring) :
  keys (map (fun t => (t, value t)) texts) = texts.
Proof.
  unfold keys. rewrite map_map. simpl. apply map_id.
Qed.

Lemma values_of_map (P : Value -> Prop) (value : jsstring -> Value)
    (texts : list jsstring) :
  (forall t, P (value t)) ->
  Forall (fun kv => P (snd kv)) (map (fun t => (t, value t)) texts).
Proof.
  intros H. induction texts as [| t texts IH]; simpl; constructor.
  - apply H.
  - exact IH.
Qed.

Lemma chosenTranslation_truthy (results : Obj) (text : jsstring) :
  truthy (chosenTranslation results text) = true.
Proof.
  unfold Mapping.chosenTranslation.
  destruct (truthy (objGet results text)) eqn:E;
    [exact E | apply fallbackTranslation_truthy].
Qed.

Lemma fold_left_foldM (c : Value) (texts : list jsstring) :
  forall mapping clock,
    foldM (fun mapping text => ret (objSet mapping text c)) texts mapping
      clock
    = (Returned
         (fold_left (fun mapping text => objSet mapping text c) texts
            mapping),
       clock).
Proof.
  induction texts as [| text texts IH]; intros mapping clock; simpl.
  - reflexivity.
  - unfold bind, ret at 1. apply IH.
Qed.


End MappingProofs.

(* ================================================================== *)
(** ** Runs at the front of a text *)

Lemma dropWhile_app_all (p : Z -> bool) (a b : jsstring) :
  Forall (fun c => p c = true) a -> dropWhile p (a ++ b) = dropWhile p b.
Proof.
  induction 1 as [| c a Hc Ha IH]; simpl; [reflexivity |].
  now rewrite Hc.
Qed.

Lemma takeWhile_app_all (p : Z -> bool) (a b : jsstring) :
  Forall (fun c => p c = true) a ->
  takeWhile p (a ++ b) = a ++ takeWhile p b.
Proof.
  induction 1 as [| c a Hc Ha IH]; simpl; [reflexivity |].
  now rewrite Hc, IH.
Qed.

(** The run of [p] at the front of [t ++ x]: it ends inside [t], or [t] is
    all of it and it goes on in [x]. *)
Lemma dropWhile_app (p : Z -> bool) (t x : jsstring) :
  dropWhile p (t ++ x)
  = match dropWhile p t with
    | [] => dropWhile p x
    | c :: r => (c :: r) ++ x
    end.
Proof.
  induction t as [| c t IH]; simpl; [reflexivity |].
  destruct (p c); [exact IH | reflexivity].
Qed.

Lemma setAdd_In (x y : jsstring) (st : list jsstring) :
  In x (setAdd y st) <-> In x st \/ x = y.
Proof.
  unfold setAdd. destruct (existsb (str_eqb y) st) eqn:E.
  - split; [now left |]. intros [H | ->]; [exact H |].
    apply existsb_exists in E. destruct E as (z & Hz & E).
    apply str_eqb_eq in E. now subst.
  - rewrite in_app_iff. simpl. intuition.
Qed.

Lemma setOfList_In (x : jsstring) (xs : list jsstring) :
  In x (setOfList xs) <-> In x xs.
Proof.
  unfold setOfList.
  assert (H : forall st,
             In x (fold_left (fun st x => setAdd x st) xs st)
             <-> In x st \/ In x xs).
  { induction xs as [| y xs IH]; intros st; simpl.
    - tauto.
    - rewrite IH, setAdd_In. intuition. }
  rewrite H. simpl. tauto.
Qed.

(* ================================================================== *)
(** ** C10: the assignment expression of the line extractor *)

Lemma Gap_tail (c : Z) (t : jsstring) : Index.Gap (c :: t) -> Index.Gap t.
Proof.
  intros (t1 & t2 & E & H1 & H2). destruct t1 as [| c1 t1].
  - simpl in E. subst t2. inversion H2; subst.
    exists [], t. now repeat split.
  - injection E as -> ->. inversion H1; subst.
    exists t1, t2. now repeat split.
Qed.

Section Assignment.

Import Index.

Variables ident ws1 ws2 body post : jsstring.
Variable q : Z.

Hypothesis ident_word : Forall (fun c => isWord c = true) ident.
Hypothesis ident_not_empty : ident <> [].
Hypothesis ws1_space : Forall (fun c => isSpace c = true) ws1.
Hypothesis ws2_space : Forall (fun c => isSpace c = true) ws2.
Hypothesis q_quote : isQuote q = true.
Hypothesis body_chars : Forall (fun c => isEnumBodyChar c = true) body.
Hypothesis body_chinese : containsChinese body = true.

Local Abbreviation quoted := (Index.quoted ws2 body post q).
Local Abbreviation assignment :=
  (Index.assignment ident ws1 ws2 body post q).

Lemma assignment_text :
  assignmentText ident ws1 ws2 q body ++ post = assignment.
Proof.
  unfold assignmentText, assignment, quoted.
  repeat (rewrite <- ?app_assoc; simpl). reflexivity.
Qed.

Lemma quote_not_space : isSpace q = false.
Proof.
  apply inSet_spec in q_quote.
  destruct q_quote as [<- | [<- | [<- | []]]]; reflexivity.
Qed.

Lemma quote_not_body : isEnumBodyChar q = false.
Proof.
  apply inSet_spec in q_quote.
  destruct q_quote as [<- | [<- | [<- | []]]]; reflexivity.
Qed.

Lemma matchEnumQuoted_quoted : matchEnumQuoted quoted = Some (body, post).
Proof.
  unfold matchEnumQuoted, quoted.
  rewrite (dropWhile_app_all isSpace ws2) by exact ws2_space.
  simpl. rewrite quote_not_space, q_quote.
  rewrite (takeWhile_app_all isEnumBodyChar body) by exact body_chars.
  rewrite (dropWhile_app_all isEnumBodyChar body) by exact body_chars.
  simpl. rewrite quote_not_body, app_nil_r, Z.eqb_refl, body_chinese.
  reflexivity.
Qed.

Lemma word_not_equals (c : Z) : isWord c = true -> (c =? 0x3D) = false.
Proof. intros H. apply Z.eqb_neq. intros ->. discriminate. Qed.

Lemma word_not_space (c : Z) : isWord c = true -> isSpace c = false.
Proof.
  unfold isWord, isLatinLetter, isDigit, isSpace.
  rewrite !orb_true_iff, !inRange_spec, Z.eqb_eq. intros H.
  repeat rewrite orb_false_iff. rewrite !inRange_false, !Z.eqb_neq. lia.
Qed.

Lemma word_not_quote (c : Z) : isWord c = true -> isQuote c = false.
Proof.
  intros H. destruct (isQuote c) eqn:E; [exfalso | reflexivity].
  apply inSet_spec in E.
  destruct E as [<- | [<- | [<- | []]]]; discriminate.
Qed.

Lemma space_not_word (c : Z) : isSpace c = true -> isWord c = false.
Proof.
  intros H. destruct (isWord c) eqn:E; [| reflexivity].
  apply word_not_space in E. congruence.
Qed.

Lemma assignment_head :
  exists c rest, assignment = c :: rest /\ isWord c = true.
Proof.
  unfold assignment. destruct ident_word as [| c w Hc _]; [congruence |].
  now exists c, (w ++ ws1 ++ 0x3D :: quoted).
Qed.

(** After the identifier: the white space and the equals sign. *)
Lemma dropWhile_word_assignment :
  dropWhile isWord assignment = ws1 ++ 0x3D :: quoted.
Proof.
  unfold assignment.
  rewrite (dropWhile_app_all isWord ident) by exact ident_word.
  apply dropWhile_id. destruct ws1_space as [| c ws Hc _]; simpl.
  - reflexivity.
  - now apply space_not_word.
Qed.

Lemma dropWhile_space_tail :
  dropWhile isSpace (ws1 ++ 0x3D :: quoted) = 0x3D :: quoted.
Proof.
  now rewrite (dropWhile_app_all isSpace ws1) by exact ws1_space.
Qed.

Lemma dropWhile_space_assignment :
  dropWhile isSpace assignment = assignment.
Proof.
  apply dropWhile_id. destruct assignment_head as (c & rest & -> & Hc).
  simpl. now apply word_not_space.
Qed.

Lemma matchEnumValue_afterRuns (s : jsstring) :
  matchEnumValue s
  = if firstIs isWord s
    then afterRuns (dropWhile isSpace (dropWhile isWord s))
    else None.
Proof. reflexivity. Qed.

(** At the identifier the expression matches and captures the body. *)
Lemma matchEnumValue_assignment :
  matchEnumValue assignment = Some (body, post).
Proof.
  rewrite matchEnumValue_afterRuns.
  destruct assignment_head as (c & rest & E & Hc).
  rewrite dropWhile_word_assignment, dropWhile_space_tail.
  rewrite E. simpl. rewrite Hc. apply matchEnumQuoted_quoted.
Qed.

(** No quote follows an equals sign of [r]: the part after the equals sign
    does not match. *)
Lemma matchEnumQuoted_no_quote (r : jsstring) :
  Forall (fun c => isQuote c = false) r ->
  matchEnumQuoted (r ++ assignment) = None.
Proof.
  intros Hr. unfold matchEnumQuoted. rewrite (dropWhile_app isSpace r).
  pose proof (dropWhile_Forall _ isSpace r Hr) as Hd.
  destruct (dropWhile isSpace r) as [| c r'].
  - rewrite dropWhile_space_assignment.
    destruct assignment_head as (a & rest & -> & Ha).
    now rewrite (word_not_quote a Ha).
  - inversion Hd as [| ? ? Hc _]; subst. simpl. now rewrite Hc.
Qed.

Lemma afterRuns_no_quote (r : jsstring) :
  Forall (fun c => isQuote c = false) r ->
  afterRuns (dropWhile isSpace (r ++ assignment)) = None.
Proof.
  intros Hr. rewrite (dropWhile_app isSpace r).
  pose proof (dropWhile_Forall _ isSpace r Hr) as Hd.
  destruct (dropWhile isSpace r) as [| c r'].
  - rewrite dropWhile_space_assignment.
    destruct assignment_head as (a & rest & -> & Ha).
    simpl. now rewrite (word_not_equals a Ha).
  - inversion Hd as [| ? ? Hc Hr']; subst. simpl.
    destruct (c =? 0x3D); [| reflexivity].
    now apply matchEnumQuoted_no_quote.
Qed.

Lemma afterRuns_no_equals (r t2 : jsstring) :
  Forall (fun c => c <> 0x3D) r ->
  Forall (fun c => isQuote c = false) t2 ->
  afterRuns (dropWhile isSpace (r ++ t2 ++ assignment)) = None.
Proof.
  intros Hr Ht2. rewrite (dropWhile_app isSpace r).
  pose proof (dropWhile_Forall _ isSpace r Hr) as Hd.
  destruct (dropWhile isSpace r) as [| c r'].
  - now apply afterRuns_no_quote.
  - inversion Hd as [| ? ? Hc _]; subst. simpl.
    apply Z.eqb_neq in Hc. now rewrite Hc.
Qed.

(** At a position of a gap before the identifier the expression has no
    match, or the match of the assignment: a match needs an equals sign
    and a quote after it, and the first such pair is the one of the
    assignment. *)
Lemma matchEnumValue_gap (t : jsstring) :
  Gap t ->
  matchEnumValue (t ++ assignment) = None
  \/ matchEnumValue (t ++ assignment) = Some (body, post).
Proof.
  intros (t1 & t2 & -> & H1 & H2). rewrite <- app_assoc.
  rewrite matchEnumValue_afterRuns.
  destruct (firstIs isWord (t1 ++ t2 ++ assignment)); [| now left].
  rewrite (dropWhile_app isWord t1).
  pose proof (dropWhile_Forall _ isWord t1 H1) as Hd1.
  destruct (dropWhile isWord t1) as [| c r].
  - rewrite (dropWhile_app isWord t2).
    pose proof (dropWhile_Forall _ isWord t2 H2) as Hd2.
    destruct (dropWhile isWord t2) as [| c r].
    + right. rewrite dropWhile_word_assignment, dropWhile_space_tail.
      simpl. apply matchEnumQuoted_quoted.
    + left. now apply afterRuns_no_quote.
  - left. now apply afterRuns_no_equals.
Qed.

Lemma assignment_length :
  (List.length post + 4 < List.length assignment)%nat.
Proof.
  unfold assignment, quoted. repeat (rewrite ?length_app; simpl).
  destruct ident; [congruence |].
  destruct body; [discriminate |]. simpl. lia.
Qed.

(** The loop over the matches passes a gap and finds the assignment. *)
Lemma execAllGo_gap (fuel : nat) :
  forall t,
    Gap t ->
    (List.length t < fuel)%nat ->
    exists fuel',
      (fuel <= fuel' + List.length t + 1)%nat
      /\ execAllGo matchEnumValue fuel (t ++ assignment)
         = body :: execAllGo matchEnumValue fuel' post.
Proof.
  induction fuel as [| fuel IH]; intros t Ht Hlen; [lia |].
  cbn [execAllGo]. destruct t as [| c t].
  - simpl. rewrite matchEnumValue_assignment.
    exists fuel. split; [simpl; lia | reflexivity].
  - destruct (matchEnumValue_gap (c :: t) Ht) as [-> | ->].
    + simpl. simpl in Hlen.
      destruct (IH t (Gap_tail c t Ht)) as (fuel' & Hf & E); [lia |].
      exists fuel'. split; [lia | exact E].
    + exists fuel. split; [simpl; lia | reflexivity].
Qed.

End Assignment.

Lemma execAllGo_before (pre : jsstring) :
  Index.Before pre ->
  forall a body post fuel,
    Index.Assignment a body ->
    (List.length (pre ++ a ++ post) < fuel)%nat ->
    In body (execAllGo Index.matchEnumValue fuel (pre ++ a ++ post)).
Proof.
  induction 1 as [t Ht | t a1 b1 rest Ht Ha1 Hrest IH];
    intros a body post fuel Ha Hlen.
  - destruct Ha as [ident ws1 ws2 q body H1 H2 H3 H4 H5 H6 H7].
    rewrite (assignment_text ident ws1 ws2 body post q).
    destruct (execAllGo_gap ident ws1 ws2 body post q H1 H2 H3 H4 H5 H6 H7
                fuel t Ht) as (fuel' & _ & ->).
    + rewrite length_app in Hlen. lia.
    + now left.
  - rewrite <- !app_assoc.
    destruct Ha1 as [ident ws1 ws2 q b1 H1 H2 H3 H4 H5 H6 H7].
    rewrite <- !app_assoc in Hlen.
    rewrite (assignment_text ident ws1 ws2 b1 (rest ++ a ++ post) q) in *.
    pose proof (assignment_length ident ws1 ws2 b1 (rest ++ a ++ post) q
                  H1 H2 H6 H7) as Hal.
    rewrite length_app in Hlen.
    destruct (execAllGo_gap ident ws1 ws2 b1 (rest ++ a ++ post) q
                H1 H2 H3 H4 H5 H6 H7 fuel t Ht) as (fuel' & Hf & ->);
      [lia |].
    right. apply IH; [exact Ha | lia].
Qed.

(** The assignment is reached by the loop, and its segments are in the
    result. *)
Lemma assignment_after_before (pre a body post segment : jsstring) :
  Index.Before pre ->
  Index.Assignment a body ->
  In segment (Index.validSegments body) ->
  In segment (Index.extractChineseFromContent (pre ++ a ++ post)).
Proof.
  intros Hpre Ha Hseg. unfold Index.extractChineseFromContent.
  apply setOfList_In, in_or_app. left.
  unfold Index.enumValueTexts. apply in_flat_map. exists body.
  split; [| exact Hseg].
  unfold execAll. apply execAllGo_before; [exact Hpre | exact Ha | lia].
Qed.

Lemma matchEnumValue_at_assignment (a body post : jsstring) :
  Index.Assignment a body ->
  Index.matchEnumValue (a ++ post) = Some (body, post).
Proof.
  intros [ident ws1 ws2 q b H1 H2 H3 H4 H5 H6 H7].
  rewrite (assignment_text ident ws1 ws2 b post q).
  now apply matchEnumValue_assignment.
Qed.

Lemma enum_match_in_result (content body segment : jsstring) :
  In body (execAll Index.matchEnumValue content) ->
  In segment (Index.validSegments body) ->
  In segment (Index.extractChineseFromContent content).
Proof.
  intros Hbody Hseg. unfold Index.extractChineseFromContent.
  apply setOfList_In, in_or_app. left.
  unfold Index.enumValueTexts. apply in_flat_map. now exists body.
Qed.



(** The same step on a default parameter value. *)
Example default_parameter_is_captured :
  Index.extractChineseFromContent (u "function f(a = '默认值') {}")
  = [u "默认值"].
Proof. vm_compute. reflexivity. Qed.

(* ================================================================== *)
(** ** C5: templates with interpolations *)

Lemma templateText_cons (head e literal : jsstring)
    (spans : list (jsstring * jsstring)) :
  Index.templateText head ((e, literal) :: spans)
  = head ++ Index.interpolation e ++ Index.templateText literal spans.
Proof.
  unfold Index.templateText. simpl. now rewrite <- !app_assoc.
Qed.

Lemma noMarker_tail (c : Z) (literal : jsstring) :
  Index.noMarker (c :: literal) ->
  Index.matchDollarBrace (c :: literal) = false /\ Index.noMarker literal.
Proof.
  unfold Index.noMarker. cbn [anywhere]. intros H.
  now apply orb_false_iff in H.
Qed.

Lemma matchInterpolation_at (e rest : jsstring) :
  Forall (fun c => c <> 0x7D) e ->
  Index.matchInterpolation (Index.interpolation e ++ rest) = Some rest.
Proof.
  intros He. unfold Index.interpolation, Index.matchInterpolation. simpl.
  rewrite <- app_assoc.
  rewrite (dropWhile_app_all (fun x => negb (x =? 0x7D)) e).
  - reflexivity.
  - eapply Forall_impl; [| exact He]. intros c Hc.
    apply Z.eqb_neq in Hc. now rewrite Hc.
Qed.

(** Inside a literal text the separator does not match. *)
Lemma matchInterpolation_literal (c : Z) (literal rest : jsstring) :
  Index.noMarker (c :: literal) ->
  rest = [] \/ (exists r, rest = 0x24 :: r) ->
  Index.matchInterpolation (c :: literal ++ rest) = None.
Proof.
  intros Hm Hrest. apply noMarker_tail in Hm. destruct Hm as [Hm _].
  unfold Index.matchInterpolation.
  destruct literal as [| d literal]; simpl.
  - destruct Hrest as [-> | (r & ->)]; [reflexivity |].
    now rewrite andb_false_r.
  - simpl in Hm. now rewrite Hm.
Qed.

Lemma splitGo_literal (literal : jsstring) :
  forall rest acc fuel,
    Index.noMarker literal ->
    rest = [] \/ (exists r, rest = 0x24 :: r) ->
    (List.length (literal ++ rest) <= fuel)%nat ->
    exists fuel',
      (fuel <= fuel' + List.length literal)%nat
      /\ splitGo Index.matchInterpolation fuel (literal ++ rest) acc
         = splitGo Index.matchInterpolation fuel' rest (rev literal ++ acc).
Proof.
  induction literal as [| c literal IH]; intros rest acc fuel Hm Hrest Hlen.
  - exists fuel. split; [simpl; lia | reflexivity].
  - destruct fuel as [| fuel]; [simpl in Hlen; lia |].
    simpl app. cbn [splitGo].
    rewrite (matchInterpolation_literal c literal rest Hm Hrest).
    destruct (noMarker_tail c literal Hm) as [_ Hm'].
    destruct (IH rest (c :: acc) fuel Hm' Hrest) as (fuel' & Hf & ->).
    + simpl in Hlen. lia.
    + exists fuel'. split; [simpl; lia |].
      simpl. now rewrite <- app_assoc.
Qed.

(** The split of a template is its literal texts. *)
Lemma splitGo_template (spans : list (jsstring * jsstring)) :
  forall head fuel,
    Index.noMarker head ->
    Forall Index.plainSpan spans ->
    (List.length (Index.templateText head spans) <= fuel)%nat ->
    splitGo Index.matchInterpolation fuel (Index.templateText head spans) []
    = head :: map snd spans.
Proof.
  induction spans as [| [e literal] spans IH]; intros head fuel Hm Hs Hlen.
  - unfold Index.templateText in *. simpl in *.
    destruct (splitGo_literal head [] [] fuel Hm) as (fuel' & _ & ->);
      [now left | exact Hlen |].
    rewrite app_nil_r.
    destruct fuel'; simpl; now rewrite ?app_nil_r, rev_involutive.
  - inversion Hs as [| ? ? [He Hl] Hs']; subst. simpl in He, Hl.
    rewrite templateText_cons in *.
    destruct (splitGo_literal head
                (Index.interpolation e ++ Index.templateText literal spans) [] fuel Hm)
      as (fuel' & Hf & ->);
      [right; now eexists | exact Hlen |].
    rewrite app_nil_r.
    rewrite !length_app in Hlen. unfold Index.interpolation in Hlen, Hf.
    simpl in Hlen. rewrite length_app in Hlen. simpl in Hlen.
    destruct fuel' as [| fuel']; [lia |].
    remember (Index.interpolation e ++ Index.templateText literal spans) as rest
      eqn:Erest.
    assert (Hcons : exists r, rest = 0x24 :: r)
      by (subst rest; unfold Index.interpolation; now eexists).
    destruct Hcons as (r & Er). cbn [splitGo]. rewrite Er, <- Er.
    rewrite Erest, (matchInterpolation_at e _ He).
    rewrite rev_involutive. simpl map. f_equal.
    apply IH; [exact Hl | exact Hs' | lia].
Qed.

Lemma anywhere_app (m : jsstring -> bool) (a b : jsstring) :
  m b = true -> anywhere m (a ++ b) = true.
Proof.
  intros Hb. induction a as [| c a IH]; simpl.
  - destruct b; simpl; now rewrite Hb.
  - rewrite IH. apply orb_true_r.
Qed.



(** The phrases of the template of the specification. *)
Example template_example :
  Index.extractFromTemplate (u "用户【${a}】已在分支【${b}】中存在")
  = [u "用户"; u "已在分支"; u "中存在"].
Proof. vm_compute. reflexivity. Qed.

(** The template handler of the tree walker adds the segments of the head
    and of the literal of every span; it does not look at the
    expressions. *)
Lemma handleTemplateExpression_literals (head : jsstring)
    (spans : list (Node * jsstring)) (st : list jsstring) :
  ASTChineseExtractor.handleTemplateExpression head
    (map (fun span => TemplateSpan (fst span) (snd span)) spans) st
  = fold_left (fun acc literal => ASTChineseExtractor.addSegments literal acc)
      (head :: map snd spans) st.
Proof.
  unfold ASTChineseExtractor.handleTemplateExpression. simpl.
  generalize (ASTChineseExtractor.addSegments head st) as st0.
  induction spans as [| [e literal] spans IH]; intros st0; simpl.
  - reflexivity.
  - apply IH.
Qed.


(* ================================================================== *)
(** ** Runs on concrete input *)


(** With the service down the dictionary and the placeholder fill the
    mapping; three requests were made. *)
Example generateMapping_service_down :
  Mapping.generateMapping toLowerBasicLatin batchServiceDown textServiceDown
    textServiceDown [u "提交"; u "你好"] (u "baidu") true 0%nat
  = (Mapping.Returned
       [(u "提交", Mapping.VString (u "Submit"));
        (u "你好", Mapping.VString (u "translate_xx"))],
     3%nat).
Proof. vm_compute. reflexivity. Qed.

(** A batch answer that is too short leaves the other phrases to the
    fallback. *)
Example generateMapping_short_answer :
  Mapping.generateMapping toLowerBasicLatin batchServiceShort textServiceDown
    textServiceDown [u "你好"; u "提交"] (u "baidu") true 0%nat
  = (Mapping.Returned
       [(u "你好", Mapping.VString (u "First"));
        (u "提交", Mapping.VString (u "Submit"))],
     1%nat).
Proof. vm_compute. reflexivity. Qed.

(** A later, longer variant of a phrase takes the place of the stored one;
    a shorter one with a lower score does not. *)
Example deduplicateTexts_example :
  Dedup.deduplicateTexts toLowerBasicLatin
    [u "保存成功"; u "操作完成"; u "保存成功。"; u "操作 完成"; u "保存成功"]
  = [u "保存成功。"; u "操作完成"; u "操作 完成"].
Proof. vm_compute. reflexivity. Qed.

(** The phrase of the specification with a symbol in front. *)
Example emoji_stripped :
  cleanChineseText (u "✅ 操作成功") = [u "操作成功"].
Proof. vm_compute. reflexivity. Qed.

(* ================================================================== *)
(** * Further properties of the code *)

(** ** The phrases of the cleaner and the classifiers *)

Lemma anywhere_false (m : jsstring -> bool) (P : Z -> Prop) (s : jsstring) :
  m [] = false ->
  (forall c rest, P c -> m (c :: rest) = false) ->
  Forall P s -> anywhere m s = false.
Proof.
  intros H0 H1. induction 1 as [| c rest Hc Hrest IH]; simpl.
  - now rewrite H0.
  - now rewrite (H1 c rest Hc), IH.
Qed.

Lemma nonAscii_not_word (c : Z) : isAscii c = false -> isWord c = false.
Proof.
  intros H. apply inRange_false in H.
  unfold isWord, isLatinLetter, isDigit.
  repeat rewrite orb_false_iff. rewrite !inRange_false.
  repeat split; try lia; apply Z.eqb_neq; lia.
Qed.

Lemma nonAscii_not_letter (c : Z) :
  isAscii c = false -> isLatinLetter c = false.
Proof.
  intros H. apply nonAscii_not_word in H. unfold isWord in H.
  apply orb_false_iff in H. destruct H as [H _].
  apply orb_false_iff in H. now destruct H as [H _].
Qed.

Lemma nonAscii_not_bracket (c : Z) :
  isAscii c = false -> isCodeBracket c = false.
Proof.
  intros H. apply inRange_false in H.
  destruct (isCodeBracket c) eqn:E; [exfalso | reflexivity].
  apply inSet_spec in E. revert E. not_in_list.
Qed.

Lemma nonAscii_asciiLower (c : Z) : isAscii c = false -> asciiLower c = c.
Proof.
  intros H. apply inRange_false in H. unfold asciiLower.
  destruct (inRange 65 90 c) eqn:E; [| reflexivity].
  apply inRange_spec in E. lia.
Qed.

Lemma startsWithIgnoreCase_nonAscii (kw : jsstring) (c : Z)
    (rest : jsstring) :
  firstIs isAscii kw = true -> isAscii c = false ->
  startsWithIgnoreCase kw (c :: rest) = false.
Proof.
  destruct kw as [| a kw]; [discriminate |]. simpl. intros Ha Hc.
  rewrite (nonAscii_asciiLower c Hc).
  assert (E : (a =? c) = false).
  { apply Z.eqb_neq. intros ->. congruence. }
  now rewrite E.
Qed.

Lemma matchKeyword_nonAscii (c : Z) (rest : jsstring) :
  isAscii c = false -> matchKeyword (c :: rest) = false.
Proof.
  intros H. unfold matchKeyword.
  apply not_true_is_false. intros E.
  apply existsb_exists in E. destruct E as (kw & Hkw & E).
  rewrite startsWithIgnoreCase_nonAscii in E; [discriminate | | exact H].
  unfold keywords in Hkw. simpl in Hkw.
  repeat (destruct Hkw as [<- | Hkw]; [reflexivity |]). destruct Hkw.
Qed.

Lemma looksLikeCode_nonAscii (p : jsstring) :
  Forall (fun c => isAscii c = false) p -> looksLikeCode p = false.
Proof.
  intros H. unfold looksLikeCode.
  assert (H1 : existsb isCodeBracket p = false).
  { apply existsb_false_Forall. eapply Forall_impl; [| exact H].
    apply nonAscii_not_bracket. }
  assert (H2 : anywhere matchEscape p = false).
  { apply (anywhere_false _ (fun c => isAscii c = false)); auto.
    intros c rest Hc. unfold matchEscape.
    destruct (Z.eq_dec c 0x5C) as [-> | N]; [discriminate |].
    destruct c as [| q | q]; try reflexivity.
    do 7 (try (destruct q as [q | q |]; try reflexivity; try congruence)). }
  assert (H3 : startsWithComment p = false).
  { unfold startsWithComment.
    pose proof (dropWhile_Forall _ isSpace p H) as Hd.
    destruct Hd as [| c rest Hc _]; [reflexivity |].
    destruct (Z.eq_dec c 0x2F) as [-> | N]; [discriminate |].
    destruct c as [| q | q]; try reflexivity.
    do 7 (try (destruct q as [q | q |]; try reflexivity; try congruence)). }
  assert (H4 : anywhere matchKeyword p = false).
  { apply (anywhere_false _ (fun c => isAscii c = false)); auto.
    intros c rest Hc. now apply matchKeyword_nonAscii. }
  assert (H5 : anywhere matchPropertyDefinition p = false).
  { apply (anywhere_false _ (fun c => isAscii c = false)); auto.
    intros c rest Hc. unfold matchPropertyDefinition. simpl.
    now rewrite (nonAscii_not_word c Hc). }
  now rewrite H1, H2, H3, H4, H5.
Qed.

Lemma chinese_not_numberLike (c : Z) :
  isChinese c = true -> isNumberLike c = false.
Proof.
  intros H. apply isChinese_spec in H.
  unfold isNumberLike, isDigit, isSpace.
  repeat rewrite orb_false_iff. rewrite !inRange_false.
  repeat split; try lia; try (apply Z.eqb_neq; lia).
  destruct (inSet _ c) eqn:E; [exfalso | reflexivity].
  apply inSet_spec in E. revert E. not_in_list.
Qed.

Lemma chinese_not_space (c : Z) : isChinese c = true -> isSpace c = false.
Proof.
  intros H. apply chinese_not_numberLike in H. unfold isNumberLike in H.
  apply orb_false_iff in H. destruct H as [H _].
  apply orb_false_iff in H. now destruct H.
Qed.

(** No character of the range of [isChinese] has the general category P. *)
Lemma chinese_not_punctuation (c : Z) :
  isChinese c = true -> isUnicodePunctuation c = false.
Proof.
  intros H. apply isChinese_spec in H.
  assert (T : forallb (fun r => (snd r <? 0x4e00) || (0x9fff <? fst r))
                punctuationRanges = true) by (vm_compute; reflexivity).
  rewrite forallb_forall in T.
  unfold isUnicodePunctuation. apply not_true_is_false. intros E.
  apply existsb_exists in E. destruct E as (r & Hr & E).
  apply inRange_spec in E. specialize (T r Hr).
  apply orb_true_iff in T. rewrite !Z.ltb_lt in T. lia.
Qed.

Lemma chinese_not_surrogate (c : Z) :
  isChinese c = true -> isHighSurrogate c = false.
Proof.
  intros H. apply isChinese_spec in H. unfold isHighSurrogate.
  apply andb_false_iff. rewrite !Z.leb_gt. lia.
Qed.

(** A Chinese character of a string is one of its code points. *)
Lemma codePoints_chinese (s : jsstring) :
  containsChinese s = true -> existsb isChinese (codePoints s) = true.
Proof.
  unfold containsChinese.
  induction s as [| c | c d rest IH1 IH2] using list_ind2; intros H.
  - discriminate.
  - simpl in *. exact H.
  - cbn [codePoints].
    destruct (isHighSurrogate c && isLowSurrogate d) eqn:Hpair.
    + apply andb_true_iff in Hpair. destruct Hpair as [Hc Hd].
      cbn [existsb] in H.
      destruct (isChinese c) eqn:Ec.
      { apply chinese_not_surrogate in Ec. congruence. }
      destruct (isChinese d) eqn:Ed.
      { apply isChinese_spec in Ed. unfold isLowSurrogate in Hd.
        apply andb_true_iff in Hd. rewrite !Z.leb_le in Hd. lia. }
      simpl in H. cbn [existsb]. rewrite (IH1 H). apply orb_true_r.
    + cbn [existsb] in *. destruct (isChinese c); [reflexivity |].
      simpl in *. now apply IH2.
Qed.

Lemma onlyPunctuation_chinese (s : jsstring) :
  containsChinese s = true -> onlyPunctuation s = false.
Proof.
  intros H. apply codePoints_chinese in H.
  apply existsb_exists in H. destruct H as (c & Hc & E).
  unfold onlyPunctuation. apply andb_false_iff. right.
  apply not_true_is_false. intros F. rewrite forallb_forall in F.
  specialize (F c Hc).
  now rewrite (chinese_not_space c E), (chinese_not_punctuation c E) in F.
Qed.

Lemma onlyNumbers_chinese (s : jsstring) :
  containsChinese s = true -> onlyNumbers s = false.
Proof.
  intros H. apply existsb_exists in H. destruct H as (c & Hc & E).
  unfold onlyNumbers. apply andb_false_iff. right.
  apply not_true_is_false. intros F. rewrite forallb_forall in F.
  specialize (F c Hc). now rewrite (chinese_not_numberLike c E) in F.
Qed.

Lemma englishCount_nonAscii (p : jsstring) :
  Forall (fun c => isAscii c = false) p -> englishCount p = 0.
Proof.
  intros H. unfold englishCount.
  replace (filter isLatinLetter p) with (@nil Z); [reflexivity |].
  symmetry. induction H as [| c rest Hc _ IH]; simpl; [reflexivity |].
  now rewrite (nonAscii_not_letter c Hc).
Qed.

Lemma isCleanPhrase_ascii (p : jsstring) :
  isCleanPhrase p -> Forall (fun c => isAscii c = false) p.
Proof.
  intros (_ & _ & _ & H). eapply Forall_impl; [| exact H].
  intros c Hc. apply Hc.
Qed.

Lemma isCleanPhrase_space (p : jsstring) :
  isCleanPhrase p -> Forall (fun c => isSpace c = false) p.
Proof.
  intros (_ & _ & _ & H). eapply Forall_impl; [| exact H].
  intros c Hc. apply Hc.
Qed.

Lemma isCleanPhrase_valid (p : jsstring) :
  isCleanPhrase p ->
  ASTChineseExtractor.isValidChineseText p = true
  /\ Index.isValidChineseText p = true.
Proof.
  intros Hp.
  pose proof (isCleanPhrase_ascii p Hp) as Hascii.
  pose proof (isCleanPhrase_space p Hp) as Hspace.
  destruct Hp as (Hne & Hlen & Hch & _).
  assert (Hempty : isEmpty p = false) by (destruct p; [congruence | easy]).
  assert (H20 : (20 <? strlen p) = false) by (apply Z.ltb_ge; lia).
  assert (H50 : (50 <? strlen p) = false) by (apply Z.ltb_ge; lia).
  assert (Hcount : (chineseCount p <? englishCount p) = false).
  { rewrite (englishCount_nonAscii p Hascii). apply Z.ltb_ge.
    unfold chineseCount, strlen. lia. }
  unfold ASTChineseExtractor.isValidChineseText, Index.isValidChineseText.
  rewrite (trim_id p Hspace), Hempty, Hch, H20, H50,
    (looksLikeCode_nonAscii p Hascii), (onlyNumbers_chinese p Hch),
    (onlyPunctuation_chinese p Hch), Hcount.
  split; reflexivity.
Qed.

(** X1.  Every phrase that [cleanChineseText] returns has between 1 and 20 code
    units, holds a Chinese character, and holds no ASCII character, no white
    space and no mark of the punctuation class. *)
Theorem cleanChineseText_phrase_shape (text p : jsstring) :
  In p (cleanChineseText text) ->
  1 <= strlen p <= 20
  /\ containsChinese p = true
  /\ existsb isAscii p = false
  /\ existsb isSpace p = false
  /\ existsb isChinesePunctuation p = false.
Proof.
  intros H. apply cleanChineseText_phrases in H.
  pose proof (isCleanPhrase_ascii p H) as Hascii.
  pose proof (isCleanPhrase_space p H) as Hspace.
  destruct H as (Hne & Hlen & Hch & Hchars).
  repeat split; try assumption.
  - unfold strlen. destruct p; [congruence | simpl; lia].
  - now apply existsb_false_Forall.
  - now apply existsb_false_Forall.
  - apply existsb_false_Forall. eapply Forall_impl; [| exact Hchars].
    intros c Hc. apply Hc.
Qed.

Lemma cleanChineseText_phrase_shape_witness :
  In (u "操作成功") (cleanChineseText (u "✅ 操作成功！"))
  /\ 1 <= strlen (u "操作成功") <= 20
  /\ containsChinese (u "操作成功") = true
  /\ existsb isAscii (u "操作成功") = false
  /\ existsb isSpace (u "操作成功") = false
  /\ existsb isChinesePunctuation (u "操作成功") = false.
Proof.
  assert (H : In (u "操作成功") (cleanChineseText (u "✅ 操作成功！")))
    by (vm_compute; left; reflexivity).
  split; [exact H |].
  exact (cleanChineseText_phrase_shape (u "✅ 操作成功！") (u "操作成功") H).
Defined.

(** X2.  The classifiers accept every phrase of the cleaner: the test that
    follows [cleanChineseText] in every handler and in every loop of the
    line extractor never rejects a segment. *)
Theorem cleaned_phrases_are_valid (text p : jsstring) :
  In p (cleanChineseText text) ->
  ASTChineseExtractor.isValidChineseText p = true
  /\ Index.isValidChineseText p = true.
Proof.
  intros H. apply isCleanPhrase_valid. exact (cleanChineseText_phrases text p H).
Qed.

Lemma cleaned_phrases_are_valid_witness :
  ASTChineseExtractor.isValidChineseText (u "世界") = true
  /\ Index.isValidChineseText (u "世界") = true.
Proof.
  apply (cleaned_phrases_are_valid (u "你好，世界") (u "世界")).
  vm_compute. right. left. reflexivity.
Defined.

(** X3.  The classifier of the tree walker is the stricter of the two: what it
    accepts, the classifier of src/index.js accepts too. *)
Theorem walker_classifier_is_stricter (text : jsstring) :
  ASTChineseExtractor.isValidChineseText text = true ->
  Index.isValidChineseText text = true.
Proof.
  unfold ASTChineseExtractor.isValidChineseText, Index.isValidChineseText.
  destruct (isEmpty text); [discriminate |]. simpl.
  destruct (containsChinese text); [| discriminate]. simpl.
  destruct (isEmpty (trim text)); [discriminate |]. simpl.
  destruct (20 <? strlen text) eqn:E20; [discriminate |].
  assert (E50 : (50 <? strlen text) = false).
  { apply Z.ltb_ge. apply Z.ltb_ge in E20. lia. }
  rewrite E50.
  destruct (looksLikeCode text); [discriminate |].
  destruct (onlyNumbers text); [discriminate |].
  destruct (onlyPunctuation text); [discriminate |]. reflexivity.
Qed.

Lemma walker_classifier_is_stricter_witness :
  Index.isValidChineseText (u "你好，世界") = true.
Proof.
  apply (walker_classifier_is_stricter (u "你好，世界")).
  vm_compute. reflexivity.
Defined.

(** *** A phrase is the text with characters deleted *)

Lemma Subsequence_refl (s : jsstring) : Subsequence s s.
Proof. induction s; constructor; assumption. Qed.

Lemma Subsequence_nil_l (t : jsstring) : Subsequence [] t.
Proof. induction t; constructor; assumption. Qed.

Lemma Subsequence_trans (a b c : jsstring) :
  Subsequence a b -> Subsequence b c -> Subsequence a c.
Proof.
  intros Hab Hbc. revert a Hab.
  induction Hbc as [| x b c Hbc IH | x b c Hbc IH]; intros a Hab.
  - exact Hab.
  - constructor. now apply IH.
  - inversion Hab as [| ? ? ? Hskip | ? a' ? Hkeep]; subst.
    + apply Subsequence_skip. now apply IH.
    + apply Subsequence_keep. now apply IH.
Qed.

Lemma Subsequence_app (a b c d : jsstring) :
  Subsequence a b -> Subsequence c d -> Subsequence (a ++ c) (b ++ d).
Proof.
  intros Hab Hcd. induction Hab as [| x a b Hab IH | x a b Hab IH]; simpl.
  - exact Hcd.
  - now apply Subsequence_skip.
  - now apply Subsequence_keep.
Qed.

Lemma Subsequence_middle (pre x post : jsstring) :
  Subsequence x (pre ++ x ++ post).
Proof.
  induction pre as [| c pre IH]; simpl.
  - induction x as [| c x IH]; simpl;
      [apply Subsequence_nil_l | now apply Subsequence_keep].
  - now apply Subsequence_skip.
Qed.

Lemma Subsequence_filter (q : Z -> bool) (s : jsstring) :
  Subsequence (filter q s) s.
Proof.
  induction s as [| c s IH]; simpl; [constructor |].
  destruct (q c); constructor; exact IH.
Qed.

Lemma Subsequence_dropWhile (q : Z -> bool) (s : jsstring) :
  Subsequence (dropWhile q s) s.
Proof.
  induction s as [| c s IH]; simpl; [constructor |].
  destruct (q c); [now constructor | apply Subsequence_refl].
Qed.

Lemma Subsequence_rev (s t : jsstring) :
  Subsequence s t -> Subsequence (rev s) (rev t).
Proof.
  induction 1; simpl.
  - constructor.
  - rewrite <- (app_nil_r (rev s)).
    apply Subsequence_app; [assumption | apply Subsequence_nil_l].
  - apply Subsequence_app; [assumption | apply Subsequence_refl].
Qed.

Lemma Subsequence_dropWhileEnd (q : Z -> bool) (s : jsstring) :
  Subsequence (dropWhileEnd q s) s.
Proof.
  unfold dropWhileEnd. rewrite <- (rev_involutive s) at 2.
  apply Subsequence_rev, Subsequence_dropWhile.
Qed.

Lemma Subsequence_trim (s : jsstring) : Subsequence (trim s) s.
Proof.
  unfold trim.
  eapply Subsequence_trans;
    [apply Subsequence_dropWhileEnd | apply Subsequence_dropWhile].
Qed.

(** The text without its white space. *)
Lemma Subsequence_filter_mono (q : Z -> bool) (s t : jsstring) :
  Subsequence s t -> Subsequence (filter q s) (filter q t).
Proof.
  induction 1; simpl.
  - constructor.
  - destruct (q c); [now constructor | assumption].
  - destruct (q c); [now constructor | assumption].
Qed.

Local Abbreviation unspaced := (filter (fun c => negb (isSpace c))).

Lemma unspaced_cons_r (c : Z) (a t : jsstring) :
  Subsequence a (unspaced t) -> Subsequence a (unspaced (c :: t)).
Proof.
  intros H. simpl. destruct (negb (isSpace c)); [now constructor | exact H].
Qed.

Lemma unspaced_cons (c : Z) (a t : jsstring) :
  Subsequence (unspaced a) (unspaced t) ->
  Subsequence (unspaced (c :: a)) (unspaced (c :: t)).
Proof.
  intros H. simpl. destruct (negb (isSpace c)); [now constructor | exact H].
Qed.

Lemma unspaced_space (a : jsstring) : unspaced (0x20 :: a) = unspaced a.
Proof. reflexivity. Qed.

Lemma unspaced_replaceClassBySpace (q : Z -> bool) (s : jsstring) :
  Subsequence (unspaced (replaceClassBySpace q s)) (unspaced s).
Proof.
  unfold replaceClassBySpace. induction s as [| c s IH];
    [constructor |].
  cbn [map]. destruct (q c).
  - rewrite unspaced_space. now apply unspaced_cons_r.
  - now apply unspaced_cons.
Qed.

Lemma unspaced_replaceEmoji (s : jsstring) :
  Subsequence (unspaced (replaceEmoji s)) (unspaced s).
Proof.
  induction s as [| c | c d rest IH1 IH2] using list_ind2.
  - constructor.
  - cbn [replaceEmoji]. destruct (isEmojiPoint c).
    + rewrite unspaced_space. apply Subsequence_nil_l.
    + apply Subsequence_refl.
  - cbn [replaceEmoji].
    destruct (isHighSurrogate c && isLowSurrogate d).
    + destruct (isEmojiPoint (surrogatePoint c d)).
      * rewrite unspaced_space. now apply unspaced_cons_r, unspaced_cons_r.
      * now apply unspaced_cons, unspaced_cons.
    + destruct (isEmojiPoint c).
      * rewrite unspaced_space. now apply unspaced_cons_r.
      * now apply unspaced_cons.
Qed.

Lemma unspaced_stripBoundary (text : jsstring) :
  Subsequence (unspaced (stripBoundary text)) text.
Proof.
  unfold stripBoundary, stripSymbols.
  apply (Subsequence_trans _ (unspaced text));
    [| apply Subsequence_filter].
  eapply Subsequence_trans; [| apply unspaced_replaceEmoji].
  eapply Subsequence_trans; [| apply unspaced_replaceClassBySpace].
  eapply Subsequence_trans; [| apply unspaced_replaceClassBySpace].
  eapply Subsequence_trans; [| apply unspaced_replaceClassBySpace].
  apply Subsequence_filter_mono.
  eapply Subsequence_trans;
    [apply Subsequence_dropWhileEnd | apply Subsequence_dropWhile].
Qed.

Lemma splitGo_Subsequence (m : jsstring -> option jsstring) :
  (forall s r, m s = Some r -> Subsequence r s) ->
  forall fuel s acc x,
    In x (splitGo m fuel s acc) -> Subsequence x (rev acc ++ s).
Proof.
  intros Hm. induction fuel as [| fuel IH]; intros s acc x Hx.
  - simpl in Hx. destruct Hx as [<- | []]. apply Subsequence_refl.
  - destruct s as [| c rest]; simpl in Hx.
    + destruct Hx as [<- | []]. rewrite app_nil_r. apply Subsequence_refl.
    + destruct (m (c :: rest)) as [rest' |] eqn:E.
      * destruct Hx as [<- | Hx].
        -- rewrite <- (app_nil_r (rev acc)) at 1.
           apply Subsequence_app;
             [apply Subsequence_refl | apply Subsequence_nil_l].
        -- apply IH in Hx. simpl in Hx.
           eapply Subsequence_trans; [exact Hx |].
           eapply Subsequence_trans; [exact (Hm _ _ E) |].
           rewrite <- (app_nil_l (c :: rest)) at 1.
           apply Subsequence_app;
             [apply Subsequence_nil_l | apply Subsequence_refl].
      * apply IH in Hx. simpl in Hx. now rewrite <- app_assoc in Hx.
Qed.

Lemma split_Subsequence (m : jsstring -> option jsstring)
    (s x : jsstring) :
  (forall s r, m s = Some r -> Subsequence r s) ->
  In x (split m s) -> Subsequence x s.
Proof.
  intros Hm Hx. apply (splitGo_Subsequence m Hm) in Hx. exact Hx.
Qed.

Lemma matchPunctuationRun_suffix (s r : jsstring) :
  matchPunctuationRun s = Some r -> Subsequence r s.
Proof.
  unfold matchPunctuationRun. destruct s as [| c rest]; [discriminate |].
  destruct (isChinesePunctuation c); [| discriminate].
  intros [= <-]. constructor. apply Subsequence_dropWhile.
Qed.

Lemma cleanSegment_Subsequence (segment : jsstring) :
  Subsequence (cleanSegment segment) segment.
Proof.
  unfold cleanSegment, removeClass.
  eapply Subsequence_trans; [apply Subsequence_trim |].
  eapply Subsequence_trans; [apply Subsequence_dropWhileEnd |].
  eapply Subsequence_trans; [apply Subsequence_dropWhile |].
  eapply Subsequence_trans; apply Subsequence_filter.
Qed.

Lemma unspaced_id (p : jsstring) :
  Forall (fun c => isSpace c = false) p -> unspaced p = p.
Proof.
  induction 1 as [| c p Hc _ IH]; simpl; [reflexivity |].
  now rewrite Hc, IH.
Qed.

Lemma cleanChineseText_Subsequence (text p : jsstring) :
  In p (cleanChineseText text) -> Subsequence p text.
Proof.
  intros Hp.
  pose proof (isCleanPhrase_space p (cleanChineseText_phrases text p Hp))
    as Hspace.
  revert Hp. unfold cleanChineseText.
  destruct (isEmpty text); [intros [] |].
  destruct (isEmpty (stripBoundary text)
            || negb (containsChinese (stripBoundary text)));
    [intros [] |].
  intros H. apply filter_In in H. destruct H as [H _].
  apply in_map_iff in H. destruct H as (seg & Eseg & H).
  apply filter_In in H. destruct H as [H _].
  apply in_map_iff in H. destruct H as (seg0 & <- & H).
  apply (split_Subsequence _ _ _ matchPunctuationRun_suffix) in H.
  rewrite <- (unspaced_id p Hspace).
  eapply Subsequence_trans; [| apply unspaced_stripBoundary].
  apply Subsequence_filter_mono. subst p.
  eapply Subsequence_trans; [apply cleanSegment_Subsequence |].
  eapply Subsequence_trans; [apply Subsequence_trim | exact H].
Qed.

(** X4.  [cleanChineseText] only deletes: every phrase it returns is the text
    with some of its code units removed, the others in their order. *)
Theorem cleanChineseText_deletes_only (text p : jsstring) :
  In p (cleanChineseText text) -> Subsequence p text.
Proof. apply cleanChineseText_Subsequence. Qed.

Lemma cleanChineseText_deletes_only_witness :
  Subsequence (u "保存成功") (u "✅ 保存 OK 成功！").
Proof.
  apply (cleanChineseText_deletes_only (u "✅ 保存 OK 成功！") (u "保存成功")).
  vm_compute. left. reflexivity.
Defined.

(* ================================================================== *)
(** ** The tree walker of [ASTChineseExtractor] *)

(** Induction on a tree: a property holds of every node when it holds of a
    node whose children have it. *)
Lemma Node_children_ind (P : Node -> Prop) :
  (forall node, Forall P (childrenOf node) -> P node) ->
  forall node, P node.
Proof.
  intros H. fix IH 1. intros node. apply H.
  destruct node as [t | t | t | h spans | e l | t | n init | n ms | n init
                   | n init | e n | e args | e | cs]; simpl.
  - constructor.
  - constructor.
  - constructor.
  - induction spans as [| s spans IHs]; constructor; [apply IH | exact IHs].
  - constructor; [apply IH | constructor].
  - constructor.
  - destruct init as [i |]; simpl; [constructor; [apply IH | constructor]
                                   | constructor].
  - induction ms as [| s ms IHs]; constructor; [apply IH | exact IHs].
  - constructor; [apply IH |].
    destruct init as [i |]; simpl; [constructor; [apply IH | constructor]
                                   | constructor].
  - constructor; [apply IH | constructor; [apply IH | constructor]].
  - constructor; [apply IH | constructor].
  - constructor; [apply IH |].
    induction args as [| s args IHs]; constructor; [apply IH | exact IHs].
  - constructor; [apply IH | constructor].
  - induction cs as [| s cs IHs]; constructor; [apply IH | exact IHs].
Qed.

Section Walker.

Import ASTChineseExtractor.

(** [visitNode] is the handler of the node followed by the visits of the
    children, in order. *)
Lemma visitNode_children (o : Options) (node : Node) (st : list jsstring) :
  visitNode o node st
  = fold_left (fun acc child => visitNode o child acc) (childrenOf node)
      (handleNode o node st).
Proof.
  assert (Hall : forall ns acc,
             (fix visitAll (ns : list Node) (st : list jsstring)
                : list jsstring :=
                match ns with
                | [] => st
                | n :: ns' => visitAll ns' (visitNode o n st)
                end) ns acc
             = fold_left (fun acc child => visitNode o child acc) ns acc).
  { induction ns as [| n ns IH]; intros acc; simpl; [reflexivity | apply IH]. }
  destruct node as [t | t | t | h spans | e l | t | n init | n ms | n init
                   | n init | e n | e args | e | cs];
    cbn [visitNode childrenOf fold_left optionNodes]; try reflexivity;
    try apply Hall.
  - destruct init; reflexivity.
  - destruct init; reflexivity.
Qed.

Lemma fold_setAdd_In (p : jsstring) (xs st : list jsstring) :
  In p (fold_left (fun acc x => setAdd x acc) xs st) <-> In p st \/ In p xs.
Proof.
  revert st. induction xs as [| x xs IH]; intros st; simpl.
  - tauto.
  - rewrite IH, setAdd_In. intuition.
Qed.

Lemma setAdd_NoDup (x : jsstring) (st : list jsstring) :
  NoDup st -> NoDup (setAdd x st).
Proof.
  intros H. unfold setAdd. destruct (existsb (str_eqb x) st) eqn:E.
  - exact H.
  - apply NoDup_snoc; [exact H |]. intros Hin.
    assert (T : existsb (str_eqb x) st = true).
    { apply existsb_exists. exists x. split; [exact Hin | apply str_eqb_refl]. }
    congruence.
Qed.

Lemma fold_setAdd_NoDup (xs st : list jsstring) :
  NoDup st -> NoDup (fold_left (fun acc x => setAdd x acc) xs st).
Proof.
  revert st. induction xs as [| x xs IH]; intros st H; simpl.
  - exact H.
  - apply IH, setAdd_NoDup, H.
Qed.

Lemma cleanChineseText_no_chinese (text : jsstring) :
  containsChinese text = false -> cleanChineseText text = [].
Proof.
  intros H. apply stripBoundary_no_chinese in H.
  unfold cleanChineseText. destruct (isEmpty text); [reflexivity |].
  rewrite H. simpl. now rewrite orb_true_r.
Qed.

(** The block of every handler adds the phrases of the cleaner, all of
    them. *)
Lemma addSegments_clean (text : jsstring) (st : list jsstring) :
  addSegments text st
  = fold_left (fun acc x => setAdd x acc) (cleanChineseText text) st.
Proof.
  unfold addSegments. destruct (containsChinese text) eqn:E.
  - assert (H : Forall (fun p => isValidChineseText p = true)
                  (cleanChineseText text)).
    { apply Forall_forall. intros p Hp.
      apply (isCleanPhrase_valid p (cleanChineseText_phrases text p Hp)). }
    revert st. induction H as [| p ps Hp _ IH]; intros st; simpl.
    + reflexivity.
    + rewrite Hp. apply IH.
  - now rewrite (cleanChineseText_no_chinese text E).
Qed.

Lemma addSegments_In (text p : jsstring) (st : list jsstring) :
  In p (addSegments text st) <-> In p st \/ In p (cleanChineseText text).
Proof. rewrite addSegments_clean. apply fold_setAdd_In. Qed.

(** *** What a step adds to the set *)

Lemma fold_left_additive {A : Type} (f : list jsstring -> A -> list jsstring)
    (xs : list A) :
  (forall x p st, In x xs ->
     (In p (f st x) <-> In p st \/ In p (f [] x))) ->
  forall p st,
    In p (fold_left f xs st)
    <-> In p st \/ exists x, In x xs /\ In p (f [] x).
Proof.
  induction xs as [| x xs IH]; intros Hf p st; simpl.
  - split; [now left | intros [H | (x & [] & _)]; exact H].
  - rewrite IH by (intros; apply Hf; now right).
    rewrite (Hf x p st) by now left.
    split.
    + intros [[H | H] | (y & Hy & H)]; [now left | right | right].
      * exists x. split; [now left | exact H].
      * exists y. split; [now right | exact H].
    + intros [H | (y & [<- | Hy] & H)];
        [now left; left | now left; right | right].
      exists y. now split.
Qed.

Lemma handleEnumMember_In (o : Options) (member : Node) (p : jsstring)
    (st : list jsstring) :
  In p (handleEnumMember o member st)
  <-> In p st \/ In p (handleEnumMember o member []).
Proof.
  destruct member as [t | t | t | h spans | e l | t | n init | n ms | name init
                     | n init | e n | e args | e | cs]; simpl; try tauto.
  assert (Hkey : forall st0,
             In p (match name with
                   | Identifier keyName =>
                     if extractFromEnumKeys o then addSegments keyName st0
                     else st0
                   | _ => st0
                   end)
             <-> In p st0
                 \/ In p (match name with
                          | Identifier keyName =>
                            if extractFromEnumKeys o
                            then addSegments keyName [] else []
                          | _ => []
                          end)).
  { intros st0. destruct name; simpl; try tauto.
    destruct (extractFromEnumKeys o); simpl; [| tauto].
    rewrite !addSegments_In. simpl. tauto. }
  destruct init as [[t | value | t | h spans | e l | t | n init | n ms
                    | n init | n init | e n | e args | e | cs] |];
    try (rewrite Hkey; tauto).
  destruct (extractFromEnumValues o).
  - rewrite !addSegments_In, Hkey. tauto.
  - rewrite Hkey. tauto.
Qed.

Lemma handleNode_In (o : Options) (node : Node) (p : jsstring)
    (st : list jsstring) :
  In p (handleNode o node st) <-> In p st \/ In p (handleNode o node []).
Proof.
  destruct node as [t | t | t | h spans | e l | t | n init | n ms | n init
                   | n init | e n | callee args | e | cs]; simpl; try tauto.
  - unfold handleStringLiteral. rewrite !addSegments_In. simpl. tauto.
  - unfold handleTemplateLiteral. rewrite !addSegments_In. simpl. tauto.
  - unfold handleTemplateExpression.
    assert (Hspan : forall x q st0, In x spans ->
               (In q (match x with
                      | TemplateSpan _ literal => addSegments literal st0
                      | _ => st0
                      end)
                <-> In q st0
                    \/ In q (match x with
                             | TemplateSpan _ literal => addSegments literal []
                             | _ => []
                             end))).
    { intros x q st0 _. destruct x; simpl; try tauto.
      rewrite !addSegments_In. simpl. tauto. }
    rewrite (fold_left_additive _ spans Hspan p (addSegments h st)).
    rewrite (fold_left_additive _ spans Hspan p (addSegments h [])).
    rewrite !addSegments_In. simpl. tauto.
  - unfold handleJSXText. destruct (negb (extractFromJSX o)); simpl; [tauto |].
    rewrite !addSegments_In. simpl. tauto.
  - unfold handleEnumDeclaration.
    rewrite (fold_left_additive _ ms
               (fun x q st0 _ => handleEnumMember_In o x q st0) p st).
    rewrite (fold_left_additive _ ms
               (fun x q st0 _ => handleEnumMember_In o x q st0) p []).
    simpl. tauto.
  - unfold handleCallExpression.
    destruct (negb (extractFromConsole o) && isConsoleCall callee); simpl; tauto.
Qed.

(** [visitNode] only adds to the set, and what it adds does not depend on
    what the set holds. *)
Lemma visitNode_In (o : Options) (node : Node) :
  forall p st,
    In p (visitNode o node st) <-> In p st \/ In p (visitNode o node []).
Proof.
  induction node as [node IH] using Node_children_ind. intros p st.
  rewrite Forall_forall in IH.
  assert (Hc : forall x q st0, In x (childrenOf node) ->
             (In q (visitNode o x st0)
              <-> In q st0 \/ In q (visitNode o x []))).
  { intros x q st0 Hx. now apply IH. }
  rewrite !visitNode_children.
  rewrite (fold_left_additive _ _ Hc p (handleNode o node st)).
  rewrite (fold_left_additive _ _ Hc p (handleNode o node [])).
  rewrite (handleNode_In o node p st). tauto.
Qed.

(** The phrases of a tree: those of the handler of the node and those of
    its children. *)
Lemma visitNode_phrases (o : Options) (node : Node) (p : jsstring) :
  In p (visitNode o node [])
  <-> In p (handleNode o node [])
      \/ exists child, In child (childrenOf node)
                       /\ In p (visitNode o child []).
Proof.
  rewrite visitNode_children.
  apply (fold_left_additive _ _
           (fun x q st0 _ => visitNode_In o x q st0)).
Qed.

(** *** The options *)

Lemma fold_left_ext_in {A B : Type} (f g : B -> A -> B) (xs : list A) :
  (forall x b, In x xs -> f b x = g b x) ->
  forall b, fold_left f xs b = fold_left g xs b.
Proof.
  induction xs as [| x xs IH]; intros H b; simpl.
  - reflexivity.
  - rewrite (H x b) by now left. apply IH. intros; apply H; now right.
Qed.

Lemma handleNode_console_option (o o' : Options) (node : Node)
    (st : list jsstring) :
  extractFromJSX o = extractFromJSX o' ->
  extractFromEnumValues o = extractFromEnumValues o' ->
  extractFromEnumKeys o = extractFromEnumKeys o' ->
  handleNode o node st = handleNode o' node st.
Proof.
  intros Hj Hv Hk.
  destruct node as [t | t | t | h spans | e l | t | n init | n ms | n init
                   | n init | e n | callee args | e | cs]; simpl;
    try reflexivity.
  - unfold handleJSXText. now rewrite Hj.
  - unfold handleEnumDeclaration. apply fold_left_ext_in.
    intros member acc _. unfold handleEnumMember. now rewrite Hv, Hk.
  - unfold handleCallExpression.
    destruct (negb (extractFromConsole o) && isConsoleCall callee);
      destruct (negb (extractFromConsole o') && isConsoleCall callee);
      reflexivity.
Qed.

(** X5.  The options [extractFromConsole] and [extractFromComments] have no
    effect on the walk: two option objects that agree on the other three
    names give the same set, in the same order, on every tree and from
    every starting set. *)
Theorem visitNode_ignores_console_option (o o' : Options) (node : Node)
    (st : list jsstring) :
  extractFromJSX o = extractFromJSX o' ->
  extractFromEnumValues o = extractFromEnumValues o' ->
  extractFromEnumKeys o = extractFromEnumKeys o' ->
  visitNode o node st = visitNode o' node st.
Proof.
  intros Hj Hv Hk. revert st.
  induction node as [node IH] using Node_children_ind. intros st.
  rewrite Forall_forall in IH.
  rewrite !visitNode_children.
  rewrite (handleNode_console_option o o' node st Hj Hv Hk).
  apply fold_left_ext_in. intros child acc Hchild. now apply IH.
Qed.

Lemma visitNode_ignores_console_option_witness :
  visitNode
    {| extractFromComments := false; extractFromConsole := false;
       extractFromJSX := true; extractFromEnumValues := true;
       extractFromEnumKeys := false |} consoleLogTree []
  = visitNode
      {| extractFromComments := true; extractFromConsole := true;
         extractFromJSX := true; extractFromEnumValues := true;
         extractFromEnumKeys := false |} consoleLogTree [].
Proof.
  apply (visitNode_ignores_console_option
           {| extractFromComments := false; extractFromConsole := false;
              extractFromJSX := true; extractFromEnumValues := true;
              extractFromEnumKeys := false |}
           {| extractFromComments := true; extractFromConsole := true;
              extractFromJSX := true; extractFromEnumValues := true;
              extractFromEnumKeys := false |}
           consoleLogTree []); reflexivity.
Defined.

(** The value of an enum member that [handleEnumDeclaration] adds is added
    by the visit of the member too: its initializer is a string literal. *)
Lemma handleEnumMember_phrases (o o' : Options) (member : Node)
    (p : jsstring) :
  extractFromEnumKeys o = extractFromEnumKeys o' ->
  In p (handleEnumMember o member []) ->
  In p (handleEnumMember o' member []) \/ In p (visitNode o' member []).
Proof.
  intros Hk.
  destruct member as [t | t | t | h spans | e l | t | n init | n ms | name init
                     | n init | e n | e args | e | cs];
    cbn [handleEnumMember]; try tauto.
  rewrite <- Hk.
  set (keys := match name with
               | Identifier keyName =>
                 if extractFromEnumKeys o then addSegments keyName [] else []
               | _ => []
               end).
  destruct init as [[t | value | t | h spans | e l | t | n init | n ms
                    | n init | n init | e n | e args | e | cs] |];
    try (intros H; left; destruct (extractFromEnumValues o');
         try rewrite addSegments_In; tauto); try tauto.
  intros H.
  assert (Hcases : In p keys \/ In p (cleanChineseText value)).
  { destruct (extractFromEnumValues o);
      [rewrite addSegments_In in H; tauto | now left]. }
  destruct Hcases as [Hin | Hin].
  - left. destruct (extractFromEnumValues o');
      [rewrite addSegments_In; now left | exact Hin].
  - right. rewrite visitNode_phrases. right.
    exists (StringLiteral value). split; [simpl; now right; left |].
    simpl. unfold handleStringLiteral. rewrite addSegments_In. now right.
Qed.

Lemma handleNode_phrases (o o' : Options) (node : Node) (p : jsstring) :
  extractFromJSX o = extractFromJSX o' ->
  extractFromEnumKeys o = extractFromEnumKeys o' ->
  In p (handleNode o node []) ->
  In p (handleNode o' node [])
  \/ exists child, In child (childrenOf node) /\ In p (visitNode o' child []).
Proof.
  intros Hj Hk.
  destruct node as [t | t | t | h spans | e l | t | n init | n ms | n init
                   | n init | e n | callee args | e | cs]; simpl;
    try tauto.
  - unfold handleJSXText. rewrite Hj. tauto.
  - unfold handleEnumDeclaration.
    rewrite !(fold_left_additive _ ms
                (fun x q st0 _ => handleEnumMember_In o x q st0)).
    rewrite !(fold_left_additive _ ms
                (fun x q st0 _ => handleEnumMember_In o' x q st0)).
    intros [[] | (member & Hm & H)].
    destruct (handleEnumMember_phrases o o' member p Hk H) as [H' | H'].
    + left. right. now exists member.
    + right. now exists member.
  - unfold handleCallExpression.
    destruct (negb (extractFromConsole o) && isConsoleCall callee);
      destruct (negb (extractFromConsole o') && isConsoleCall callee);
      tauto.
Qed.

Lemma visitNode_phrases_incl (o o' : Options) (node : Node) :
  extractFromJSX o = extractFromJSX o' ->
  extractFromEnumKeys o = extractFromEnumKeys o' ->
  forall p, In p (visitNode o node []) -> In p (visitNode o' node []).
Proof.
  intros Hj Hk.
  induction node as [node IH] using Node_children_ind. intros p.
  rewrite Forall_forall in IH.
  rewrite (visitNode_phrases o), (visitNode_phrases o').
  intros [H | (child & Hc & H)].
  - exact (handleNode_phrases o o' node p Hj Hk H).
  - right. exists child. split; [exact Hc | now apply IH].
Qed.

(** X6.  The option [extractFromEnumValues] does not change the set of phrases
    either: the walk visits the initializer of every enum member as a string
    literal.  Two option objects that agree on [extractFromJSX] and on
    [extractFromEnumKeys] give the same phrases on every tree. *)
Theorem visitNode_enum_values_option (o o' : Options) (node : Node)
    (st : list jsstring) (p : jsstring) :
  extractFromJSX o = extractFromJSX o' ->
  extractFromEnumKeys o = extractFromEnumKeys o' ->
  In p (visitNode o node st) <-> In p (visitNode o' node st).
Proof.
  intros Hj Hk. rewrite (visitNode_In o), (visitNode_In o').
  split; (intros [H | H]; [now left | right]).
  - exact (visitNode_phrases_incl o o' node Hj Hk p H).
  - exact (visitNode_phrases_incl o' o node (eq_sym Hj) (eq_sym Hk) p H).
Qed.

(** *** What the set holds *)

Lemma fold_left_preserves {A : Type} (I : list jsstring -> Prop)
    (f : list jsstring -> A -> list jsstring) (xs : list A) :
  (forall x st, In x xs -> I st -> I (f st x)) ->
  forall st, I st -> I (fold_left f xs st).
Proof.
  induction xs as [| x xs IH]; intros H st Hst; simpl.
  - exact Hst.
  - apply IH; [intros; apply H; auto; now right |].
    apply H; [now left | exact Hst].
Qed.

(** A set of phrases of the cleaner. *)
Lemma phraseSet_setAdd (x : jsstring) (st : list jsstring) :
  isCleanPhrase x ->
  NoDup st /\ Forall isCleanPhrase st ->
  NoDup (setAdd x st) /\ Forall isCleanPhrase (setAdd x st).
Proof.
  intros Hx [Hn Hf]. split; [now apply setAdd_NoDup |].
  apply Forall_forall. intros y Hy. apply setAdd_In in Hy.
  destruct Hy as [Hy | ->]; [| exact Hx].
  rewrite Forall_forall in Hf. now apply Hf.
Qed.

Lemma phraseSet_addSegments (text : jsstring) (st : list jsstring) :
  NoDup st /\ Forall isCleanPhrase st ->
  NoDup (addSegments text st) /\ Forall isCleanPhrase (addSegments text st).
Proof.
  rewrite addSegments_clean.
  apply (fold_left_preserves
           (fun st => NoDup st /\ Forall isCleanPhrase st)).
  intros x st0 Hx. apply phraseSet_setAdd.
  exact (cleanChineseText_phrases text x Hx).
Qed.

Lemma phraseSet_handleNode (o : Options) (node : Node) (st : list jsstring) :
  NoDup st /\ Forall isCleanPhrase st ->
  NoDup (handleNode o node st) /\ Forall isCleanPhrase (handleNode o node st).
Proof.
  destruct node as [t | t | t | h spans | e l | t | n init | n ms | n init
                   | n init | e n | callee args | e | cs]; simpl;
    try tauto.
  - apply phraseSet_addSegments.
  - apply phraseSet_addSegments.
  - intros H. unfold handleTemplateExpression.
    apply (fold_left_preserves
             (fun st => NoDup st /\ Forall isCleanPhrase st)).
    + intros x st0 _. destruct x; try tauto. apply phraseSet_addSegments.
    + now apply phraseSet_addSegments.
  - unfold handleJSXText. destruct (negb (extractFromJSX o)); [tauto |].
    apply phraseSet_addSegments.
  - unfold handleEnumDeclaration.
    apply (fold_left_preserves
             (fun st => NoDup st /\ Forall isCleanPhrase st)).
    intros member st0 _ H. unfold handleEnumMember.
    destruct member as [? | ? | ? | ? ? | ? ? | ? | ? ? | ? ?
                       | name initializer | ? ? | ? ? | ? ? | ? | ?];
      try exact H.
    assert (Hkey : NoDup
                     (match name with
                      | Identifier keyName =>
                        if extractFromEnumKeys o
                        then addSegments keyName st0 else st0
                      | _ => st0
                      end)
                   /\ Forall isCleanPhrase
                        (match name with
                         | Identifier keyName =>
                           if extractFromEnumKeys o
                           then addSegments keyName st0 else st0
                         | _ => st0
                         end)).
    { destruct name; try exact H.
      destruct (extractFromEnumKeys o); [| exact H].
      now apply phraseSet_addSegments. }
    destruct initializer as [[] |]; try exact Hkey.
    destruct (extractFromEnumValues o); [| exact Hkey].
    now apply phraseSet_addSegments.
  - unfold handleCallExpression.
    destruct (negb (extractFromConsole o) && isConsoleCall callee); tauto.
Qed.

Lemma phraseSet_visitNode (o : Options) (node : Node) :
  forall st,
    NoDup st /\ Forall isCleanPhrase st ->
    NoDup (visitNode o node st) /\ Forall isCleanPhrase (visitNode o node st).
Proof.
  induction node as [node IH] using Node_children_ind. intros st H.
  rewrite Forall_forall in IH. rewrite visitNode_children.
  apply (fold_left_preserves
           (fun st => NoDup st /\ Forall isCleanPhrase st)).
  - intros child st0 Hc. now apply IH.
  - now apply phraseSet_handleNode.
Qed.

End Walker.

Section Extraction.

Import ASTChineseExtractor.

Variable readFile : jsstring -> option jsstring.
Variable createSourceFile : jsstring -> jsstring -> Node.

(** X7.  Whatever the file holds, whatever tree the parser builds for it and
    whatever the options are, the array [extractFromFile] returns has no
    element twice, and each element is a phrase of the cleaner: at most 20
    code units, one of them a Chinese character, none of them ASCII, white
    space or a mark of the punctuation class. *)
Theorem extractFromFile_gives_phrases (this : Extractor)
    (filePath : jsstring) :
  NoDup (fst (extractFromFile readFile createSourceFile this filePath))
  /\ Forall isCleanPhrase
       (fst (extractFromFile readFile createSourceFile this filePath)).
Proof.
  rewrite extractFromFile_result.
  destruct (readFile filePath) as [sourceCode |].
  - apply phraseSet_visitNode. split; constructor.
  - split; constructor.
Qed.

(** *** Several files *)

Lemma extractFromFilesGo_In (p : jsstring) (filePaths : list jsstring) :
  forall this allTexts,
    In p (fst (extractFromFilesGo readFile createSourceFile this filePaths
                 allTexts))
    <-> In p allTexts
        \/ exists filePath,
             In filePath filePaths
             /\ In p (fst (extractFromFile readFile createSourceFile this
                             filePath)).
Proof.
  induction filePaths as [| f rest IH]; intros this allTexts; simpl.
  - split; [now left | intros [H | (x & [] & _)]; exact H].
  - pose proof (extractFromFile_result readFile createSourceFile this f)
      as Hres.
    pose proof (extractFromFile_options readFile createSourceFile this f)
      as Hopt.
    destruct (extractFromFile readFile createSourceFile this f)
      as [texts this'] eqn:E.
    simpl in Hres, Hopt. rewrite IH, fold_setAdd_In.
    assert (Hsame : forall g,
               fst (extractFromFile readFile createSourceFile this' g)
               = fst (extractFromFile readFile createSourceFile this g)).
    { intros g. rewrite !extractFromFile_result. now rewrite Hopt. }
    split.
    + intros [[H | H] | (g & Hg & H)].
      * now left.
      * right. exists f. split; [now left |]. now rewrite E.
      * right. exists g. split; [now right |]. now rewrite <- Hsame.
    + intros [H | (g & [<- | Hg] & H)].
      * now left; left.
      * left. right. now rewrite E in H.
      * right. exists g. split; [exact Hg |]. now rewrite Hsame.
Qed.

Lemma extractFromFilesGo_NoDup (filePaths : list jsstring) :
  forall this allTexts,
    NoDup allTexts ->
    NoDup (fst (extractFromFilesGo readFile createSourceFile this filePaths
                  allTexts)).
Proof.
  induction filePaths as [| f rest IH]; intros this allTexts H; simpl.
  - exact H.
  - destruct (extractFromFile readFile createSourceFile this f)
      as [texts this'].
    apply IH, fold_setAdd_NoDup, H.
Qed.

(** X8.  [extractFromFiles] returns the union of the arrays that
    [extractFromFile] returns for the files, without repetition: a phrase is
    in the result exactly when the call on one of the files gives it.  A
    file that cannot be read adds nothing and does not stop the loop, and
    the order of the files does not change the set. *)
Theorem extractFromFiles_is_union (this : Extractor)
    (filePaths : list jsstring) :
  NoDup (fst (extractFromFiles readFile createSourceFile this filePaths))
  /\ forall p,
       In p (fst (extractFromFiles readFile createSourceFile this filePaths))
       <-> exists filePath,
             In filePath filePaths
             /\ In p (fst (extractFromFile readFile createSourceFile this
                             filePath)).
Proof.
  unfold extractFromFiles. split.
  - apply extractFromFilesGo_NoDup. constructor.
  - intros p. rewrite extractFromFilesGo_In. simpl. tauto.
Qed.

(** *** src/enhanced-index.js *)

Lemma setOptions_allGiven (this : Extractor) (o : Options) :
  options (setOptions this (EnhancedIndex.allGiven o)) = o.
Proof. destruct o. reflexivity. Qed.

Lemma extractWithASTGo_In (p : jsstring) (files : list jsstring) :
  forall extractor chineseTexts,
    In p (EnhancedIndex.extractWithASTGo readFile createSourceFile extractor
            files chineseTexts)
    <-> In p chineseTexts
        \/ exists file sourceCode,
             In file files /\ readFile file = Some sourceCode
             /\ In p (visitNode (options extractor)
                        (createSourceFile file sourceCode) []).
Proof.
  induction files as [| f rest IH]; intros extractor chineseTexts; simpl.
  - split; [now left | intros [H | (x & s & [] & _)]; exact H].
  - pose proof (extractFromFile_result readFile createSourceFile extractor f)
      as Hres.
    pose proof (extractFromFile_options readFile createSourceFile extractor f)
      as Hopt.
    destruct (extractFromFile readFile createSourceFile extractor f)
      as [texts extractor'] eqn:E.
    simpl in Hres, Hopt. rewrite IH, fold_setAdd_In, Hopt. subst texts.
    split.
    + intros [[H | H] | (g & s & Hg & Hs & H)].
      * now left.
      * right. destruct (readFile f) as [s |] eqn:Ef; [| destruct H].
        exists f, s. now repeat split; [left | |].
      * right. exists g, s. now repeat split; [right | |].
    + intros [H | (g & s & [<- | Hg] & Hs & H)].
      * now left; left.
      * left. right. now rewrite Hs.
      * right. exists g, s. now repeat split.
Qed.

Lemma extractWithASTGo_NoDup (files : list jsstring) :
  forall extractor chineseTexts,
    NoDup chineseTexts ->
    NoDup (EnhancedIndex.extractWithASTGo readFile createSourceFile extractor
             files chineseTexts).
Proof.
  induction files as [| f rest IH]; intros extractor chineseTexts H; simpl.
  - exact H.
  - destruct (extractFromFile readFile createSourceFile extractor f)
      as [texts extractor'].
    apply IH, fold_setAdd_NoDup, H.
Qed.

(** X9.  [extractChineseWithAST(files, astOptions)] returns, without repetition,
    the phrases the walk gives on the tree of every file that can be read,
    under the options of the function overridden by [astOptions]; nothing
    else is in the set. *)
Theorem extractChineseWithAST_is_union (files : list jsstring)
    (astOptions : GivenOptions) :
  NoDup (EnhancedIndex.extractChineseWithAST readFile createSourceFile files
           astOptions)
  /\ forall p,
       In p (EnhancedIndex.extractChineseWithAST readFile createSourceFile
               files astOptions)
       <-> exists file sourceCode,
             In file files /\ readFile file = Some sourceCode
             /\ In p (visitNode
                        (spreadOptions EnhancedIndex.defaultOptions astOptions)
                        (createSourceFile file sourceCode) []).
Proof.
  unfold EnhancedIndex.extractChineseWithAST. split.
  - apply extractWithASTGo_NoDup. constructor.
  - intros p. rewrite extractWithASTGo_In, setOptions_allGiven. simpl. tauto.
Qed.

End Extraction.

(* ================================================================== *)
(** ** The walker on ts-morph trees *)

Section MorphWalker.

Import MorphIndex.

Lemma pushIfValid_valid (text : jsstring) :
  Forall (fun t => isValidChineseText t = true) (pushIfValid text).
Proof.
  unfold pushIfValid. destruct (isValidChineseText text) eqn:E;
    [now repeat constructor | constructor].
Qed.

Lemma onDescendant_valid (ancestors : list Node) (slot : Slot) (node : Node) :
  Forall (fun t => isValidChineseText t = true)
    (onDescendant ancestors slot node).
Proof.
  unfold onDescendant.
  destruct (isInConsoleStatement (node :: ancestors)); [constructor |].
  destruct node as [t | t | t | h spans | e l | t | n init | n ms | n init
                   | n init | e n | callee args | e | cs];
    try constructor; try apply pushIfValid_valid.
  - destruct (isStringLiteralAsKey (hd_error ancestors) slot);
      [constructor | apply pushIfValid_valid].
  - apply Forall_app. split; [apply pushIfValid_valid |].
    apply Forall_flat_map, Forall_forall. intros span _.
    destruct span; try constructor. apply pushIfValid_valid.
  - destruct init as [[] |]; try constructor. apply pushIfValid_valid.
Qed.

Lemma walk_valid (node : Node) :
  forall ancestors slot,
    Forall (fun t => isValidChineseText t = true) (walk ancestors slot node).
Proof.
  induction node as [node IH] using Node_children_ind.
  intros ancestors slot.
  assert (Hall : forall chain ns,
             Forall (fun n => forall ancestors slot,
                       Forall (fun t => isValidChineseText t = true)
                         (walk ancestors slot n)) ns ->
             Forall (fun t => isValidChineseText t = true)
               ((fix walkAll (ns : list Node) : list jsstring :=
                   match ns with
                   | [] => []
                   | n :: ns' => walk chain OtherSlot n ++ walkAll ns'
                   end) ns)).
  { intros chain ns H. induction H as [| n ns Hn _ IHns]; [constructor |].
    apply Forall_app. split; [apply Hn | exact IHns]. }
  destruct node as [t | t | t | h spans | e l | t | n init | n ms | n init
                   | n init | e n | callee args | e | cs];
    cbn [walk]; cbn [childrenOf] in IH;
    apply Forall_app; (split; [apply onDescendant_valid |]);
    try constructor; try (apply Hall; exact IH).
  - inversion IH; subst; auto.
  - destruct init as [i |]; [| constructor].
    simpl in IH. inversion IH; subst; auto.
  - inversion IH as [| ? ? Hn Hinit]; subst.
    apply Forall_app. split; [apply Hn |].
    destruct init as [i |]; [| constructor].
    simpl in Hinit. inversion Hinit; subst; auto.
  - inversion IH as [| ? ? Hn Hinit]; subst.
    inversion Hinit; subst. apply Forall_app. split; auto.
  - inversion IH; subst; auto.
  - inversion IH as [| ? ? He Hargs]; subst.
    apply Forall_app. split; [apply He | now apply Hall].
  - inversion IH; subst; auto.
Qed.


(** One step of [walk]: a text comes from the callback on the node or from
    the walk of a child, whose chain starts with the node. *)
Lemma walk_step (node : Node) (ancestors : list Node) (slot : Slot)
    (t : jsstring) :
  In t (walk ancestors slot node) ->
  In t (onDescendant ancestors slot node)
  \/ exists child slot',
       In child (childrenOf node)
       /\ In t (walk (node :: ancestors) slot' child).
Proof.
  assert (Hall : forall chain ns,
             In t ((fix walkAll (ns : list Node) : list jsstring :=
                      match ns with
                      | [] => []
                      | n :: ns' => walk chain OtherSlot n ++ walkAll ns'
                      end) ns) ->
             exists n, In n ns /\ In t (walk chain OtherSlot n)).
  { intros chain ns. induction ns as [| n ns IH]; [intros [] |].
    intros H. apply in_app_or in H. destruct H as [H | H].
    - exists n. split; [now left | exact H].
    - destruct (IH H) as (m & Hm & Ht). exists m. split; [now right | exact Ht]. }
  destruct node as [x | x | x | h spans | e l | x | n init | n ms | n init
                   | n init | e n | callee args | e | cs];
    cbn [walk childrenOf]; intros H; apply in_app_or in H;
    (destruct H as [H | H]; [now left | right]);
    try (destruct H; fail);
    try (apply Hall in H; destruct H as (m & Hm & Ht);
         exists m, OtherSlot; now split).
  - exists e, OtherSlot. split; [now left | exact H].
  - destruct init as [i |]; [| destruct H].
    exists i, OtherSlot. split; [now left | exact H].
  - apply in_app_or in H. destruct H as [H | H].
    + exists n, NameSlot. split; [now left | exact H].
    + destruct init as [i |]; [| destruct H].
      exists i, OtherSlot. split; [now right; left | exact H].
  - apply in_app_or in H. destruct H as [H | H].
    + exists n, NameSlot. split; [now left | exact H].
    + exists init, OtherSlot. split; [now right; left | exact H].
  - exists e, OtherSlot. split; [now left | exact H].
  - apply in_app_or in H. destruct H as [H | H].
    + exists callee, OtherSlot. split; [now left | exact H].
    + apply Hall in H. destruct H as (m & Hm & Ht).
      exists m, OtherSlot. split; [now right | exact Ht].
  - exists e, OtherSlot. split; [now left | exact H].
Qed.

Lemma onDescendant_in_console (ancestors : list Node) (slot : Slot)
    (node : Node) :
  isInConsoleStatement (node :: ancestors) = true ->
  onDescendant ancestors slot node = [].
Proof. intros H. unfold onDescendant. now rewrite H. Qed.



End MorphWalker.

(* ================================================================== *)
(** ** The extractor on regular expressions *)

(** *** The characters of a phrase are characters of the text *)

Lemma takeWhile_Forall (P : Z -> Prop) (q : Z -> bool) (s : jsstring) :
  Forall P s -> Forall P (takeWhile q s).
Proof.
  induction 1 as [| c rest Hc Hrest IH]; simpl; [constructor |].
  destruct (q c); [now constructor | constructor].
Qed.

Lemma splitGo_Forall (P : Z -> Prop) (m : jsstring -> option jsstring) :
  (forall s r, Forall P s -> m s = Some r -> Forall P r) ->
  forall fuel s acc x,
    Forall P s -> Forall P acc ->
    In x (splitGo m fuel s acc) -> Forall P x.
Proof.
  intros Hm. induction fuel as [| fuel IH]; intros s acc x Hs Hacc Hx.
  - simpl in Hx. destruct Hx as [<- | []].
    apply Forall_app. split; [now apply Forall_rev_iff | exact Hs].
  - destruct s as [| c rest]; simpl in Hx.
    + destruct Hx as [<- | []]. now apply Forall_rev_iff.
    + destruct (m (c :: rest)) as [rest' |] eqn:E.
      * destruct Hx as [<- | Hx]; [now apply Forall_rev_iff |].
        apply (IH rest' [] x); [exact (Hm _ _ Hs E) | constructor | exact Hx].
      * inversion Hs; subst.
        apply (IH rest (c :: acc) x); [assumption | now constructor | exact Hx].
Qed.

Lemma execAllGo_Forall (P : Z -> Prop)
    (m : jsstring -> option (jsstring * jsstring)) :
  (forall s g r, Forall P s -> m s = Some (g, r) -> Forall P g /\ Forall P r) ->
  forall fuel s g,
    Forall P s -> In g (execAllGo m fuel s) -> Forall P g.
Proof.
  intros Hm. induction fuel as [| fuel IH]; intros s g Hs Hg.
  - destruct Hg.
  - simpl in Hg. destruct (m s) as [[g' rest'] |] eqn:E.
    + destruct (Hm _ _ _ Hs E) as [Hg' Hrest'].
      destruct Hg as [<- | Hg]; [exact Hg' | now apply (IH rest')].
    + destruct s as [| c rest]; [destruct Hg |].
      inversion Hs; subst. now apply (IH rest).
Qed.

Lemma matchQuoted_Forall (P : Z -> Prop) (q : Z) (s g r : jsstring) :
  Forall P s -> Index.matchQuoted q s = Some (g, r) ->
  Forall P g /\ Forall P r.
Proof.
  intros Hs. unfold Index.matchQuoted.
  destruct Hs as [| c rest Hc Hrest]; [discriminate |].
  destruct (c =? q); [| discriminate].
  pose proof (dropWhile_Forall P (fun x => negb (x =? q)) rest Hrest) as Hd.
  destruct Hd as [| d rest' Hd Hrest']; [discriminate |].
  destruct (containsChinese _); [| discriminate].
  intros E. inversion E; subst. split; [| exact Hrest'].
  now apply takeWhile_Forall.
Qed.

Lemma matchEnumValue_Forall (P : Z -> Prop) (s g r : jsstring) :
  Forall P s -> Index.matchEnumValue s = Some (g, r) ->
  Forall P g /\ Forall P r.
Proof.
  intros Hs. unfold Index.matchEnumValue.
  destruct (firstIs isWord s); [| discriminate].
  pose proof (dropWhile_Forall P isSpace _
                (dropWhile_Forall P isWord s Hs)) as H2.
  destruct H2 as [| c s3 Hc H3]; [discriminate |].
  destruct (c =? 61); [| discriminate].
  unfold Index.matchEnumQuoted.
  pose proof (dropWhile_Forall P isSpace s3 H3) as H4.
  destruct H4 as [| q s5 Hq H5]; [discriminate |].
  destruct (Index.isQuote q); [| discriminate].
  pose proof (dropWhile_Forall P Index.isEnumBodyChar s5 H5) as H6.
  destruct H6 as [| d rest Hd Hrest]; [discriminate |].
  destruct ((d =? q) && containsChinese _); [| discriminate].
  intros E. inversion E; subst. split; [| exact Hrest].
  now apply takeWhile_Forall.
Qed.

Lemma matchInterpolation_Forall (P : Z -> Prop) (s r : jsstring) :
  Forall P s -> Index.matchInterpolation s = Some r -> Forall P r.
Proof.
  intros Hs. unfold Index.matchInterpolation.
  destruct Hs as [| c s1 Hc H1]; [discriminate |].
  destruct H1 as [| d s2 Hd H2]; [discriminate |].
  destruct ((c =? 36) && (d =? 123)); [| discriminate].
  pose proof (dropWhile_Forall P (fun x => negb (x =? 125)) s2 H2) as H3.
  destruct H3 as [| e r' He Hr']; [discriminate |].
  intros E. inversion E; subst. exact Hr'.
Qed.

Lemma matchNewline_Forall (P : Z -> Prop) (s r : jsstring) :
  Forall P s -> Index.matchNewline s = Some r -> Forall P r.
Proof.
  intros Hs. unfold Index.matchNewline.
  destruct Hs as [| c s1 Hc H1]; [discriminate |].
  destruct (Z.eq_dec c 10) as [-> | N].
  - intros E. inversion E; subst. exact H1.
  - destruct c as [| q | q]; try discriminate.
    do 4 (try (destruct q as [q | q |]; try discriminate; try congruence)).
Qed.

(** A phrase of the cleaner is made of characters of the text: the spaces
    the replacements put in are removed again. *)
Lemma cleanChineseText_characters (P : Z -> Prop) (text p : jsstring) :
  Forall P text -> In p (cleanChineseText text) -> Forall P p.
Proof.
  intros Htext Hp.
  pose proof (cleanChineseText_phrases text p Hp) as Hclean.
  pose proof (isCleanPhrase_space p Hclean) as Hspace.
  assert (Hor : Forall (fun c => P c \/ c = 0x20) p).
  { revert Hp. unfold cleanChineseText.
    destruct (isEmpty text); [intros [] |].
    destruct (isEmpty (stripBoundary text)
              || negb (containsChinese (stripBoundary text)));
      [intros [] |].
    intros H. apply filter_In in H. destruct H as [H _].
    apply in_map_iff in H. destruct H as (seg & <- & H).
    apply filter_In in H. destruct H as [H _].
    apply in_map_iff in H. destruct H as (seg0 & <- & H).
    apply cleanSegment_Forall, trim_Forall.
    unfold split in H.
    apply (splitGo_Forall (fun c => P c \/ c = 0x20) matchPunctuationRun)
      with (fuel := List.length (stripBoundary text))
           (s := stripBoundary text) (acc := []).
    - intros s r Hs. unfold matchPunctuationRun.
      destruct Hs as [| c rest Hc Hrest]; [discriminate |].
      destruct (isChinesePunctuation c); [| discriminate].
      intros E. inversion E; subst. now apply dropWhile_Forall.
    - apply stripBoundary_Forall; [now right |].
      eapply Forall_impl; [| exact Htext]. intros c Hc. now left.
    - constructor.
    - exact H. }
  rewrite Forall_forall in *. intros c Hc.
  destruct (Hor c Hc) as [H | ->]; [exact H |].
  specialize (Hspace _ Hc). discriminate.
Qed.

(** The test of [validSegments] rejects nothing. *)
Lemma validSegments_clean (rawText : jsstring) :
  Index.validSegments rawText = cleanChineseText (trim rawText).
Proof.
  unfold Index.validSegments.
  assert (H : Forall (fun p => negb (isEmpty p)
                               && Index.isValidChineseText p = true)
                (cleanChineseText (trim rawText))).
  { apply Forall_forall. intros p Hp.
    pose proof (cleanChineseText_phrases _ p Hp) as Hc.
    destruct (isCleanPhrase_valid p Hc) as [_ ->].
    destruct Hc as (Hne & _). destruct p; [congruence | reflexivity]. }
  induction H as [| p ps Hp _ IH]; simpl; [reflexivity |].
  now rewrite Hp, IH.
Qed.

Lemma validSegments_phrases (P : Z -> Prop) (rawText p : jsstring) :
  Forall P rawText -> In p (Index.validSegments rawText) ->
  isCleanPhrase p /\ Forall P p.
Proof.
  rewrite validSegments_clean. intros Hraw Hp. split.
  - exact (cleanChineseText_phrases _ p Hp).
  - apply (cleanChineseText_characters P (trim rawText) p);
      [now apply trim_Forall | exact Hp].
Qed.

Lemma extractFromTemplate_phrases (P : Z -> Prop)
    (templateContent p : jsstring) :
  Forall P templateContent ->
  In p (Index.extractFromTemplate templateContent) ->
  isCleanPhrase p /\ Forall P p.
Proof.
  intros Ht. unfold Index.extractFromTemplate.
  destruct (negb (anywhere Index.matchDollarBrace templateContent)).
  - now apply validSegments_phrases.
  - intros H. apply in_flat_map in H. destruct H as (segment & Hs & H).
    apply (validSegments_phrases P segment p); [| exact H].
    unfold split in Hs.
    apply (splitGo_Forall P Index.matchInterpolation
             (matchInterpolation_Forall P)) in Hs;
      [exact Hs | exact Ht | constructor].
Qed.

Lemma execAll_quoted_Forall (P : Z -> Prop) (q : Z) (line g : jsstring) :
  Forall P line -> In g (execAll (Index.matchQuoted q) line) -> Forall P g.
Proof.
  intros Hl Hg. unfold execAll in Hg.
  apply (execAllGo_Forall P (Index.matchQuoted q)) in Hg;
    [exact Hg | | exact Hl].
  intros s g' r. apply matchQuoted_Forall.
Qed.

Lemma extractChineseFromLine_phrases (P : Z -> Prop) (line p : jsstring) :
  Forall P line -> In p (Index.extractChineseFromLine line) ->
  isCleanPhrase p /\ Forall P p.
Proof.
  intros Hl. unfold Index.extractChineseFromLine.
  destruct (Index.isConsoleLogLine line); [intros [] |].
  rewrite !in_app_iff, !in_flat_map.
  intros [(g & Hg & H) | [(g & Hg & H) | (g & Hg & H)]];
    apply (execAll_quoted_Forall P) in Hg; try exact Hl.
  - now apply (validSegments_phrases P g).
  - now apply (validSegments_phrases P g).
  - now apply (extractFromTemplate_phrases P g).
Qed.

Lemma extractChineseFromContent_phrases (P : Z -> Prop)
    (content p : jsstring) :
  Forall P content -> In p (Index.extractChineseFromContent content) ->
  isCleanPhrase p /\ Forall P p.
Proof.
  intros Hc. unfold Index.extractChineseFromContent.
  rewrite setOfList_In, in_app_iff.
  unfold Index.enumValueTexts, Index.lineTexts. rewrite !in_flat_map.
  intros [(g & Hg & H) | (line & Hline & H)].
  - apply (validSegments_phrases P g); [| exact H].
    unfold execAll in Hg.
    apply (execAllGo_Forall P Index.matchEnumValue
             (matchEnumValue_Forall P)) in Hg; [exact Hg | exact Hc].
  - destruct (Index.isEnumUsageLine line); [destruct H |].
    apply (extractChineseFromLine_phrases P line); [| exact H].
    unfold split in Hline.
    apply (splitGo_Forall P Index.matchNewline (matchNewline_Forall P))
      in Hline; [exact Hline | exact Hc | constructor].
Qed.

(** *** A phrase is the text of the file with characters deleted *)

Lemma Subsequence_takeWhile (q : Z -> bool) (s : jsstring) :
  Subsequence (takeWhile q s) s.
Proof.
  induction s as [| c s IH]; simpl; [constructor |].
  destruct (q c); [now constructor | apply Subsequence_nil_l].
Qed.

Lemma Subsequence_tail (c : Z) (r s : jsstring) :
  Subsequence (c :: r) s -> Subsequence r s.
Proof.
  intros H. eapply Subsequence_trans; [| exact H].
  constructor. apply Subsequence_refl.
Qed.

Lemma execAllGo_Subsequence
    (m : jsstring -> option (jsstring * jsstring)) :
  (forall s g r, m s = Some (g, r) -> Subsequence g s /\ Subsequence r s) ->
  forall fuel s g, In g (execAllGo m fuel s) -> Subsequence g s.
Proof.
  intros Hm. induction fuel as [| fuel IH]; intros s g Hg.
  - destruct Hg.
  - simpl in Hg. destruct (m s) as [[g' rest'] |] eqn:E.
    + destruct (Hm _ _ _ E) as [Hg' Hrest'].
      destruct Hg as [<- | Hg]; [exact Hg' |].
      eapply Subsequence_trans; [now apply (IH rest') | exact Hrest'].
    + destruct s as [| c rest]; [destruct Hg |].
      constructor. now apply IH.
Qed.

Lemma matchQuoted_Subsequence (q : Z) (s g r : jsstring) :
  Index.matchQuoted q s = Some (g, r) ->
  Subsequence g s /\ Subsequence r s.
Proof.
  unfold Index.matchQuoted. destruct s as [| c rest]; [discriminate |].
  destruct (c =? q); [| discriminate].
  pose proof (Subsequence_dropWhile (fun x => negb (x =? q)) rest) as Hd.
  destruct (dropWhile (fun x => negb (x =? q)) rest) as [| d rest'];
    [discriminate |].
  destruct (containsChinese _); [| discriminate].
  intros [= <- <-]. split; constructor.
  - apply Subsequence_takeWhile.
  - exact (Subsequence_tail d rest' rest Hd).
Qed.

Lemma matchEnumValue_Subsequence (s g r : jsstring) :
  Index.matchEnumValue s = Some (g, r) ->
  Subsequence g s /\ Subsequence r s.
Proof.
  unfold Index.matchEnumValue.
  destruct (firstIs isWord s); [| discriminate].
  assert (H2 : Subsequence (dropWhile isSpace (dropWhile isWord s)) s).
  { eapply Subsequence_trans; apply Subsequence_dropWhile. }
  destruct (dropWhile isSpace (dropWhile isWord s)) as [| c s3];
    [discriminate |].
  destruct (c =? 61); [| discriminate].
  apply Subsequence_tail in H2.
  unfold Index.matchEnumQuoted.
  assert (H4 : Subsequence (dropWhile isSpace s3) s).
  { eapply Subsequence_trans; [apply Subsequence_dropWhile | exact H2]. }
  destruct (dropWhile isSpace s3) as [| q s5]; [discriminate |].
  destruct (Index.isQuote q); [| discriminate].
  apply Subsequence_tail in H4.
  assert (H6 : Subsequence (dropWhile Index.isEnumBodyChar s5) s).
  { eapply Subsequence_trans; [apply Subsequence_dropWhile | exact H4]. }
  destruct (dropWhile Index.isEnumBodyChar s5) as [| d rest];
    [discriminate |].
  destruct ((d =? q) && containsChinese _); [| discriminate].
  intros [= <- <-]. split.
  - eapply Subsequence_trans; [apply Subsequence_takeWhile | exact H4].
  - exact (Subsequence_tail d rest s H6).
Qed.

Lemma matchInterpolation_suffix (s r : jsstring) :
  Index.matchInterpolation s = Some r -> Subsequence r s.
Proof.
  unfold Index.matchInterpolation.
  destruct s as [| c [| d s2]]; try discriminate.
  destruct ((c =? 36) && (d =? 123)); [| discriminate].
  pose proof (Subsequence_dropWhile (fun x => negb (x =? 125)) s2) as Hd.
  destruct (dropWhile (fun x => negb (x =? 125)) s2) as [| e r'];
    [discriminate |].
  intros [= <-]. do 2 constructor. exact (Subsequence_tail e r' s2 Hd).
Qed.

Lemma matchNewline_suffix (s r : jsstring) :
  Index.matchNewline s = Some r -> Subsequence r s.
Proof.
  intros H.
  assert (Hs : exists c, s = c :: r).
  { unfold Index.matchNewline in H. destruct s as [| c s1]; [discriminate |].
    exists c. f_equal.
    destruct c as [| q | q]; try discriminate.
    do 4 (try (destruct q as [q | q |]; try discriminate)).
    now injection H. }
  destruct Hs as (c & ->). constructor. apply Subsequence_refl.
Qed.

Lemma validSegments_Subsequence (rawText p : jsstring) :
  In p (Index.validSegments rawText) -> Subsequence p rawText.
Proof.
  rewrite validSegments_clean. intros Hp.
  eapply Subsequence_trans;
    [exact (cleanChineseText_Subsequence _ p Hp) | apply Subsequence_trim].
Qed.

Lemma extractFromTemplate_Subsequence (templateContent p : jsstring) :
  In p (Index.extractFromTemplate templateContent) ->
  Subsequence p templateContent.
Proof.
  unfold Index.extractFromTemplate.
  destruct (negb (anywhere Index.matchDollarBrace templateContent)).
  - apply validSegments_Subsequence.
  - intros H. apply in_flat_map in H. destruct H as (segment & Hs & H).
    eapply Subsequence_trans; [exact (validSegments_Subsequence _ p H) |].
    exact (split_Subsequence _ _ _ matchInterpolation_suffix Hs).
Qed.

Lemma extractChineseFromLine_Subsequence (line p : jsstring) :
  In p (Index.extractChineseFromLine line) -> Subsequence p line.
Proof.
  unfold Index.extractChineseFromLine.
  destruct (Index.isConsoleLogLine line); [intros [] |].
  rewrite !in_app_iff, !in_flat_map.
  intros [(g & Hg & H) | [(g & Hg & H) | (g & Hg & H)]];
    unfold execAll in Hg;
    apply (execAllGo_Subsequence _ (matchQuoted_Subsequence _)) in Hg;
    (eapply Subsequence_trans; [| exact Hg]).
  - now apply validSegments_Subsequence.
  - now apply validSegments_Subsequence.
  - now apply extractFromTemplate_Subsequence.
Qed.

Lemma extractChineseFromContent_Subsequence (content p : jsstring) :
  In p (Index.extractChineseFromContent content) -> Subsequence p content.
Proof.
  unfold Index.extractChineseFromContent.
  rewrite setOfList_In, in_app_iff.
  unfold Index.enumValueTexts, Index.lineTexts. rewrite !in_flat_map.
  intros [(g & Hg & H) | (line & Hline & H)].
  - unfold execAll in Hg.
    apply (execAllGo_Subsequence _ matchEnumValue_Subsequence) in Hg.
    eapply Subsequence_trans; [| exact Hg].
    now apply validSegments_Subsequence.
  - destruct (Index.isEnumUsageLine line); [destruct H |].
    eapply Subsequence_trans;
      [exact (extractChineseFromLine_Subsequence line p H) |].
    exact (split_Subsequence _ _ _ matchNewline_suffix Hline).
Qed.

Lemma setOfList_NoDup (xs : list jsstring) : NoDup (setOfList xs).
Proof. unfold setOfList. apply fold_setAdd_NoDup. constructor. Qed.

(** X12.  The array the line extractor returns for a file has no element twice;
    each element is a phrase of the cleaner (at most 20 code units, one of
    them Chinese, no ASCII, no white space, no mark of the punctuation
    class), and it is the text of the file with code units deleted: the
    extractor never puts a character into a phrase, and never changes the
    order of the characters. *)
Theorem extractChineseFromFile_gives_phrases
    (readFile : jsstring -> option jsstring) (filePath : jsstring) :
  NoDup (Index.extractChineseFromFile readFile filePath)
  /\ forall p,
       In p (Index.extractChineseFromFile readFile filePath) ->
       isCleanPhrase p
       /\ exists content,
            readFile filePath = Some content /\ Subsequence p content.
Proof.
  unfold Index.extractChineseFromFile.
  destruct (readFile filePath) as [content |].
  - split; [apply setOfList_NoDup |]. intros p Hp. split.
    + now apply (extractChineseFromContent_phrases (fun _ => True) content p);
        [apply Forall_forall |].
    + exists content. split; [reflexivity |].
      now apply extractChineseFromContent_Subsequence.
  - split; [constructor | intros p []].
Qed.

Lemma extractChineseFromContent_without_chinese (content : jsstring) :
  containsChinese content = false ->
  Index.extractChineseFromContent content = [].
Proof.
  intros H. apply containsChinese_false in H.
  destruct (Index.extractChineseFromContent content) as [| p rest] eqn:E;
    [reflexivity | exfalso].
  destruct (extractChineseFromContent_phrases
              (fun c => isChinese c = false) content p H) as [Hp Hnone].
  - rewrite E. now left.
  - destruct Hp as (_ & _ & Hch & _).
    apply containsChinese_false in Hnone. congruence.
Qed.

(** *** Text outside quotes *)

Lemma execAllGo_none {A : Type} (R : Z -> Prop)
    (m : jsstring -> option (A * jsstring)) :
  (forall s, Forall R s -> m s = None) ->
  forall fuel s, Forall R s -> execAllGo m fuel s = [].
Proof.
  intros Hm. induction fuel as [| fuel IH]; intros s Hs; [reflexivity |].
  simpl. rewrite (Hm s Hs). destruct Hs as [| c rest _ Hrest];
    [reflexivity | now apply IH].
Qed.

Lemma matchQuoted_needs_quote (q : Z) (s : jsstring) :
  Index.isQuote q = true ->
  Forall (fun c => Index.isQuote c = false) s ->
  Index.matchQuoted q s = None.
Proof.
  intros Hq Hs. unfold Index.matchQuoted.
  destruct Hs as [| c rest Hc _]; [reflexivity |].
  destruct (c =? q) eqn:E; [| reflexivity].
  apply Z.eqb_eq in E. congruence.
Qed.

Lemma matchEnumValue_needs_quote (s : jsstring) :
  Forall (fun c => Index.isQuote c = false) s ->
  Index.matchEnumValue s = None.
Proof.
  intros Hs. unfold Index.matchEnumValue.
  destruct (firstIs isWord s); [| reflexivity].
  pose proof (dropWhile_Forall _ isSpace _
                (dropWhile_Forall _ isWord s Hs)) as H2.
  destruct H2 as [| c s3 _ H3]; [reflexivity |].
  destruct (c =? 61); [| reflexivity].
  unfold Index.matchEnumQuoted.
  pose proof (dropWhile_Forall _ isSpace s3 H3) as H4.
  destruct H4 as [| q s5 Hq _]; [reflexivity |]. now rewrite Hq.
Qed.

Lemma extractChineseFromContent_without_quote (content : jsstring) :
  existsb Index.isQuote content = false ->
  Index.extractChineseFromContent content = [].
Proof.
  intros H. apply existsb_false_Forall in H.
  unfold Index.extractChineseFromContent, Index.enumValueTexts,
    Index.lineTexts.
  unfold execAll at 1.
  rewrite (execAllGo_none (fun c => Index.isQuote c = false)
             Index.matchEnumValue matchEnumValue_needs_quote _ content H).
  simpl.
  assert (Hlines : flat_map
                     (fun line =>
                        if Index.isEnumUsageLine line then []
                        else Index.extractChineseFromLine line)
                     (split Index.matchNewline content) = []).
  { assert (Hall : forall lines : list jsstring,
               Forall (Forall (fun c => Index.isQuote c = false)) lines ->
               flat_map
                 (fun line =>
                    if Index.isEnumUsageLine line then []
                    else Index.extractChineseFromLine line) lines = []).
    { induction 1 as [| line lines Hline _ IH]; simpl; [reflexivity |].
      rewrite IH, app_nil_r.
      destruct (Index.isEnumUsageLine line); [reflexivity |].
      unfold Index.extractChineseFromLine.
      destruct (Index.isConsoleLogLine line); [reflexivity |].
      unfold execAll.
      rewrite !(execAllGo_none (fun c => Index.isQuote c = false))
        by (try exact Hline; intros s Hs; now apply matchQuoted_needs_quote).
      reflexivity. }
    apply Hall. apply Forall_forall. intros line Hline.
    unfold split in Hline.
    now apply (splitGo_Forall (fun c => Index.isQuote c = false)
                 Index.matchNewline (matchNewline_Forall _)) in Hline;
      [| exact H | constructor]. }
  now rewrite Hlines.
Qed.

(** X13.  The line extractor takes Chinese text from between quotes only: a file
    without a Chinese character gives the empty array, and so does a file
    without a quote character (single, double or backtick), whatever
    Chinese text it holds in markup or in comments. *)
Theorem extractChineseFromContent_needs_quoted_chinese (content : jsstring) :
  containsChinese content = false \/ existsb Index.isQuote content = false ->
  Index.extractChineseFromContent content = [].
Proof.
  intros [H | H].
  - now apply extractChineseFromContent_without_chinese.
  - now apply extractChineseFromContent_without_quote.
Qed.

Lemma extractChineseFromContent_needs_quoted_chinese_witness :
  Index.extractChineseFromContent (u "<h1>欢迎使用</h1> // 注释") = [].
Proof.
  apply (extractChineseFromContent_needs_quoted_chinese
           (u "<h1>欢迎使用</h1> // 注释")).
  right. vm_compute. reflexivity.
Defined.

(* ================================================================== *)
(** ** More on [deduplicateTexts] *)

Section DedupMore.

Import Dedup.

Variable toLowerCase : jsstring -> jsstring.

Local Abbreviation normalize := (Dedup.normalize toLowerCase).
Local Abbreviation deduplicateTexts := (Dedup.deduplicateTexts toLowerCase).
Local Abbreviation wellKeyed := (Dedup.wellKeyed toLowerCase).
Local Abbreviation insertAll :=
  (fold_left
     (fun entries text =>
        specInsert (Dedup.normalize toLowerCase text) text entries)).

Lemma deduplicateTexts_entries (texts : list jsstring) :
  deduplicateTexts texts = map snd (insertAll texts []).
Proof.
  unfold Dedup.deduplicateTexts.
  change (@nil jsstring)
    with (map snd (@nil (jsstring * jsstring))) at 1.
  rewrite dedup_fold; [reflexivity | split; constructor].
Qed.

Lemma insertAll_wellKeyed (texts : list jsstring) :
  forall entries, wellKeyed entries -> wellKeyed (insertAll texts entries).
Proof.
  induction texts as [| text texts IH]; intros entries H; simpl.
  - exact H.
  - apply IH. apply (dedupStep_specInsert toLowerCase entries text H).
Qed.

Lemma specInsert_keys (k text : jsstring)
    (entries : list (jsstring * jsstring)) :
  map fst (specInsert k text entries) = setAdd k (map fst entries).
Proof.
  induction entries as [| [k' stored] entries IH]; simpl.
  - reflexivity.
  - unfold setAdd in *. simpl. destruct (str_eqb k k'); simpl.
    + reflexivity.
    + rewrite IH. now destruct (existsb (str_eqb k) (map fst entries)).
Qed.

Lemma insertAll_keys (texts : list jsstring) :
  forall entries,
    map fst (insertAll texts entries)
    = fold_left (fun st x => setAdd x st) (map normalize texts)
        (map fst entries).
Proof.
  induction texts as [| text texts IH]; intros entries; simpl.
  - reflexivity.
  - now rewrite IH, specInsert_keys.
Qed.

Lemma specInsert_values (P : jsstring -> Prop) (k text : jsstring)
    (entries : list (jsstring * jsstring)) :
  P text -> Forall (fun kv => P (snd kv)) entries ->
  Forall (fun kv => P (snd kv)) (specInsert k text entries).
Proof.
  intros Ht. induction 1 as [| [k' stored] entries Hh Hrest IH]; simpl.
  - now repeat constructor.
  - destruct (str_eqb k k').
    + constructor; [| exact Hrest]. simpl.
      now destruct (specBetter text stored).
    + now constructor.
Qed.

Lemma insertAll_values (P : jsstring -> Prop) (texts : list jsstring) :
  Forall P texts ->
  forall entries,
    Forall (fun kv => P (snd kv)) entries ->
    Forall (fun kv => P (snd kv)) (insertAll texts entries).
Proof.
  induction 1 as [| text texts Ht _ IH]; intros entries H; simpl.
  - exact H.
  - apply IH. now apply specInsert_values.
Qed.

Lemma deduplicateTexts_Forall (P : jsstring -> Prop) (texts : list jsstring) :
  Forall P texts -> Forall P (deduplicateTexts texts).
Proof.
  intros H. rewrite deduplicateTexts_entries.
  apply Forall_map. apply (insertAll_values P texts H). constructor.
Qed.

Lemma deduplicateTexts_NoDup (texts : list jsstring) :
  NoDup (deduplicateTexts texts).
Proof.
  rewrite deduplicateTexts_entries.
  apply (wellKeyed_values toLowerCase), insertAll_wellKeyed.
  split; constructor.
Qed.

Lemma deduplicateTexts_keys (texts : list jsstring) :
  map normalize (deduplicateTexts texts) = setOfList (map normalize texts).
Proof.
  rewrite deduplicateTexts_entries.
  assert (Hwk : wellKeyed (insertAll texts []))
    by (apply insertAll_wellKeyed; split; constructor).
  destruct Hwk as [_ Hnorm].
  rewrite map_map.
  transitivity (map fst (insertAll texts [])).
  - apply map_ext_in. intros kv Hkv.
    rewrite Forall_forall in Hnorm. now apply Hnorm.
  - now rewrite insertAll_keys.
Qed.

(** X14.  [deduplicateTexts] keeps one phrase for every normalised key of the
    input, in the order the keys first appear; the phrase it keeps for a
    key is one of the input phrases with that key, and no phrase is kept
    twice. *)
Theorem deduplicateTexts_one_per_key (texts : list jsstring) :
  map normalize (deduplicateTexts texts) = setOfList (map normalize texts)
  /\ Forall (fun text => In text texts) (deduplicateTexts texts)
  /\ NoDup (deduplicateTexts texts).
Proof.
  split; [apply deduplicateTexts_keys |]. split.
  - apply deduplicateTexts_Forall. now apply Forall_forall.
  - apply deduplicateTexts_NoDup.
Qed.

Lemma insertAll_distinct (texts : list jsstring) :
  forall entries,
    NoDup (map fst entries ++ map normalize texts) ->
    insertAll texts entries
    = entries ++ map (fun text => (normalize text, text)) texts.
Proof.
  induction texts as [| text texts IH]; intros entries H; simpl.
  - now rewrite app_nil_r.
  - assert (Hnew : mapGet (normalize text) entries = None).
    { destruct (mapGet (normalize text) entries) as [stored |] eqn:E;
        [exfalso | reflexivity].
      apply mapGet_In in E. simpl in H.
      apply NoDup_remove_2 in H. apply H. apply in_or_app. left.
      apply in_map_iff. now exists (normalize text, stored). }
    rewrite specInsert_mapSet, Hnew, (mapSet_new _ _ _ Hnew).
    rewrite IH.
    + now rewrite <- app_assoc.
    + rewrite map_app. simpl. rewrite <- app_assoc. exact H.
Qed.

Lemma deduplicateTexts_fixed (texts : list jsstring) :
  NoDup (map normalize texts) -> deduplicateTexts texts = texts.
Proof.
  intros H. rewrite deduplicateTexts_entries, insertAll_distinct by exact H.
  simpl. rewrite map_map. simpl. apply map_id.
Qed.

(** X15.  Phrases with pairwise different keys are all kept, in their order:
    nothing is dropped, replaced or moved. *)
Theorem deduplicateTexts_distinct_keys (texts : list jsstring) :
  NoDup (map normalize texts) -> deduplicateTexts texts = texts.
Proof. apply deduplicateTexts_fixed. Qed.

(** X16.  A second run changes nothing. *)
Theorem deduplicateTexts_idempotent (texts : list jsstring) :
  deduplicateTexts (deduplicateTexts texts) = deduplicateTexts texts.
Proof.
  apply deduplicateTexts_fixed. rewrite deduplicateTexts_keys.
  apply setOfList_NoDup.
Qed.

End DedupMore.

(* ================================================================== *)
(** ** More on [TranslationManager.batchTranslate] *)

(** *** The batches *)

Lemma batchesGo_concat (n fuel : nat) :
  forall texts,
    (0 < n)%nat -> (List.length texts <= fuel)%nat ->
    List.concat (Mapping.batchesGo n fuel texts) = texts.
Proof.
  induction fuel as [| fuel IH]; intros texts Hn Hlen.
  - destruct texts; [reflexivity | simpl in Hlen; lia].
  - destruct texts as [| t texts]; [reflexivity |].
    change (Mapping.batchesGo n (S fuel) (t :: texts))
      with (firstn n (t :: texts)
              :: Mapping.batchesGo n fuel (skipn n (t :: texts))).
    rewrite concat_cons, IH.
    + apply firstn_skipn.
    + exact Hn.
    + rewrite length_skipn. cbn [List.length] in *. lia.
Qed.

Lemma batchesGo_sizes (n fuel : nat) :
  forall texts,
    (0 < n)%nat ->
    Forall (fun batch => (1 <= List.length batch <= n)%nat)
      (Mapping.batchesGo n fuel texts).
Proof.
  induction fuel as [| fuel IH]; intros texts Hn; [constructor |].
  destruct texts as [| t texts]; [constructor |].
  change (Mapping.batchesGo n (S fuel) (t :: texts))
    with (firstn n (t :: texts)
            :: Mapping.batchesGo n fuel (skipn n (t :: texts))).
  constructor; [| now apply IH].
  rewrite length_firstn. cbn [List.length]. lia.
Qed.

Lemma batchesGo_length (n fuel : nat) :
  forall texts,
    (0 < n)%nat -> (List.length texts <= fuel)%nat ->
    List.length (Mapping.batchesGo n fuel texts)
    = ((List.length texts + n - 1) / n)%nat.
Proof.
  induction fuel as [| fuel IH]; intros texts Hn Hlen.
  - destruct texts; [| simpl in Hlen; lia]. simpl.
    symmetry. apply Nat.div_small. lia.
  - destruct texts as [| t texts].
    + simpl. symmetry. apply Nat.div_small. lia.
    + change (Mapping.batchesGo n (S fuel) (t :: texts))
        with (firstn n (t :: texts)
                :: Mapping.batchesGo n fuel (skipn n (t :: texts))).
      rewrite length_cons, IH, length_skipn;
        [| exact Hn | rewrite length_skipn; lia].
      remember (List.length (t :: texts)) as len eqn:El.
      assert (Hpos : (1 <= len)%nat) by (subst len; cbn [List.length]; lia).
      destruct (Nat.le_gt_cases len n) as [Hle | Hgt].
      * replace (len - n + n - 1)%nat with (n - 1)%nat by lia.
        rewrite (Nat.div_small (n - 1) n) by lia.
        apply (Nat.div_unique (len + n - 1) n 1 (len - 1)); lia.
      * replace (len + n - 1)%nat with ((len - n + n - 1) + 1 * n)%nat
          by lia.
        rewrite Nat.div_add by lia. lia.
Qed.

(** X17.  The loop [for (i = 0; i < texts.length; i += batchSize)] with
    [texts.slice(i, i + batchSize)] cuts the texts into consecutive batches:
    put together again they are the texts, no batch is empty, none has more
    than [batchSize] texts, and their number is the one the progress message
    prints, [Math.ceil(texts.length / batchSize)]. *)
Theorem batches_partition (batchSize : nat) (texts : list jsstring) :
  (0 < batchSize)%nat ->
  List.concat (Mapping.batches batchSize texts) = texts
  /\ Forall (fun batch => (1 <= List.length batch <= batchSize)%nat)
       (Mapping.batches batchSize texts)
  /\ List.length (Mapping.batches batchSize texts)
     = ((List.length texts + batchSize - 1) / batchSize)%nat.
Proof.
  intros Hn. unfold Mapping.batches. repeat split.
  - now apply batchesGo_concat.
  - now apply batchesGo_sizes.
  - now apply batchesGo_length.
Qed.

Lemma batches_partition_witness :
  List.concat (Mapping.batches 20 (repeat (u "确定") 45)) = repeat (u "确定") 45
  /\ Forall (fun batch => (1 <= List.length batch <= 20)%nat)
       (Mapping.batches 20 (repeat (u "确定") 45))
  /\ List.length (Mapping.batches 20 (repeat (u "确定") 45))
     = ((List.length (repeat (u "确定") 45) + 20 - 1) / 20)%nat.
Proof. apply (batches_partition 20 (repeat (u "确定") 45)). lia. Defined.

(** *** Requests and keys *)

Section BatchTranslate.

Import Mapping.

Variable baiduBatchTranslate : nat -> list jsstring -> Outcome (list Value).
Variable youdaoTranslate : nat -> jsstring -> Outcome Value.
Variable googleTranslate : nat -> jsstring -> Outcome Value.

Local Abbreviation translateOne :=
  (Mapping.translateOne baiduBatchTranslate youdaoTranslate googleTranslate).
Local Abbreviation batchTranslate :=
  (Mapping.batchTranslate baiduBatchTranslate youdaoTranslate
     googleTranslate).

Lemma ownSet_keys (k : jsstring) (v : Value) (o : Obj) :
  keys (ownSet k v o) = setAdd k (keys o).
Proof.
  unfold keys. induction o as [| [k' v'] o IH]; simpl.
  - reflexivity.
  - unfold setAdd in *. simpl. destruct (str_eqb k k') eqn:E; simpl.
    + apply str_eqb_eq in E. now subst.
    + rewrite IH. now destruct (existsb (str_eqb k) (map fst o)).
Qed.

Lemma objSet_keys (o : Obj) (k : jsstring) (v : Value) :
  k <> u "__proto__" -> keys (objSet o k v) = setAdd k (keys o).
Proof.
  intros H. unfold objSet. apply str_eqb_neq in H. rewrite H.
  apply ownSet_keys.
Qed.

(** The requests one text costs: one, or none when the current translator
    is a member of [Object.prototype]. *)
Lemma translateOne_run (current : Service) (results : Obj)
    (text : jsstring) (clock : nat) :
  exists v,
    translateOne current results text clock
    = (Returned (objSet results text v),
       match current with
       | Inherited => clock
       | _ => S clock
       end).
Proof.
  unfold Mapping.translateOne, translate, tryCatch, bind, request, throw, ret.
  destruct current.
  - destruct (baiduBatchTranslate clock [text]); eexists; reflexivity.
  - destruct (youdaoTranslate clock text); eexists; reflexivity.
  - destruct (googleTranslate clock text); eexists; reflexivity.
  - eexists; reflexivity.
Qed.

Lemma translateBatch_run (current : Service) (batch : list jsstring) :
  forall results clock,
    exists results',
      foldM (translateOne current) batch results clock
      = (Returned results',
         match current with
         | Inherited => clock
         | _ => (clock + List.length batch)%nat
         end)
      /\ (Forall (fun t => t <> u "__proto__") batch ->
          keys results'
          = fold_left (fun st x => setAdd x st) batch (keys results)).
Proof.
  induction batch as [| text batch IH]; intros results clock.
  - exists results. split; [| reflexivity].
    simpl. unfold ret. destruct current; now rewrite ?Nat.add_0_r.
  - destruct (translateOne_run current results text clock) as (v & Hv).
    cbn [foldM]. unfold bind. rewrite Hv.
    destruct (IH (objSet results text v)
                (match current with
                 | Inherited => clock
                 | _ => S clock
                 end)) as (results' & Hrun & Hkeys).
    exists results'. split.
    + rewrite Hrun. destruct current; cbn [List.length];
        rewrite ?Nat.add_succ_r; reflexivity.
    + intros Hall. inversion Hall as [| ? ? Ht Hrest]; subst.
      rewrite (Hkeys Hrest). cbn [fold_left].
      now rewrite (objSet_keys results text v Ht).
Qed.

Lemma mergeResults_keys (batch : list jsstring) :
  forall results translations,
    Forall (fun t => t <> u "__proto__") batch ->
    keys (mergeResults results batch translations)
    = fold_left (fun st x => setAdd x st) batch (keys results).
Proof.
  induction batch as [| text batch IH]; intros results translations Hall.
  - reflexivity.
  - inversion Hall as [| ? ? Ht Hrest]; subst. cbn [mergeResults fold_left].
    rewrite (IH _ _ Hrest). now rewrite objSet_keys.
Qed.

(** One round of the loop over the batches of the Baidu branch. *)
Lemma baiduBatch_run (results : Obj) (batch : list jsstring) (clock : nat) :
  exists results' clock',
    tryCatch
      (translations <- request baiduBatchTranslate batch ;;
       ret (mergeResults results batch translations))
      (foldM (translateOne Baidu) batch results) clock
    = (Returned results', clock')
    /\ (S clock <= clock' <= S clock + List.length batch)%nat
    /\ (Forall (fun t => t <> u "__proto__") batch ->
        keys results'
        = fold_left (fun st x => setAdd x st) batch (keys results)).
Proof.
  unfold tryCatch, bind, request, ret.
  destruct (baiduBatchTranslate clock batch) as [translations |].
  - exists (mergeResults results batch translations), (S clock).
    split; [reflexivity |]. split; [lia |]. apply mergeResults_keys.
  - destruct (translateBatch_run Baidu batch results (S clock))
      as (results' & Hrun & Hkeys).
    exists results', (S clock + List.length batch)%nat.
    split; [exact Hrun |]. split; [lia | exact Hkeys].
Qed.

Lemma fold_setAdd_app (xs ys st : list jsstring) :
  fold_left (fun st x => setAdd x st) (xs ++ ys) st
  = fold_left (fun st x => setAdd x st) ys
      (fold_left (fun st x => setAdd x st) xs st).
Proof. apply fold_left_app. Qed.

Lemma baiduBatches_run (bs : list (list jsstring)) :
  forall results clock,
    exists results' clock',
      foldM
        (fun results batch =>
           tryCatch
             (translations <- request baiduBatchTranslate batch ;;
              ret (mergeResults results batch translations))
             (foldM (translateOne Baidu) batch results))
        bs results clock
      = (Returned results', clock')
      /\ (clock + List.length bs <= clock'
          <= clock + List.length bs + List.length (List.concat bs))%nat
      /\ (Forall (fun t => t <> u "__proto__") (List.concat bs) ->
          keys results'
          = fold_left (fun st x => setAdd x st) (List.concat bs)
              (keys results)).
Proof.
  induction bs as [| batch bs IH]; intros results clock.
  - exists results, clock. split; [reflexivity |]. split; [simpl; lia |].
    reflexivity.
  - destruct (baiduBatch_run results batch clock)
      as (r1 & c1 & Hrun1 & Hc1 & Hk1).
    destruct (IH r1 c1) as (r2 & c2 & Hrun2 & Hc2 & Hk2).
    exists r2, c2. split; [| split].
    + cbn [foldM]. unfold bind at 1. rewrite Hrun1. exact Hrun2.
    + rewrite concat_cons, length_app. cbn [List.length]. lia.
    + rewrite concat_cons. intros Hall. apply Forall_app in Hall.
      destruct Hall as [Hb Hrest].
      now rewrite (Hk2 Hrest), (Hk1 Hb), fold_setAdd_app.
Qed.

Lemma otherBatches_run (current : Service) (bs : list (list jsstring)) :
  forall results clock,
    exists results',
      foldM (fun results batch => foldM (translateOne current) batch results)
        bs results clock
      = (Returned results',
         match current with
         | Inherited => clock
         | _ => (clock + List.length (List.concat bs))%nat
         end)
      /\ (Forall (fun t => t <> u "__proto__") (List.concat bs) ->
          keys results'
          = fold_left (fun st x => setAdd x st) (List.concat bs)
              (keys results)).
Proof.
  induction bs as [| batch bs IH]; intros results clock.
  - exists results. split; [| reflexivity].
    simpl. unfold ret. destruct current; now rewrite ?Nat.add_0_r.
  - destruct (translateBatch_run current batch results clock)
      as (r1 & Hrun1 & Hk1).
    destruct (IH r1 (match current with
                     | Inherited => clock
                     | _ => (clock + List.length batch)%nat
                     end)) as (r2 & Hrun2 & Hk2).
    exists r2. split.
    + cbn [foldM]. unfold bind at 1. rewrite Hrun1, Hrun2.
      rewrite concat_cons, length_app.
      destruct current; rewrite ?Nat.add_assoc; reflexivity.
    + rewrite concat_cons. intros Hall. apply Forall_app in Hall.
      destruct Hall as [Hb Hrest].
      now rewrite (Hk2 Hrest), (Hk1 Hb), fold_setAdd_app.
Qed.



End BatchTranslate.

(* ================================================================== *)
(** ** [BaiduTranslator]: requests and retries *)

Section BaiduRetries.

Import Mapping BaiduTranslator.

Variable appId : Value.
Variable secretKey : Value.
Variable axiosGet : nat -> jsstring -> Reply.

Local Abbreviation go := (batchTranslateGo appId secretKey axiosGet).
Local Abbreviation batchTranslate :=
  (BaiduTranslator.batchTranslate appId secretKey axiosGet).

(** The depth of the calls never reaches the bound: more fuel changes
    nothing. *)
Lemma batchTranslateGo_fuel (fuel : nat) :
  forall fuel' texts retryCount clock,
    (3 - retryCount < fuel)%nat -> (3 - retryCount < fuel')%nat ->
    go fuel texts retryCount clock = go fuel' texts retryCount clock.
Proof.
  induction fuel as [| fuel IH]; intros fuel' texts retryCount clock H H';
    [lia |].
  destruct fuel' as [| fuel']; [lia |].
  cbn [batchTranslateGo].
  destruct (negb (truthy appId) || negb (truthy secretKey)); [reflexivity |].
  destruct (20 <? List.length texts)%nat; [reflexivity |].
  assert (Hrec : forall c,
             (retryCount < 3)%nat ->
             go fuel texts (S retryCount) c = go fuel' texts (S retryCount) c).
  { intros c Hlt. apply IH; lia. }
  assert (Hcatch : forall (attempt : Result (list Value)) c,
             match attempt with
             | Fulfilled translations => (Fulfilled translations, c)
             | Failed code =>
               if isNetworkError code && (retryCount <? 2)%nat
               then go fuel texts (S retryCount) c
               else (Failed None, c)
             end
             = match attempt with
               | Fulfilled translations => (Fulfilled translations, c)
               | Failed code =>
                 if isNetworkError code && (retryCount <? 2)%nat
                 then go fuel' texts (S retryCount) c
                 else (Failed None, c)
               end).
  { intros [translations | code] c; [reflexivity |].
    destruct (isNetworkError code); [| reflexivity]. simpl.
    destruct (retryCount <? 2)%nat eqn:E; [| reflexivity].
    apply Nat.ltb_lt in E. apply Hrec. lia. }
  destruct (axiosGet clock (joinLines texts)) as [[[msg |] | l |] | code].
  - destruct (includes (u "Invalid Access Limit") msg && (retryCount <? 3)%nat)
      eqn:E.
    + apply andb_true_iff in E. destruct E as [_ E]. apply Nat.ltb_lt in E.
      rewrite (Hrec (S clock) E).
      destruct (go fuel' texts (S retryCount) (S clock)) as [attempt c].
      apply (Hcatch attempt c).
    + apply (Hcatch (Failed None) (S clock)).
  - apply (Hcatch (Failed None) (S clock)).
  - destruct (0 <? List.length l)%nat.
    + apply (Hcatch (Fulfilled l) (S clock)).
    + apply (Hcatch (Failed None) (S clock)).
  - apply (Hcatch (Failed None) (S clock)).
  - apply (Hcatch (Failed code) (S clock)).
Qed.

Lemma batchTranslateGo_bound (fuel : nat) :
  forall texts retryCount clock,
    (clock <= snd (go fuel texts retryCount clock) <= clock + fuel)%nat
    /\ match fst (go fuel texts retryCount clock) with
       | Fulfilled translations => translations <> []
       | Failed code => code = None
       end.
Proof.
  induction fuel as [| fuel IH]; intros texts retryCount clock.
  - simpl. split; [lia | reflexivity].
  - cbn [batchTranslateGo].
    destruct (negb (truthy appId) || negb (truthy secretKey));
      [simpl; split; [lia | reflexivity] |].
    destruct (20 <? List.length texts)%nat;
      [simpl; split; [lia | reflexivity] |].
    assert (Hcatch : forall (attempt : Result (list Value)) c,
               (S clock <= c <= clock + S fuel)%nat ->
               (c = S clock \/ attempt = Failed None) ->
               match attempt with
               | Fulfilled translations => translations <> []
               | Failed code => True
               end ->
               let r := match attempt with
                        | Fulfilled translations => (Fulfilled translations, c)
                        | Failed code =>
                          if isNetworkError code && (retryCount <? 2)%nat
                          then go fuel texts (S retryCount) c
                          else (Failed None, c)
                        end in
               (clock <= snd r <= clock + S fuel)%nat
               /\ match fst r with
                  | Fulfilled translations => translations <> []
                  | Failed code => code = None
                  end).
    { intros [translations | code] c Hc Hfirst Hne; simpl.
      - split; [lia | exact Hne].
      - destruct (isNetworkError code && (retryCount <? 2)%nat) eqn:E;
          [| simpl; split; [lia | reflexivity]].
        destruct Hfirst as [-> | Hnone];
          [| injection Hnone as ->; discriminate].
        destruct (IH texts (S retryCount) (S clock)) as [Hb Hr].
        split; [lia | exact Hr]. }
    destruct (axiosGet clock (joinLines texts)) as [[[msg |] | l |] | code].
    + destruct (includes (u "Invalid Access Limit") msg
                && (retryCount <? 3)%nat).
      * destruct (IH texts (S retryCount) (S clock)) as [Hb Hr].
        destruct (go fuel texts (S retryCount) (S clock)) as [attempt c].
        simpl in Hb, Hr.
        destruct attempt as [translations | code].
        -- simpl. split; [lia | exact Hr].
        -- subst code. simpl. split; [lia | reflexivity].
      * apply (Hcatch (Failed None) (S clock)); [lia | now left | exact I].
    + apply (Hcatch (Failed None) (S clock)); [lia | now left | exact I].
    + destruct (0 <? List.length l)%nat eqn:E.
      * apply (Hcatch (Fulfilled l) (S clock)); [lia | now left |].
        intros ->. discriminate.
      * apply (Hcatch (Failed None) (S clock)); [lia | now left | exact I].
    + apply (Hcatch (Failed None) (S clock)); [lia | now left | exact I].
    + apply (Hcatch (Failed code) (S clock)); [lia | now left | exact I].
Qed.

(** X20.  A call of [batchTranslate] sends at most four requests: the first one
    and at most three retries.  What it returns is never the empty array,
    so that [translate] always finds a first element, and the error it
    throws never carries a code. *)
Theorem baidu_at_most_four_requests (texts : list jsstring) (clock : nat) :
  exists outcome clock',
    batchTranslate texts 0 clock = (outcome, clock')
    /\ (clock <= clock' <= clock + 4)%nat
    /\ match outcome with
       | Fulfilled translations => translations <> []
       | Failed code => code = None
       end.
Proof.
  unfold BaiduTranslator.batchTranslate.
  destruct (batchTranslateGo_bound 4 texts 0 clock) as [Hb Hr].
  simpl Nat.sub.
  destruct (go 4 texts 0 clock) as [outcome clock'].
  now exists outcome, clock'.
Qed.

Lemma go_rate_limited (fuel : nat) (texts : list jsstring) :
  truthy appId = true -> truthy secretKey = true ->
  (List.length texts <= 20)%nat ->
  (forall n query,
     exists msg,
       axiosGet n query = Resolved (ErrorData (Some msg))
       /\ includes (u "Invalid Access Limit") msg = true) ->
  forall retryCount clock,
    (3 - retryCount < fuel)%nat ->
    go fuel texts retryCount clock
    = (Failed None, (clock + S (3 - retryCount))%nat).
Proof.
  intros Ha Hs Hlen Hlimit.
  induction fuel as [| fuel IH]; intros retryCount clock Hfuel; [lia |].
  cbn [batchTranslateGo]. rewrite Ha, Hs. simpl negb. simpl orb.
  assert (E20 : (20 <? List.length texts)%nat = false)
    by (apply Nat.ltb_ge; lia).
  rewrite E20.
  destruct (Hlimit clock (joinLines texts)) as (msg & -> & ->).
  destruct (retryCount <? 3)%nat eqn:E; cbn [andb].
  - apply Nat.ltb_lt in E. rewrite IH by lia.
    cbn [isNetworkError andb]. f_equal. lia.
  - apply Nat.ltb_ge in E. cbn [isNetworkError andb]. f_equal. lia.
Qed.

Lemma go_connection_reset (fuel : nat) (texts : list jsstring)
    (code : jsstring) :
  truthy appId = true -> truthy secretKey = true ->
  (List.length texts <= 20)%nat ->
  isNetworkError (Some code) = true ->
  (forall n query, axiosGet n query = Rejected (Some code)) ->
  forall retryCount clock,
    (2 - retryCount < fuel)%nat ->
    go fuel texts retryCount clock
    = (Failed None, (clock + S (2 - retryCount))%nat).
Proof.
  intros Ha Hs Hlen Hcode Hreset.
  induction fuel as [| fuel IH]; intros retryCount clock Hfuel; [lia |].
  cbn [batchTranslateGo]. rewrite Ha, Hs. simpl negb. simpl orb.
  assert (E20 : (20 <? List.length texts)%nat = false)
    by (apply Nat.ltb_ge; lia).
  rewrite E20, Hreset, Hcode.
  destruct (retryCount <? 2)%nat eqn:E; cbn [andb].
  - apply Nat.ltb_lt in E. rewrite IH by lia. f_equal. lia.
  - apply Nat.ltb_ge in E. f_equal. lia.
Qed.

(** X21.  The two retry limits.  With valid credentials and at most 20 texts: when
    every reply is the access-limit error of the service, [batchTranslate]
    gives up after four requests; when every request fails with
    [ECONNRESET] or [ETIMEDOUT], after three. *)
Theorem baidu_retry_limits (texts : list jsstring) (clock : nat) :
  truthy appId = true -> truthy secretKey = true ->
  (List.length texts <= 20)%nat ->
  ((forall n query,
      exists msg,
        axiosGet n query = Resolved (ErrorData (Some msg))
        /\ includes (u "Invalid Access Limit") msg = true) ->
   batchTranslate texts 0 clock = (Failed None, (clock + 4)%nat))
  /\ (forall code,
        isNetworkError (Some code) = true ->
        (forall n query, axiosGet n query = Rejected (Some code)) ->
        batchTranslate texts 0 clock = (Failed None, (clock + 3)%nat)).
Proof.
  intros Ha Hs Hlen. unfold BaiduTranslator.batchTranslate.
  change (S (3 - 0)) with 4%nat. split.
  - intros Hlimit.
    now rewrite (go_rate_limited 4 texts Ha Hs Hlen Hlimit 0 clock) by lia.
  - intros code Hcode Hreset.
    now rewrite (go_connection_reset 4 texts code Ha Hs Hlen Hcode Hreset
                   0 clock) by lia.
Qed.

End BaiduRetries.

(* ================================================================== *)
(** ** [loadApiConfig] *)

Section ApiConfigProofs.

Import ApiConfig.

Variable pathExists : jsstring -> bool.
Variable readJson : jsstring -> option Config.
Variable pathJoin : list jsstring -> jsstring.
Variable dirname : jsstring.

Local Abbreviation loadIfExists := (ApiConfig.loadIfExists pathExists readJson).
Local Abbreviation projectConfigPath := (ApiConfig.projectConfigPath pathJoin).
Local Abbreviation toolConfigPath :=
  (ApiConfig.toolConfigPath pathJoin dirname).
Local Abbreviation tryLoad :=
  (ApiConfig.tryLoad pathExists readJson pathJoin dirname).
Local Abbreviation loadApiConfig :=
  (ApiConfig.loadApiConfig pathExists readJson pathJoin dirname).

Lemma lookup_put_same {A : Type} (name : jsstring) (value : A)
    (o : list (jsstring * A)) :
  lookup name (put name value o) = Some value.
Proof.
  induction o as [| [name' value'] o IH]; simpl.
  - now rewrite str_eqb_refl.
  - destruct (str_eqb name name') eqn:E; simpl.
    + now rewrite str_eqb_refl.
    + now rewrite E.
Qed.

Lemma lookup_put_other {A : Type} (name name' : jsstring) (value : A)
    (o : list (jsstring * A)) :
  str_eqb name name' = false ->
  lookup name (put name' value o) = lookup name o.
Proof.
  intros Hne. induction o as [| [name2 value2] o IH]; simpl.
  - now rewrite Hne.
  - destruct (str_eqb name' name2) eqn:E; simpl.
    + apply str_eqb_eq in E. subst name2. now rewrite Hne.
    + now rewrite IH.
Qed.

Lemma lookup_assign_other (name : jsstring)
    (sections : list (jsstring * Section)) :
  forall target,
    ~ In name (map fst sections) ->
    lookup name
      (fold_left (fun t s => put (fst s) (snd s) t) sections target)
    = lookup name target.
Proof.
  induction sections as [| [name1 s1] sections IH]; intros target Hnot;
    simpl.
  - reflexivity.
  - rewrite IH by (intros H; apply Hnot; now right).
    apply lookup_put_other. apply str_eqb_neq. intros ->.
    apply Hnot. now left.
Qed.

Lemma lookup_assign (name : jsstring) (section : Section)
    (sections : list (jsstring * Section)) :
  forall target,
    NoDup (map fst sections) ->
    lookup name sections = Some section ->
    lookup name
      (fold_left (fun t s => put (fst s) (snd s) t) sections target)
    = Some section.
Proof.
  induction sections as [| [name1 s1] sections IH]; intros target Hnd Hl;
    simpl in *; [discriminate |].
  inversion Hnd as [| ? ? Hnot Hnd']; subst.
  destruct (str_eqb name name1) eqn:E.
  - apply str_eqb_eq in E. subst name1. injection Hl as ->.
    rewrite lookup_assign_other by exact Hnot. apply lookup_put_same.
  - now apply IH.
Qed.

(** The sections of the last source win. *)
Lemma objectAssign_last (earlier : list Config)
    (sections : list (jsstring * Section)) (name : jsstring)
    (section : Section) :
  NoDup (map fst sections) ->
  lookup name sections = Some section ->
  lookup name (objectAssign (earlier ++ [ConfigObject sections]))
  = Some section.
Proof.
  intros Hnd Hl. unfold objectAssign. rewrite fold_left_app. simpl.
  now apply lookup_assign.
Qed.

Lemma assignSection_other (mergedConfig : list (jsstring * Section))
    (name : jsstring) (variables : list (jsstring * jsstring)) (env : Env)
    (variable : jsstring) :
  existsb (fun v => str_eqb variable (fst v)) variables = false ->
  lookup variable (assignSection mergedConfig name variables env)
  = lookup variable env.
Proof.
  intros Hnot. unfold assignSection.
  destruct (lookup name mergedConfig) as [section |]; [| reflexivity].
  destruct (truthy section); [| reflexivity].
  revert env. induction variables as [| v variables IH]; intros env; simpl.
  - reflexivity.
  - simpl in Hnot. apply orb_false_iff in Hnot. destruct Hnot as [Hv Hrest].
    rewrite (IH Hrest). now apply lookup_put_other.
Qed.

Lemma loadIfExists_readable (configPath : jsstring) (configs : list Config) :
  (forall p, pathExists p = true -> readJson p <> None) ->
  exists configs', loadIfExists configPath configs = Some configs'.
Proof.
  intros Hread. unfold ApiConfig.loadIfExists.
  destruct (pathExists configPath) eqn:E; [| now exists configs].
  specialize (Hread configPath E).
  destruct (readJson configPath) as [config |]; [| congruence].
  now exists (configs ++ [config]).
Qed.

(** X22.  The file of the tool directory is read last, and [Object.assign] lets
    the last source win: when that file exists and has a [baidu] section,
    its [appId] and [secretKey] are what the two environment variables hold
    afterwards, whatever the custom file and the project file say (every
    file that exists being readable, and the names of a parsed object being
    distinct). *)
Theorem loadApiConfig_tool_config_wins (sourcePath : jsstring)
    (customConfigPath : option jsstring) (env : Env)
    (sections : list (jsstring * Section)) (section : Section) :
  (forall configPath,
     pathExists configPath = true -> readJson configPath <> None) ->
  pathExists toolConfigPath = true ->
  readJson toolConfigPath = Some (ConfigObject sections) ->
  NoDup (map fst sections) ->
  lookup (u "baidu") sections = Some section ->
  truthy section = true ->
  lookup (u "BAIDU_TRANSLATE_APP_ID")
    (loadApiConfig sourcePath customConfigPath env)
  = Some (envString (u "appId") section)
  /\ lookup (u "BAIDU_TRANSLATE_SECRET_KEY")
       (loadApiConfig sourcePath customConfigPath env)
     = Some (envString (u "secretKey") section).
Proof.
  intros Hok Hexists Hread Hnd Hsection Htruthy.
  assert (Hrun : exists configs2,
             loadApiConfig sourcePath customConfigPath env
             = let mergedConfig :=
                 objectAssign (configs2 ++ [ConfigObject sections]) in
               assignSection mergedConfig (u "google")
                 [(u "GOOGLE_TRANSLATE_API_KEY", u "apiKey")]
                 (assignSection mergedConfig (u "youdao")
                    [(u "YOUDAO_TRANSLATE_APP_KEY", u "appKey");
                     (u "YOUDAO_TRANSLATE_APP_SECRET", u "appSecret")]
                    (assignSection mergedConfig (u "baidu")
                       [(u "BAIDU_TRANSLATE_APP_ID", u "appId");
                        (u "BAIDU_TRANSLATE_SECRET_KEY", u "secretKey")]
                       env))).
  { unfold ApiConfig.loadApiConfig, ApiConfig.tryLoad.
    assert (H1 : exists configs1,
               match customConfigPath with
               | Some custom =>
                 if negb (isEmpty custom) then loadIfExists custom []
                 else Some []
               | None => Some []
               end = Some configs1).
    { destruct customConfigPath as [custom |]; [| now exists []].
      destruct (negb (isEmpty custom)); [| now exists []].
      now apply loadIfExists_readable. }
    destruct H1 as (configs1 & ->).
    destruct (loadIfExists_readable (projectConfigPath sourcePath) configs1
                Hok) as (configs2 & ->).
    exists configs2. unfold ApiConfig.loadIfExists.
    rewrite Hexists, Hread.
    destruct (configs2 ++ [ConfigObject sections]) as [| c cs] eqn:E;
      [now destruct configs2 | reflexivity]. }
  destruct Hrun as (configs2 & ->). cbv zeta.
  pose proof (objectAssign_last configs2 sections (u "baidu") section
                Hnd Hsection) as Hmerged.
  split;
    rewrite (assignSection_other _ (u "google")) by reflexivity;
    rewrite (assignSection_other _ (u "youdao")) by reflexivity;
    unfold assignSection; rewrite Hmerged, Htruthy; cbn [fold_left fst snd].
  - rewrite lookup_put_other by reflexivity. apply lookup_put_same.
  - apply lookup_put_same.
Qed.

(** X23.  With no configuration file, or with one that exists and cannot be
    read, the environment is left as it was: every assignment comes after
    the last read. *)
Theorem loadApiConfig_leaves_environment (sourcePath : jsstring)
    (customConfigPath : option jsstring) (env : Env) :
  (forall configPath, pathExists configPath = false)
  \/ (pathExists (projectConfigPath sourcePath) = true
      /\ readJson (projectConfigPath sourcePath) = None)
  \/ (pathExists toolConfigPath = true /\ readJson toolConfigPath = None) ->
  loadApiConfig sourcePath customConfigPath env = env.
Proof.
  intros H. unfold ApiConfig.loadApiConfig, ApiConfig.tryLoad.
  destruct H as [Hnone | [[He Hr] | [He Hr]]].
  - destruct customConfigPath as [custom |];
      [destruct (negb (isEmpty custom)) |];
      unfold ApiConfig.loadIfExists; rewrite !Hnone; reflexivity.
  - destruct (match customConfigPath with
              | Some custom =>
                if negb (isEmpty custom) then loadIfExists custom []
                else Some []
              | None => Some []
              end) as [configs1 |]; [| reflexivity].
    unfold ApiConfig.loadIfExists at 1. now rewrite He, Hr.
  - destruct (match customConfigPath with
              | Some custom =>
                if negb (isEmpty custom) then loadIfExists custom []
                else Some []
              | None => Some []
              end) as [configs1 |]; [| reflexivity].
    destruct (loadIfExists (projectConfigPath sourcePath) configs1)
      as [configs2 |]; [| reflexivity].
    unfold ApiConfig.loadIfExists at 1. now rewrite He, Hr.
Qed.

End ApiConfigProofs.

(* ================================================================== *)
(** ** The placeholder *)

Section Placeholder.

Import Mapping.

Variable toLowerCase : jsstring -> jsstring.

Lemma replaceSpaceRunsGo_no_space (r : Z) (s : jsstring) :
  Forall (fun c => isSpace c = false) s ->
  replaceSpaceRunsGo r false s = s.
Proof.
  induction 1 as [| c rest Hc _ IH]; simpl; [reflexivity |].
  now rewrite Hc, IH.
Qed.

Lemma placeholderBody_chinese (text : jsstring) :
  forallb isChinese text = true ->
  placeholderBody text = repeat 0x58 (List.length text).
Proof.
  intros H. unfold placeholderBody, replaceSpaceRuns.
  assert (Hmap : map (fun c => if isChinese c then 0x58 else c) text
                 = repeat 0x58 (List.length text)).
  { induction text as [| c text IH]; simpl in *; [reflexivity |].
    apply andb_true_iff in H. destruct H as [-> H]. now rewrite IH. }
  rewrite Hmap. apply replaceSpaceRunsGo_no_space.
  apply Forall_forall. intros c Hc. apply repeat_spec in Hc. now subst.
Qed.

(** X24.  For a phrase made of Chinese characters only, the placeholder is
    [translate_] followed by one [x] for each character: it tells the
    length of the phrase and nothing else, so two such phrases of the same
    length get the same placeholder.  ([toLowerCase] maps a string of ASCII
    characters letter by letter.) *)
Theorem generatePlaceholder_counts_characters (text : jsstring) :
  (forall s, Forall (fun c => isAscii c = true) s ->
             toLowerCase s = map asciiLower s) ->
  forallb isChinese text = true ->
  generatePlaceholder toLowerCase text
  = u "translate_" ++ repeat 0x78 (List.length text)
  /\ forall text',
       forallb isChinese text' = true ->
       List.length text' = List.length text ->
       generatePlaceholder toLowerCase text'
       = generatePlaceholder toLowerCase text.
Proof.
  intros Hlower Hch.
  assert (Hone : forall t,
             forallb isChinese t = true ->
             generatePlaceholder toLowerCase t
             = u "translate_" ++ repeat 0x78 (List.length t)).
  { intros t Ht. unfold generatePlaceholder.
    rewrite (placeholderBody_chinese t Ht). f_equal.
    rewrite Hlower.
    - induction (List.length t) as [| n IH]; simpl; [reflexivity |].
      now rewrite IH.
    - apply Forall_forall. intros c Hc. apply repeat_spec in Hc. now subst. }
  split; [now apply Hone |].
  intros text' Hch' Hlen. rewrite (Hone text' Hch'), (Hone text Hch).
  now rewrite Hlen.
Qed.

End Placeholder.

Lemma generatePlaceholder_counts_characters_witness :
  Mapping.generatePlaceholder toLowerBasicLatin (u "保存失败")
  = u "translate_xxxx"
  /\ Mapping.generatePlaceholder toLowerBasicLatin (u "网络错误")
     = Mapping.generatePlaceholder toLowerBasicLatin (u "保存失败").
Proof.
  destruct (generatePlaceholder_counts_characters toLowerBasicLatin
              (u "保存失败")) as [H1 H2].
  - intros s _. reflexivity.
  - reflexivity.
  - split; [exact H1 |]. apply H2; reflexivity.
Defined.

(* ================================================================== *)
(** ** From the files to the phrases of the mapping *)

Section Pipeline.

Import ASTChineseExtractor.

Variable toLowerCase : jsstring -> jsstring.
Variable readFile : jsstring -> option jsstring.
Variable createSourceFile : jsstring -> jsstring -> Node.

Lemma extractChineseWithRegex_In (p : jsstring) (files : list jsstring) :
  In p (EnhancedIndex.extractChineseWithRegex readFile files)
  <-> exists file,
        In file files /\ In p (Index.extractChineseFromFile readFile file).
Proof.
  unfold EnhancedIndex.extractChineseWithRegex.
  rewrite (fold_left_additive
             (fun chineseTexts file =>
                fold_left (fun acc text => setAdd text acc)
                  (Index.extractChineseFromFile readFile file) chineseTexts)).
  - simpl. split.
    + intros [[] | (file & Hf & H)]. exists file. split; [exact Hf |].
      apply fold_setAdd_In in H. now destruct H as [[] | H].
    + intros (file & Hf & H). right. exists file. split; [exact Hf |].
      apply fold_setAdd_In. now right.
  - intros file q st _. rewrite !fold_setAdd_In. simpl. tauto.
Qed.

Lemma extractChineseWithRegex_NoDup (files : list jsstring) :
  NoDup (EnhancedIndex.extractChineseWithRegex readFile files).
Proof.
  unfold EnhancedIndex.extractChineseWithRegex.
  apply (fold_left_preserves (fun st => NoDup st)); [| constructor].
  intros file st _. apply fold_setAdd_NoDup.
Qed.

(** X25.  [extractChineseWithRegex(files)] returns, without repetition, the
    phrases [extractChineseFromFile] gives for the files; a file that cannot
    be read adds nothing. *)
Theorem extractChineseWithRegex_is_union (files : list jsstring) :
  NoDup (EnhancedIndex.extractChineseWithRegex readFile files)
  /\ forall p,
       In p (EnhancedIndex.extractChineseWithRegex readFile files)
       <-> exists file content,
             In file files /\ readFile file = Some content
             /\ In p (Index.extractChineseFromContent content).
Proof.
  split; [apply extractChineseWithRegex_NoDup |].
  intros p. rewrite extractChineseWithRegex_In.
  unfold Index.extractChineseFromFile. split.
  - intros (file & Hf & H).
    destruct (readFile file) as [content |] eqn:E; [| destruct H].
    now exists file, content.
  - intros (file & content & Hf & E & H). exists file. now rewrite E.
Qed.

(** X26.  The phrases [enhancedExecute] hands to [generateMapping], with either
    extraction method, are pairwise different phrases of the cleaner; each
    of them holds a Chinese character.  These are the conditions under
    which the mapping has one key for every phrase. *)
Theorem enhancedExecute_phrases (extractMethod : jsstring)
    (files : list jsstring) (astOptions : GivenOptions) :
  NoDup (EnhancedIndex.uniqueTexts readFile createSourceFile toLowerCase
           extractMethod files astOptions)
  /\ Forall isCleanPhrase
       (EnhancedIndex.uniqueTexts readFile createSourceFile toLowerCase
          extractMethod files astOptions)
  /\ Forall (fun text => containsChinese text = true)
       (EnhancedIndex.uniqueTexts readFile createSourceFile toLowerCase
          extractMethod files astOptions).
Proof.
  assert (Hclean : Forall isCleanPhrase
                     (EnhancedIndex.uniqueTexts readFile createSourceFile
                        toLowerCase extractMethod files astOptions)).
  { unfold EnhancedIndex.uniqueTexts. apply deduplicateTexts_Forall.
    apply Forall_forall. intros p Hp.
    destruct (str_eqb extractMethod (u "ast")).
    - unfold EnhancedIndex.extractChineseWithAST in Hp.
      apply (extractWithASTGo_In readFile createSourceFile) in Hp.
      destruct Hp as [[] | (file & sourceCode & _ & _ & Hp)].
      match type of Hp with
      | In _ (visitNode ?o ?n []) =>
        pose proof (phraseSet_visitNode o n []
                      (conj (NoDup_nil _) (Forall_nil _))) as [_ Hall]
      end.
      rewrite Forall_forall in Hall. now apply Hall.
    - apply extractChineseWithRegex_In in Hp.
      destruct Hp as (file & _ & Hp).
      unfold Index.extractChineseFromFile in Hp.
      destruct (readFile file) as [content |]; [| destruct Hp].
      apply (extractChineseFromContent_phrases (fun _ => True) content p);
        [now apply Forall_forall | exact Hp]. }
  split; [apply deduplicateTexts_NoDup |]. split; [exact Hclean |].
  eapply Forall_impl; [| exact Hclean]. intros p Hp. apply Hp.
Qed.

End Pipeline.

(* ================================================================== *)
(** ** The name of the translation service *)

Section ServiceName.

Import Mapping.

Variable toLowerCase : jsstring -> jsstring.
Variable baiduBatchTranslate : nat -> list jsstring -> Outcome (list Value).
Variable youdaoTranslate : nat -> jsstring -> Outcome Value.
Variable googleTranslate : nat -> jsstring -> Outcome Value.

Local Abbreviation generateMapping :=
  (Mapping.generateMapping toLowerCase baiduBatchTranslate youdaoTranslate
     googleTranslate).
Local Abbreviation translateOne :=
  (Mapping.translateOne baiduBatchTranslate youdaoTranslate googleTranslate).
Local Abbreviation fallbackTranslation :=
  (Mapping.fallbackTranslation toLowerCase).

(** X27.  [setTranslator] throws for a name that is no translator;
    [generateMapping] catches the error and goes on with the translator the
    manager was constructed with: the result is the one for [baidu]. *)
Theorem generateMapping_unknown_service (chineseTexts : list jsstring)
    (translatorService : jsstring) (shouldTranslate : bool) (clock : nat) :
  lookupTranslator translatorService = None ->
  generateMapping chineseTexts translatorService shouldTranslate clock
  = generateMapping chineseTexts (u "baidu") shouldTranslate clock.
Proof.
  intros H. unfold Mapping.generateMapping.
  destruct (negb shouldTranslate); [reflexivity |].
  unfold bind, tryCatch, setTranslator. rewrite H. reflexivity.
Qed.

Lemma inheritedBatch_run (batch : list jsstring) :
  forall results clock,
    allNull results ->
    exists results',
      foldM (translateOne Inherited) batch results clock
      = (Returned results', clock)
      /\ allNull results'.
Proof.
  induction batch as [| text batch IH]; intros results clock Hnull.
  - now exists results.
  - cbn [foldM]. unfold bind.
    change (translateOne Inherited results text clock)
      with (@Returned Obj (objSet results text VNull), clock).
    apply IH. now apply objSet_allNull.
Qed.

Lemma inheritedBatches_run (bs : list (list jsstring)) :
  forall results clock,
    allNull results ->
    exists results',
      foldM (fun results batch => foldM (translateOne Inherited) batch results)
        bs results clock
      = (Returned results', clock)
      /\ allNull results'.
Proof.
  induction bs as [| batch bs IH]; intros results clock Hnull.
  - now exists results.
  - cbn [foldM]. unfold bind.
    destruct (inheritedBatch_run batch results clock Hnull)
      as (r1 & -> & Hnull1).
    now apply IH.
Qed.

Lemma foldM_keyed_silent (value : jsstring -> Value)
    (f : Obj -> jsstring -> M Obj) (texts : list jsstring) :
  (forall mapping text clock,
      containsChinese text = true ->
      f mapping text clock
      = (Returned (objSet mapping text (value text)), clock)) ->
  Forall (fun t => containsChinese t = true) texts ->
  forall mapping clock,
    NoDup (keys mapping ++ texts) ->
    foldM f texts mapping clock
    = (Returned (mapping ++ map (fun t => (t, value t)) texts), clock).
Proof.
  intros Hf. induction 1 as [| text texts Hch Htexts IH];
    intros mapping clock Hnd; simpl.
  - unfold ret. now rewrite app_nil_r.
  - unfold bind. rewrite (Hf mapping text clock Hch).
    unfold objSet. rewrite (chinese_not_proto text Hch).
    assert (Hnew : ~ In text (keys mapping)).
    { apply NoDup_remove_2 in Hnd. intros Hin. apply Hnd.
      apply in_or_app. now left. }
    rewrite (ownSet_new text (value text) mapping Hnew).
    rewrite IH.
    + now rewrite <- app_assoc.
    + unfold keys. rewrite map_app. simpl. now rewrite <- app_assoc.
Qed.

(** X28.  [setTranslator] accepts a name that [this.translators] inherits from
    [Object.prototype], such as [constructor] or [toString]: the value it
    finds is truthy.  That value has no [translate] method, so every call
    fails before a request is made, and [generateMapping] gives every
    phrase its dictionary entry or its placeholder without sending
    anything. *)
Theorem generateMapping_inherited_name (chineseTexts : list jsstring)
    (translatorService : jsstring) (clock : nat) :
  lookupTranslator translatorService = Some Inherited ->
  NoDup chineseTexts ->
  Forall (fun text => containsChinese text = true) chineseTexts ->
  generateMapping chineseTexts translatorService true clock
  = (Returned
       (map (fun text => (text, fallbackTranslation text)) chineseTexts),
     clock).
Proof.
  intros Hname Hnd Hch. unfold Mapping.generateMapping. cbn [negb].
  unfold bind at 1. unfold tryCatch at 1. unfold setTranslator.
  rewrite Hname. unfold ret at 1.
  unfold tryCatch, bind. unfold Mapping.batchTranslate.
  destruct (inheritedBatches_run (batches 3 chineseTexts) [] clock)
    as (results & -> & Hnull); [constructor |].
  rewrite (foldM_keyed_silent fallbackTranslation); try assumption.
  - reflexivity.
  - intros mapping text clock0 Htext.
    rewrite (objGet_allNull results text Hnull Htext).
    unfold bind. now rewrite translateText_value.
Qed.

End ServiceName.

(* ================================================================== *)
(** ** Runs of the further properties on concrete input *)

Lemma visitNode_enum_values_option_witness :
  In (u "任务已完成")
    (ASTChineseExtractor.visitNode ASTChineseExtractor.defaultOptions
       enumTree [])
  <-> In (u "任务已完成")
        (ASTChineseExtractor.visitNode
           {| ASTChineseExtractor.extractFromComments := false;
              ASTChineseExtractor.extractFromConsole := false;
              ASTChineseExtractor.extractFromJSX := true;
              ASTChineseExtractor.extractFromEnumValues := false;
              ASTChineseExtractor.extractFromEnumKeys := false |}
           enumTree []).
Proof.
  apply (visitNode_enum_values_option ASTChineseExtractor.defaultOptions
           {| ASTChineseExtractor.extractFromComments := false;
              ASTChineseExtractor.extractFromConsole := false;
              ASTChineseExtractor.extractFromJSX := true;
              ASTChineseExtractor.extractFromEnumValues := false;
              ASTChineseExtractor.extractFromEnumKeys := false |}
           enumTree [] (u "任务已完成")); reflexivity.
Defined.

Lemma deduplicateTexts_distinct_keys_witness :
  Dedup.deduplicateTexts toLowerBasicLatin
    [u "保存成功"; u "保存失败"; u "Hello 世界"]
  = [u "保存成功"; u "保存失败"; u "Hello 世界"].
Proof.
  apply (deduplicateTexts_distinct_keys toLowerBasicLatin
           [u "保存成功"; u "保存失败"; u "Hello 世界"]).
  vm_compute. repeat constructor; simpl; intuition discriminate.
Defined.


Lemma baidu_retry_limits_witness :
  BaiduTranslator.batchTranslate (Mapping.VString (u "id"))
    (Mapping.VString (u "secret")) axiosRateLimited [u "确定"] 0%nat 0%nat
  = (BaiduTranslator.Failed None, 4%nat).
Proof.
  apply (baidu_retry_limits (Mapping.VString (u "id"))
           (Mapping.VString (u "secret")) axiosRateLimited [u "确定"]
           0%nat); try reflexivity.
  - simpl. lia.
  - intros n query. exists (u "Invalid Access Limit"). split; reflexivity.
Defined.

Lemma loadApiConfig_tool_config_wins_witness :
  ApiConfig.lookup (u "BAIDU_TRANSLATE_APP_ID")
    (ApiConfig.loadApiConfig (fun _ => true) sampleReadJson samplePathJoin
       (u "/tool/src") (u "/project") None [])
  = Some (u "tool-id")
  /\ ApiConfig.lookup (u "BAIDU_TRANSLATE_SECRET_KEY")
       (ApiConfig.loadApiConfig (fun _ => true) sampleReadJson samplePathJoin
          (u "/tool/src") (u "/project") None [])
     = Some (u "tool-key").
Proof.
  apply (loadApiConfig_tool_config_wins (fun _ => true) sampleReadJson
           samplePathJoin (u "/tool/src") (u "/project") None []
           [(u "baidu",
             ApiConfig.SectionObject
               [(u "appId", u "tool-id"); (u "secretKey", u "tool-key")])]
           (ApiConfig.SectionObject
              [(u "appId", u "tool-id"); (u "secretKey", u "tool-key")]));
    try reflexivity.
  - intros configPath _. unfold sampleReadJson.
    destruct (str_eqb configPath (u "/tool/src/../api-config.json"));
      discriminate.
  - repeat constructor. simpl. tauto.
Defined.

Lemma loadApiConfig_leaves_environment_witness :
  ApiConfig.loadApiConfig (fun _ => false) sampleReadJson samplePathJoin
    (u "/tool/src") (u "/project") (Some (u "/custom.json"))
    [(u "HOME", u "/root")]
  = [(u "HOME", u "/root")].
Proof.
  apply (loadApiConfig_leaves_environment (fun _ => false) sampleReadJson
           samplePathJoin (u "/tool/src") (u "/project")
           (Some (u "/custom.json")) [(u "HOME", u "/root")]).
  left. reflexivity.
Defined.

Lemma generateMapping_unknown_service_witness :
  Mapping.generateMapping toLowerBasicLatin batchServiceDown textServiceDown
    textServiceDown [u "确定"] (u "bing") true 0%nat
  = Mapping.generateMapping toLowerBasicLatin batchServiceDown
      textServiceDown textServiceDown [u "确定"] (u "baidu") true 0%nat.
Proof.
  apply (generateMapping_unknown_service toLowerBasicLatin batchServiceDown
           textServiceDown textServiceDown [u "确定"] (u "bing") true
           0%nat).
  reflexivity.
Defined.

Lemma generateMapping_inherited_name_witness :
  Mapping.generateMapping toLowerBasicLatin batchServiceShort textServiceDown
    textServiceDown [u "取消"; u "保存失败"] (u "constructor") true 0%nat
  = (Mapping.Returned
       [(u "取消", Mapping.VString (u "Cancel"));
        (u "保存失败", Mapping.VString (u "translate_xxxx"))],
     0%nat).
Proof.
  apply (generateMapping_inherited_name toLowerBasicLatin batchServiceShort
           textServiceDown textServiceDown [u "取消"; u "保存失败"]
           (u "constructor") 0%nat).
  - reflexivity.
  - repeat constructor; simpl; intuition discriminate.
  - repeat constructor.
Defined.
